(** * AsteriskCache: the queue and agent cache over the Asterisk manager interface

    A shallow embedding of the [AsteriskCache] class: its instance fields,
    the timers it arms on the Node event loop, the part of the [nami]
    transport it talks to, and the notifications it emits.  Every method is
    a function on the state of that world; what the class does between two
    turns of the event loop is one function application.

    Conventions of the embedding:
    - an AMI event is a record whose fields are all strings, the way [nami]
      delivers the [Key: Value] lines of the protocol;
    - a JavaScript number read through [parseInt] is [NaN] or an integer,
      kept as the mathematical integer;
    - the two JavaScript [Map]s keep what the code relies on: [queues] is
      ordered by first insertion (its values are listed in notifications),
      [pendingEvents] is read by key, and walked through by [cleanup]
      only to clear timers, where the order does not matter;
    - a notification records its payload as it is when [emit] is called. *)

From stdpp Require Import base strings list gmap.
From Stdlib Require Import ZArith Lia Ascii.

Local Open Scope string_scope.
Local Open Scope list_scope.

(** ** Numbers *)

Inductive JsNum := NaN | Num (z : Z).

#[global] Instance JsNum_eq_dec : EqDecision JsNum.
Proof. solve_decision. Defined.

(** The value [parseFloat text]; doubles are not computed with, so the
    number is kept as the text it was read from. *)
Inductive JsFloat := Literal (z : Z) | parseFloat (text : string).

Definition is_white_space (c : Ascii.ascii) : bool :=
  match Ascii.nat_of_ascii c with
  | 9 | 10 | 11 | 12 | 13 | 32 => true
  | _ => false
  end.

Fixpoint trim_start (s : string) : string :=
  match s with
  | String c r => if is_white_space c then trim_start r else s
  | EmptyString => s
  end.

Definition digit_value (c : Ascii.ascii) : option Z :=
  let n := Z.of_nat (Ascii.nat_of_ascii c) in
  if (48 <=? n)%Z && (n <=? 57)%Z then Some (n - 48)%Z
  else if (97 <=? n)%Z && (n <=? 122)%Z then Some (n - 87)%Z
  else if (65 <=? n)%Z && (n <=? 90)%Z then Some (n - 55)%Z
  else None.

(** The longest prefix of digits of the radix, read as a number; [acc] is
    [None] until a digit was seen. *)
Fixpoint read_digits (radix : Z) (s : string) (acc : option Z) : option Z :=
  match s with
  | String c r =>
      match digit_value c with
      | Some d =>
          if (d <? radix)%Z
          then read_digits radix r (Some (default 0%Z acc * radix + d)%Z)
          else acc
      | None => acc
      end
  | EmptyString => acc
  end.

(** [parseInt(string)] without a radix: leading white space, a sign, a
    [0x] prefix for base sixteen, then digits; [NaN] when there is none. *)
Definition parseInt (s : string) : JsNum :=
  let s1 := trim_start s in
  let '(negative, s2) :=
    match s1 with
    | String "-"%char r => (true, r)
    | String "+"%char r => (false, r)
    | _ => (false, s1)
    end in
  let '(radix, s3) :=
    match s2 with
    | String "0"%char (String "x"%char r)
    | String "0"%char (String "X"%char r) => (16%Z, r)
    | _ => (10%Z, s2)
    end in
  match read_digits radix s3 None with
  | Some n => Num (if negative : bool then - n else n)
  | None => NaN
  end.

(** ** Events, members and queues *)

(** An event as [nami] hands it to the ['namiEvent'] listener. *)
Module Event.
Record t := mk {
  event : string;
  queue : string;
  membername : string;
  interface : string;
  stateinterface : string;
  membership : string;
  penalty : string;
  callstaken : string;
  lastcall : string;
  lastpause : string;
  logintime : string;
  incall : string;
  status : string;
  paused : string;
  pausedreason : string;
  wrapuptime : string
}.
End Event.

(** One element of [response.events] in the answer to [QueueStatus]: a
    [QueueParams] element uses the statistics fields, a [QueueMember]
    element the member fields. *)
Module Entry.
Record t := mk {
  event : string;
  queue : string;
  max : string;
  strategy : string;
  calls : string;
  holdtime : string;
  talktime : string;
  completed : string;
  abandoned : string;
  servicelevel : string;
  servicelevelperf : string;
  servicelevelperf2 : string;
  weight : string;
  name : string;
  location : string;
  stateinterface : string;
  membership : string;
  penalty : string;
  callstaken : string;
  lastcall : string;
  lastpause : string;
  logintime : string;
  incall : string;
  status : string;
  paused : string;
  pausedreason : string;
  wrapuptime : string
}.
End Entry.

Module Member.
Record t := mk {
  name : string;
  extension : string;
  stateInterface : string;
  membership : string;
  penalty : JsNum;
  callsTaken : JsNum;
  lastCall : JsNum;
  lastPause : JsNum;
  loginTime : JsNum;
  inCall : JsNum;
  status : JsNum;
  paused : JsNum;
  pausedReason : string;
  wrapupTime : JsNum
}.
End Member.

Module Queue.
Record t := mk {
  name : string;
  max : JsNum;
  strategy : string;
  calls : JsNum;
  holdtime : JsNum;
  talktime : JsNum;
  completed : JsNum;
  abandoned : JsNum;
  servicelevel : JsNum;
  servicelevelperf : JsFloat;
  servicelevelperf2 : JsFloat;
  weight : JsNum;
  members : list Member.t
}.

(** [queue.members = ms], the other fields as they are. *)
Definition with_members (ms : list Member.t) (q : t) : t :=
  mk (name q) (max q) (strategy q) (calls q) (holdtime q) (talktime q)
     (completed q) (abandoned q) (servicelevel q) (servicelevelperf q)
     (servicelevelperf2 q) (weight q) ms.
End Queue.

(** ** A [Map] with string keys, in insertion order *)

Section JsMap.
Context {V : Type}.

Definition JsMap := list (string * V).

Fixpoint Map_get (k : string) (m : JsMap) : option V :=
  match m with
  | [] => None
  | (k', v) :: r => if decide (k' = k) then Some v else Map_get k r
  end.

(** [set] keeps the position of a key that is already there and puts a
    new key last. *)
Fixpoint Map_set (k : string) (v : V) (m : JsMap) : JsMap :=
  match m with
  | [] => [(k, v)]
  | (k', v') :: r =>
      if decide (k' = k) then (k, v) :: r else (k', v') :: Map_set k v r
  end.

Definition Map_values (m : JsMap) : list V := m.*2.

Definition Map_keys (m : JsMap) : list string := m.*1.
End JsMap.

Arguments JsMap : clear implicits.

(** ** The world around the cache *)

(** [eventType], the second argument of [scheduleEventProcessing]. *)
Inductive EventType := QueueMemberStatus | QueueMemberPause.

(** The closures handed to [setTimeout]. *)
Inductive Callback :=
  | ProcessPending (extension : string) (eventType : EventType)
  | ConnectTimedOut
  | Reconnect
  | SendTimedOut (call : nat).

Record Timer := { timer_id : nat; due : Z; callback : Callback }.

(** A value of [pendingEvents].  The code keeps the merged event of an
    extension under the extension and its timer under
    [`${extension}_timeout`], both in the same [Map].  The elements of
    [queues] are queue names; [None] is [undefined], which
    [[existingEvent.queue]] yields when [existingEvent] is a timer. *)
Inductive Pending :=
  | PendingEvent (event : Event.t) (queues : list (option string))
  | TimerHandle (id : nat).

(** The [nami] actions the cache builds. *)
Inductive Action :=
  | QueueStatus
  | QueuePause (memberInterface reason : string)
  | QueueUnpause (memberInterface : string)
  | QueueAdd (memberInterface queueName : string) (paused : Z)
      (memberName : string) (penalty : Z)
  | QueueRemove (memberInterface queueName : string).

Module Response.
Record t := mk {
  response : string;
  message : option string;
  events : option (list Entry.t)
}.
End Response.

(** The errors [_send] rejects with:
    - [NotConnected]: ['Não conectado ao Asterisk'];
    - [Timeout a]: [`Timeout ao enviar ação ... para o Asterisk`];
    - [InvalidResponse a]: [`Resposta inválida do Asterisk para a ação ...`];
    - [RemoteError m]: [`Erro do Asterisk: ${m}`]. *)
Inductive CommandError :=
  | NotConnected
  | Timeout (action : Action)
  | InvalidResponse (action : Action)
  | RemoteError (message : string).

(** How the promise of [_send] ends. *)
Inductive Settled := Resolved (response : Response.t) | Rejected (error : CommandError).

(** How an [async] method ends for the one who awaits it. *)
Inductive Completion (A : Type) := Return (a : A) | Throw (error : CommandError).
Arguments Return {A} a.
Arguments Throw {A} error.

Inductive JsReturn := undefined | boolean (b : bool).

(** What became of a call of [_send]: how its promise was settled and what
    the method that awaited it returned to its own caller. *)
Record Outcome := {
  of_call : nat;
  settled : Settled;
  returned : Completion JsReturn
}.

(** The methods that await [_send]. *)
Inductive Method :=
  | updateQueues_method
  | pauseMember_method
  | unpauseMember_method
  | addMemberToQueue_method
  | removeMemberFromQueue_method.

(** A call of [_send] whose promise is still pending. *)
Record InFlight := {
  call : nat;
  action : Action;
  awaiting : Method;
  timeoutId : nat
}.

Inductive Notification :=
  | connected
  | disconnected
  | reconnecting (delay : Z)
  | connectionError (code message : string)
  | queuesUpdated (queues : list Queue.t)
  | memberAdded (queue : string) (member : Member.t)
  | memberRemoved (queue : string) (member : Member.t)
  | memberStatusChanged (queues : list (option string)) (member : Member.t)
      (paused : JsNum)
  | memberPauseChanged (queues : list (option string)) (member : Member.t)
      (paused : JsNum).

(** The instance fields of [AsteriskCache]. *)
Record Cache := {
  queues : JsMap Queue.t;
  isConnected : bool;
  reconnectInterval : Z;
  connectTimeout : Z;
  connectionTimeout : option nat;
  reconnectTimeout : option nat;
  isReconnecting : bool;
  shouldReconnect : bool;
  pendingEvents : gmap string Pending;
  eventTimeout : Z
}.

(** The event loop: the clock in milliseconds, the armed timers in the
    order they were armed, and the pending promises of [_send]. *)
Record Loop := {
  now : Z;
  timers : list Timer;
  next_timer : nat;
  inflight : list InFlight;
  next_call : nat
}.

(** The transport as the cache sees it.  [listeners]: the listeners of the
    cache are registered on [nami].  [socket]: [None] while [nami.socket]
    does not exist, otherwise whether the cache listens to its ['error']
    event.  [routing] stands for the listeners [nami] registers on itself
    when it is constructed, through which socket data reaches the callbacks
    of [send]; [removeAllListeners()] without an event name removes them
    too.  The rest counts what the transport was asked. *)
Record Nami := {
  listeners : bool;
  socket : option bool;
  routing : bool;
  opened : nat;
  closed : nat;
  sent : list Action
}.

Record World := {
  this : Cache;
  loop : Loop;
  nami : Nami;
  emitted : list Notification;
  results : list Outcome;
  exited : bool
}.

(** [new AsteriskCache(config)] in a fresh process. *)
Definition new_AsteriskCache : World :=
  {| this := {| queues := []; isConnected := false;
                reconnectInterval := 5000; connectTimeout := 10000;
                connectionTimeout := None; reconnectTimeout := None;
                isReconnecting := false; shouldReconnect := true;
                pendingEvents := ∅; eventTimeout := 500 |};
     loop := {| now := 0; timers := []; next_timer := 0;
                inflight := []; next_call := 0 |};
     nami := {| listeners := false; socket := None; routing := true;
                opened := 0; closed := 0; sent := [] |};
     emitted := []; results := []; exited := false |}.

(** *** Field updates *)

Definition set_queues (v : JsMap Queue.t) (c : Cache) : Cache :=
  {| queues := v; isConnected := isConnected c;
     reconnectInterval := reconnectInterval c;
     connectTimeout := connectTimeout c;
     connectionTimeout := connectionTimeout c;
     reconnectTimeout := reconnectTimeout c;
     isReconnecting := isReconnecting c;
     shouldReconnect := shouldReconnect c;
     pendingEvents := pendingEvents c; eventTimeout := eventTimeout c |}.

Definition set_isConnected (v : bool) (c : Cache) : Cache :=
  {| queues := queues c; isConnected := v;
     reconnectInterval := reconnectInterval c;
     connectTimeout := connectTimeout c;
     connectionTimeout := connectionTimeout c;
     reconnectTimeout := reconnectTimeout c;
     isReconnecting := isReconnecting c;
     shouldReconnect := shouldReconnect c;
     pendingEvents := pendingEvents c; eventTimeout := eventTimeout c |}.

Definition set_connectionTimeout (v : option nat) (c : Cache) : Cache :=
  {| queues := queues c; isConnected := isConnected c;
     reconnectInterval := reconnectInterval c;
     connectTimeout := connectTimeout c;
     connectionTimeout := v;
     reconnectTimeout := reconnectTimeout c;
     isReconnecting := isReconnecting c;
     shouldReconnect := shouldReconnect c;
     pendingEvents := pendingEvents c; eventTimeout := eventTimeout c |}.

Definition set_reconnectTimeout (v : option nat) (c : Cache) : Cache :=
  {| queues := queues c; isConnected := isConnected c;
     reconnectInterval := reconnectInterval c;
     connectTimeout := connectTimeout c;
     connectionTimeout := connectionTimeout c;
     reconnectTimeout := v;
     isReconnecting := isReconnecting c;
     shouldReconnect := shouldReconnect c;
     pendingEvents := pendingEvents c; eventTimeout := eventTimeout c |}.

Definition set_isReconnecting (v : bool) (c : Cache) : Cache :=
  {| queues := queues c; isConnected := isConnected c;
     reconnectInterval := reconnectInterval c;
     connectTimeout := connectTimeout c;
     connectionTimeout := connectionTimeout c;
     reconnectTimeout := reconnectTimeout c;
     isReconnecting := v;
     shouldReconnect := shouldReconnect c;
     pendingEvents := pendingEvents c; eventTimeout := eventTimeout c |}.

Definition set_shouldReconnect (v : bool) (c : Cache) : Cache :=
  {| queues := queues c; isConnected := isConnected c;
     reconnectInterval := reconnectInterval c;
     connectTimeout := connectTimeout c;
     connectionTimeout := connectionTimeout c;
     reconnectTimeout := reconnectTimeout c;
     isReconnecting := isReconnecting c;
     shouldReconnect := v;
     pendingEvents := pendingEvents c; eventTimeout := eventTimeout c |}.

Definition set_pendingEvents (v : gmap string Pending) (c : Cache) : Cache :=
  {| queues := queues c; isConnected := isConnected c;
     reconnectInterval := reconnectInterval c;
     connectTimeout := connectTimeout c;
     connectionTimeout := connectionTimeout c;
     reconnectTimeout := reconnectTimeout c;
     isReconnecting := isReconnecting c;
     shouldReconnect := shouldReconnect c;
     pendingEvents := v; eventTimeout := eventTimeout c |}.

Definition set_timers (v : list Timer) (l : Loop) : Loop :=
  {| now := now l; timers := v; next_timer := next_timer l;
     inflight := inflight l; next_call := next_call l |}.

Definition set_now (v : Z) (l : Loop) : Loop :=
  {| now := v; timers := timers l; next_timer := next_timer l;
     inflight := inflight l; next_call := next_call l |}.

Definition set_next_timer (v : nat) (l : Loop) : Loop :=
  {| now := now l; timers := timers l; next_timer := v;
     inflight := inflight l; next_call := next_call l |}.

Definition set_inflight (v : list InFlight) (l : Loop) : Loop :=
  {| now := now l; timers := timers l; next_timer := next_timer l;
     inflight := v; next_call := next_call l |}.

Definition set_next_call (v : nat) (l : Loop) : Loop :=
  {| now := now l; timers := timers l; next_timer := next_timer l;
     inflight := inflight l; next_call := v |}.

Definition set_listeners (v : bool) (n : Nami) : Nami :=
  {| listeners := v; socket := socket n; routing := routing n;
     opened := opened n; closed := closed n; sent := sent n |}.

Definition set_socket (v : option bool) (n : Nami) : Nami :=
  {| listeners := listeners n; socket := v; routing := routing n;
     opened := opened n; closed := closed n; sent := sent n |}.

Definition set_routing (v : bool) (n : Nami) : Nami :=
  {| listeners := listeners n; socket := socket n; routing := v;
     opened := opened n; closed := closed n; sent := sent n |}.

Definition set_opened (v : nat) (n : Nami) : Nami :=
  {| listeners := listeners n; socket := socket n; routing := routing n;
     opened := v; closed := closed n; sent := sent n |}.

Definition set_closed (v : nat) (n : Nami) : Nami :=
  {| listeners := listeners n; socket := socket n; routing := routing n;
     opened := opened n; closed := v; sent := sent n |}.

Definition set_sent (v : list Action) (n : Nami) : Nami :=
  {| listeners := listeners n; socket := socket n; routing := routing n;
     opened := opened n; closed := closed n; sent := v |}.

Definition on_this (f : Cache → Cache) (w : World) : World :=
  {| this := f (this w); loop := loop w; nami := nami w;
     emitted := emitted w; results := results w; exited := exited w |}.

Definition on_loop (f : Loop → Loop) (w : World) : World :=
  {| this := this w; loop := f (loop w); nami := nami w;
     emitted := emitted w; results := results w; exited := exited w |}.

Definition on_nami (f : Nami → Nami) (w : World) : World :=
  {| this := this w; loop := loop w; nami := f (nami w);
     emitted := emitted w; results := results w; exited := exited w |}.

(** [this.emit(...)]. *)
Definition emit (n : Notification) (w : World) : World :=
  {| this := this w; loop := loop w; nami := nami w;
     emitted := emitted w ++ [n]; results := results w; exited := exited w |}.

(** The method awaiting call [c] has run to its end. *)
Definition complete (c : nat) (p : Settled) (r : Completion JsReturn)
    (w : World) : World :=
  {| this := this w; loop := loop w; nami := nami w;
     emitted := emitted w;
     results := results w ++ [{| of_call := c; settled := p; returned := r |}];
     exited := exited w |}.

(** [process.exit(0)]. *)
Definition process_exit (w : World) : World :=
  {| this := this w; loop := loop w; nami := nami w;
     emitted := emitted w; results := results w; exited := true |}.

(** *** Timers *)

(** Node arms a timer for one millisecond when the delay is below one or
    above [2^31 - 1]. *)
Definition timer_delay (ms : Z) : Z :=
  if ((ms <? 1) || (2147483647 <? ms))%Z then 1%Z else ms.

Definition setTimeout (cb : Callback) (ms : Z) (w : World) : nat * World :=
  let l := loop w in
  let id := next_timer l in
  let t := {| timer_id := id; due := (now l + timer_delay ms)%Z; callback := cb |} in
  (id, on_loop (λ l, set_next_timer (S id) (set_timers (timers l ++ [t]) l)) w).

(** [clearTimeout] of a handle; nothing happens when that timer has fired
    or was cleared before. *)
Definition clearTimeout (id : nat) (w : World) : World :=
  on_loop (λ l, set_timers (filter (λ t, timer_id t ≠ id) (timers l)) l) w.

Definition armed (id : nat) (w : World) : Prop :=
  id ∈ timer_id <$> timers (loop w).

(** ** The coalescing engine *)

(** The member record built from a member event, as [processPendingEvent]
    does for a status event and [handleQueueMemberAdded] for a new member. *)
Definition member_of_event (event : Event.t) : Member.t :=
  {| Member.name := Event.membername event;
     Member.extension := Event.interface event;
     Member.stateInterface := Event.stateinterface event;
     Member.membership := Event.membership event;
     Member.penalty := parseInt (Event.penalty event);
     Member.callsTaken := parseInt (Event.callstaken event);
     Member.lastCall := parseInt (Event.lastcall event);
     Member.lastPause := parseInt (Event.lastpause event);
     Member.loginTime := parseInt (Event.logintime event);
     Member.inCall := parseInt (Event.incall event);
     Member.status := parseInt (Event.status event);
     Member.paused := parseInt (Event.paused event);
     Member.pausedReason := Event.pausedreason event;
     Member.wrapupTime := parseInt (Event.wrapuptime event) |}.

(** [{...oldMember, paused: ..., pausedReason: ..., lastPause: ...}]. *)
Definition paused_member (event : Event.t) (oldMember : Member.t) : Member.t :=
  {| Member.name := Member.name oldMember;
     Member.extension := Member.extension oldMember;
     Member.stateInterface := Member.stateInterface oldMember;
     Member.membership := Member.membership oldMember;
     Member.penalty := Member.penalty oldMember;
     Member.callsTaken := Member.callsTaken oldMember;
     Member.lastCall := Member.lastCall oldMember;
     Member.lastPause := parseInt (Event.lastpause event);
     Member.loginTime := Member.loginTime oldMember;
     Member.inCall := Member.inCall oldMember;
     Member.status := Member.status oldMember;
     Member.paused := parseInt (Event.paused event);
     Member.pausedReason := Event.pausedreason event;
     Member.wrapupTime := Member.wrapupTime oldMember |}.

Definition newMember (eventType : EventType) (event : Event.t)
    (oldMember : Member.t) : Member.t :=
  match eventType with
  | QueueMemberStatus => member_of_event event
  | QueueMemberPause => paused_member event oldMember
  end.

(** [members.findIndex(m => m.extension === extension)] together with the
    member found there; [None] is the index [-1]. *)
Definition find_member (extension : string) (members : list Member.t)
    : option (nat * Member.t) :=
  list_find (λ m, Member.extension m = extension) members.

(** The body of the loop over the affected queues. *)
Definition apply_to_queue (eventType : EventType) (event : Event.t)
    (queueName : option string) (qs : JsMap Queue.t) : JsMap Queue.t :=
  match queueName with
  | None => qs
  | Some n =>
      match Map_get n qs with
      | None => qs
      | Some queue =>
          match find_member (Event.interface event) (Queue.members queue) with
          | None => qs
          | Some (memberIndex, oldMember) =>
              Map_set n
                (Queue.with_members
                   (<[memberIndex := newMember eventType event oldMember]>
                      (Queue.members queue)) queue) qs
          end
      end
  end.

Definition apply_to_queues (eventType : EventType) (event : Event.t)
    (names : list (option string)) (qs : JsMap Queue.t) : JsMap Queue.t :=
  foldl (λ qs n, apply_to_queue eventType event n qs) qs names.

(** The member the merged notification carries: the one found in
    [queues[0]]. *)
Definition first_queue_member (extension : string)
    (names : list (option string)) (qs : JsMap Queue.t) : option Member.t :=
  match names with
  | Some n :: _ =>
      match Map_get n qs with
      | Some firstQueue => snd <$> find_member extension (Queue.members firstQueue)
      | None => None
      end
  | _ => None
  end.

Definition merged_notification (eventType : EventType)
    (names : list (option string)) (member : Member.t) : Notification :=
  match eventType with
  | QueueMemberStatus => memberStatusChanged names member (Member.paused member)
  | QueueMemberPause => memberPauseChanged names member (Member.paused member)
  end.

Definition timeout_key (extension : string) : string := extension +:+ "_timeout".

Definition processPendingEvent (extension : string) (eventType : EventType)
    (w : World) : World :=
  match pendingEvents (this w) !! extension with
  | None => w
  | Some pending =>
      let w1 :=
        on_this (λ c, set_pendingEvents
                        (delete (timeout_key extension)
                           (delete extension (pendingEvents c))) c) w in
      match pending with
      | PendingEvent event names =>
          let w2 :=
            on_this (λ c, set_queues
                            (apply_to_queues eventType event names (queues c)) c)
              w1 in
          let w3 :=
            match first_queue_member (Event.interface event) names
                    (queues (this w2)) with
            | Some member => emit (merged_notification eventType names member) w2
            | None => w2
            end in
          emit (queuesUpdated (Map_values (queues (this w3)))) w3
      | TimerHandle _ =>
          (* every field of a timer reads as [undefined]: the queue list is
             [[undefined]], no queue has that key, nothing is applied and
             no member is found *)
          emit (queuesUpdated (Map_values (queues (this w1)))) w1
      end
  end.

(** [existingEvent.queues] after the two [if]s that initialise and extend
    it. *)
Definition merged_queues (existingEvent : Pending) (queue : string)
    : list (option string) :=
  let names :=
    match existingEvent with
    | PendingEvent _ names => names
    | TimerHandle _ => [None]
    end in
  if decide (Some queue ∈ names) then names else names ++ [Some queue].

Definition scheduleEventProcessing (extension : string) (eventType : EventType)
    (event : Event.t) (w : World) : World :=
  let names :=
    match pendingEvents (this w) !! extension with
    | Some existingEvent => merged_queues existingEvent (Event.queue event)
    | None => [Some (Event.queue event)]
    end in
  let w1 :=
    on_this (λ c, set_pendingEvents
                    (<[extension := PendingEvent event names]> (pendingEvents c)) c)
      w in
  let w2 :=
    match pendingEvents (this w1) !! timeout_key extension with
    | Some (TimerHandle id) => clearTimeout id w1
    | Some (PendingEvent _ _) => w1
    | None => w1
    end in
  let '(timeout, w3) :=
    setTimeout (ProcessPending extension eventType) (eventTimeout (this w2)) w2 in
  on_this (λ c, set_pendingEvents
                  (<[timeout_key extension := TimerHandle timeout]>
                     (pendingEvents c)) c) w3.

(** ** Member added and member removed *)

Definition default_queue (queueName : string) : Queue.t :=
  {| Queue.name := queueName; Queue.max := Num 0; Queue.strategy := "ringall";
     Queue.calls := Num 0; Queue.holdtime := Num 0; Queue.talktime := Num 0;
     Queue.completed := Num 0; Queue.abandoned := Num 0;
     Queue.servicelevel := Num 0; Queue.servicelevelperf := Literal 0;
     Queue.servicelevelperf2 := Literal 0; Queue.weight := Num 0;
     Queue.members := [] |}.

Definition handleQueueMemberAdded (event : Event.t) (w : World) : World :=
  let queueName := Event.queue event in
  let '(queue, w1) :=
    match Map_get queueName (queues (this w)) with
    | Some queue => (queue, w)
    | None =>
        let queue := default_queue queueName in
        (queue, on_this (λ c, set_queues (Map_set queueName queue (queues c)) c) w)
    end in
  let member := member_of_event event in
  match find_member (Member.extension member) (Queue.members queue) with
  | None =>
      let queue' := Queue.with_members (Queue.members queue ++ [member]) queue in
      let w2 := on_this (λ c, set_queues (Map_set queueName queue' (queues c)) c) w1 in
      let w3 := emit (memberAdded queueName member) w2 in
      emit (queuesUpdated (Map_values (queues (this w3)))) w3
  | Some _ => w1
  end.

Definition handleQueueMemberRemoved (event : Event.t) (w : World) : World :=
  let queueName := Event.queue event in
  match Map_get queueName (queues (this w)) with
  | Some queue =>
      match find_member (Event.interface event) (Queue.members queue) with
      | Some (memberIndex, removedMember) =>
          let queue' :=
            Queue.with_members (delete memberIndex (Queue.members queue)) queue in
          let w1 := on_this (λ c, set_queues (Map_set queueName queue' (queues c)) c) w in
          let w2 := emit (memberRemoved queueName removedMember) w1 in
          emit (queuesUpdated (Map_values (queues (this w2)))) w2
      | None => w
      end
  | None => w
  end.

(** ** Full resync *)

Definition queue_of_entry (event : Entry.t) : Queue.t :=
  {| Queue.name := Entry.queue event;
     Queue.max := parseInt (Entry.max event);
     Queue.strategy := Entry.strategy event;
     Queue.calls := parseInt (Entry.calls event);
     Queue.holdtime := parseInt (Entry.holdtime event);
     Queue.talktime := parseInt (Entry.talktime event);
     Queue.completed := parseInt (Entry.completed event);
     Queue.abandoned := parseInt (Entry.abandoned event);
     Queue.servicelevel := parseInt (Entry.servicelevel event);
     Queue.servicelevelperf := parseFloat (Entry.servicelevelperf event);
     Queue.servicelevelperf2 := parseFloat (Entry.servicelevelperf2 event);
     Queue.weight := parseInt (Entry.weight event);
     Queue.members := [] |}.

Definition member_of_entry (event : Entry.t) : Member.t :=
  {| Member.name := Entry.name event;
     Member.extension := Entry.location event;
     Member.stateInterface := Entry.stateinterface event;
     Member.membership := Entry.membership event;
     Member.penalty := parseInt (Entry.penalty event);
     Member.callsTaken := parseInt (Entry.callstaken event);
     Member.lastCall := parseInt (Entry.lastcall event);
     Member.lastPause := parseInt (Entry.lastpause event);
     Member.loginTime := parseInt (Entry.logintime event);
     Member.inCall := parseInt (Entry.incall event);
     Member.status := parseInt (Entry.status event);
     Member.paused := parseInt (Entry.paused event);
     Member.pausedReason := Entry.pausedreason event;
     Member.wrapupTime := parseInt (Entry.wrapuptime event) |}.

(** [currentQueue.members.push(member)].  [currentQueue] is the object the
    map holds under its name: every [QueueParams] element stores the fresh
    object before it becomes current.  It is kept here as its key. *)
Definition push_member (currentQueue : string) (member : Member.t)
    (qs : JsMap Queue.t) : JsMap Queue.t :=
  match Map_get currentQueue qs with
  | Some queue =>
      Map_set currentQueue
        (Queue.with_members (Queue.members queue ++ [member]) queue) qs
  | None => qs
  end.

(** The loop over [response.events]; [currentQueue] is [None] for [null]. *)
Fixpoint resync (events : list Entry.t) (currentQueue : option string)
    (qs : JsMap Queue.t) : JsMap Queue.t :=
  match events with
  | [] => qs
  | event :: rest =>
      if decide (Entry.event event = "QueueParams") then
        resync rest (Some (Entry.queue event))
          (Map_set (Entry.queue event) (queue_of_entry event) qs)
      else if decide (Entry.event event = "QueueMember") then
        match currentQueue with
        | Some n => resync rest currentQueue (push_member n (member_of_entry event) qs)
        | None => resync rest currentQueue qs
        end
      else resync rest currentQueue qs
  end.

(** [updateQueues] from the point where [await this._send(...)] returns or
    throws. *)
Definition updateQueues_resume (p : Settled) (w : World) : World :=
  match p with
  | Resolved response =>
      match Response.events response with
      | Some events =>
          let w1 := on_this (set_queues []) w in
          let w2 := on_this (λ c, set_queues (resync events None (queues c)) c) w1 in
          emit (queuesUpdated (Map_values (queues (this w2)))) w2
      | None => w
      end
  | Rejected error => w
  end.

(** ** The command gateway *)

(** [response.message || 'Erro desconhecido']: the default stands in for a
    message that is missing or empty. *)
Definition remote_message (response : Response.t) : string :=
  match Response.message response with
  | Some m => if decide (m = "") then "Erro desconhecido" else m
  | None => "Erro desconhecido"
  end.

(** The callback [_send] passes to [nami.send]; [None] is a response that
    is [null] or [undefined]. *)
Definition send_callback (action : Action) (response : option Response.t) : Settled :=
  match response with
  | None => Rejected (InvalidResponse action)
  | Some response =>
      if decide (Response.response response = "Error") then
        Rejected (RemoteError (remote_message response))
      else Resolved response
  end.

Definition await (p : Settled) : Completion Response.t :=
  match p with
  | Resolved response => Return response
  | Rejected error => Throw error
  end.

Definition bind {A B} (c : Completion A) (k : A → Completion B) : Completion B :=
  match c with
  | Return a => k a
  | Throw error => Throw error
  end.

Definition try_catch {A} (body : Completion A) (handler : CommandError → Completion A)
    : Completion A :=
  match body with
  | Return a => Return a
  | Throw error => handler error
  end.

(** The four mutating methods from the point where their [await] ends. *)
Definition pauseMember_resume (p : Settled) : Completion JsReturn :=
  try_catch
    (bind (await p) (λ response,
       if decide (Response.response response = "Success")
       then Return (boolean true) else Return (boolean false)))
    (λ error, Return (boolean false)).

Definition unpauseMember_resume (p : Settled) : Completion JsReturn :=
  try_catch
    (bind (await p) (λ response,
       if decide (Response.response response = "Success")
       then Return (boolean true) else Return (boolean false)))
    (λ error, Return (boolean false)).

Definition addMemberToQueue_resume (p : Settled) : Completion JsReturn :=
  try_catch
    (bind (await p) (λ response,
       if decide (Response.response response = "Success")
       then Return (boolean true) else Return (boolean false)))
    (λ error, Return (boolean false)).

Definition removeMemberFromQueue_resume (p : Settled) : Completion JsReturn :=
  try_catch
    (bind (await p) (λ response,
       if decide (Response.response response = "Success")
       then Return (boolean true) else Return (boolean false)))
    (λ error, Return (boolean false)).

(** The promise of call [c] is settled with [p]: the method that awaits it
    goes on. *)
Definition resume (c : nat) (m : Method) (p : Settled) (w : World) : World :=
  match m with
  | updateQueues_method => complete c p (Return undefined) (updateQueues_resume p w)
  | pauseMember_method => complete c p (pauseMember_resume p) w
  | unpauseMember_method => complete c p (unpauseMember_resume p) w
  | addMemberToQueue_method => complete c p (addMemberToQueue_resume p) w
  | removeMemberFromQueue_method => complete c p (removeMemberFromQueue_resume p) w
  end.

(** [_send(action, timeout)], called by method [m]. *)
Definition _send (m : Method) (a : Action) (timeout : Z) (w : World) : World :=
  let c := next_call (loop w) in
  let w0 := on_loop (set_next_call (S c)) w in
  if isConnected (this w0) then
    let '(id, w1) := setTimeout (SendTimedOut c) timeout w0 in
    let w2 := on_nami (λ n, set_sent (sent n ++ [a]) n) w1 in
    on_loop (λ l, set_inflight
                    (inflight l ++
                       [{| call := c; action := a; awaiting := m; timeoutId := id |}]) l)
      w2
  else resume c m (Rejected NotConnected) w0.

Definition find_call (c : nat) (w : World) : option InFlight :=
  snd <$> list_find (λ f, call f = c) (inflight (loop w)).

Definition forget_call (c : nat) (w : World) : World :=
  on_loop (λ l, set_inflight (filter (λ f, call f ≠ c) (inflight l)) l) w.

(** The timer of call [c] fires.  A promise settles once: when the
    response came first the rejection is lost. *)
Definition send_timed_out (c : nat) (w : World) : World :=
  match find_call c w with
  | Some f => resume c (awaiting f) (Rejected (Timeout (action f))) (forget_call c w)
  | None => w
  end.

(** [nami] calls back with the response to call [c]. *)
Definition send_responded (c : nat) (response : option Response.t) (w : World) : World :=
  match find_call c w with
  | Some f =>
      resume c (awaiting f) (send_callback (action f) response)
        (forget_call c (clearTimeout (timeoutId f) w))
  | None => w
  end.

Definition updateQueues (w : World) : World :=
  _send updateQueues_method QueueStatus 5000 w.

Definition pauseMember (memberInterface reason : string) (w : World) : World :=
  _send pauseMember_method (QueuePause memberInterface reason) 5000 w.

Definition unpauseMember (memberInterface : string) (w : World) : World :=
  _send unpauseMember_method (QueueUnpause memberInterface) 5000 w.

Definition addMemberToQueue (memberInterface memberName queueName : string)
    (paused penalty : Z) (w : World) : World :=
  _send addMemberToQueue_method
    (QueueAdd memberInterface queueName paused memberName penalty) 5000 w.

Definition removeMemberFromQueue (memberInterface queueName : string)
    (w : World) : World :=
  _send removeMemberFromQueue_method (QueueRemove memberInterface queueName) 5000 w.

(** ** The connection controller *)

Definition clear_connectionTimeout (w : World) : World :=
  match connectionTimeout (this w) with
  | Some id => on_this (set_connectionTimeout None) (clearTimeout id w)
  | None => w
  end.

Definition clear_reconnectTimeout (w : World) : World :=
  match reconnectTimeout (this w) with
  | Some id => on_this (set_reconnectTimeout None) (clearTimeout id w)
  | None => w
  end.

(** [if (this.nami.socket) this.nami.socket.removeAllListeners(...)]. *)
Definition socket_off (socket : option bool) : option bool :=
  match socket with
  | Some _ => Some false
  | None => None
  end.

(** [if (this.nami.socket) this.nami.socket.on('error', ...)]. *)
Definition socket_on (socket : option bool) : option bool :=
  match socket with
  | Some _ => Some true
  | None => None
  end.

(** After [nami.open()] there is a socket.  A socket error reaches the
    cache whenever it has registered for it. *)
Definition nami_open (socket : option bool) : option bool :=
  match socket with
  | Some b => Some b
  | None => Some false
  end.

(** [connect].  Neither the registration of listeners nor [nami.open]
    throws here: the transport reports its failures through events. *)
Definition connect (w : World) : World :=
  if isReconnecting (this w) || negb (shouldReconnect (this w)) then w
  else
    let w1 := on_this (set_isReconnecting true) w in
    let w2 := on_nami (set_listeners false) w1 in
    let w3 := on_nami (λ n, set_socket (socket_off (socket n)) n) w2 in
    let '(id, w4) := setTimeout ConnectTimedOut (connectTimeout (this w3)) w3 in
    let w5 := on_this (set_connectionTimeout (Some id)) w4 in
    let w6 := on_nami (set_listeners true) w5 in
    let w7 := on_nami (λ n, set_socket (socket_on (socket n)) n) w6 in
    let w8 := on_nami (λ n, set_socket (nami_open (socket n))
                              (set_opened (S (opened n)) n)) w7 in
    on_this (set_isReconnecting false) w8.

Definition handleConnection (w : World) : World :=
  let w1 := clear_connectionTimeout w in
  let w2 := on_this (λ c, set_isReconnecting false (set_isConnected true c)) w1 in
  let w3 := emit connected w2 in
  on_nami (λ n, set_socket (socket_on (socket n)) n) w3.

Definition handleDisconnection (w : World) : World :=
  let w1 := clear_connectionTimeout w in
  let w2 := clear_reconnectTimeout w1 in
  let w3 := on_this (set_isConnected false) w2 in
  let w4 := emit disconnected w3 in
  if shouldReconnect (this w4) then
    let w5 := emit (reconnecting (reconnectInterval (this w4))) w4 in
    let '(id, w6) := setTimeout Reconnect (reconnectInterval (this w5)) w5 in
    on_this (set_reconnectTimeout (Some id)) w6
  else w4.

(** [key.endsWith(suffix)]. *)
Definition endsWith (suffix key : string) : bool :=
  let n := String.length key in
  let m := String.length suffix in
  if (m <=? n)%nat then String.eqb (String.substring (n - m) m key) suffix
  else false.

(** The body of the loop of [cleanup] over the entries of [pendingEvents];
    [clearTimeout] of a value that is not a timer does nothing. *)
Definition clear_entry (key : string) (value : Pending) (w : World) : World :=
  if endsWith "_timeout" key then
    match value with
    | TimerHandle id => clearTimeout id w
    | PendingEvent _ _ => w
    end
  else w.

(** [cleanup]; [close_error] is the message of the error [nami.close]
    throws, if it does. *)
Definition cleanup (close_error : option string) (w : World) : World :=
  let w1 := on_this (set_shouldReconnect false) w in
  let w2 := clear_connectionTimeout w1 in
  let w3 := clear_reconnectTimeout w2 in
  let w4 := map_fold clear_entry w3 (pendingEvents (this w3)) in
  let w5 := on_this (set_pendingEvents ∅) w4 in
  let w6 := on_nami (λ n, set_routing false (set_listeners false n)) w5 in
  let w7 := on_nami (λ n, set_socket (socket_off (socket n)) n) w6 in
  let w8 :=
    if isConnected (this w7) then
      let w' := on_nami (λ n, set_closed (S (closed n)) n) w7 in
      match close_error with
      | Some message => emit (connectionError "CLEANUP_ERROR" message) w'
      | None => w'
      end
    else w7 in
  process_exit (emit disconnected w8).

Definition disconnect (close_error : option string) (w : World) : World :=
  cleanup close_error w.

Definition handleEvent (event : Event.t) (w : World) : World :=
  if decide (Event.event event = "FullyBooted") then updateQueues w
  else if decide (Event.event event = "QueueMemberStatus") then
    scheduleEventProcessing (Event.interface event) QueueMemberStatus event w
  else if decide (Event.event event = "QueueMemberAdded") then
    handleQueueMemberAdded event w
  else if decide (Event.event event = "QueueMemberRemoved") then
    handleQueueMemberRemoved event w
  else if decide (Event.event event = "QueueMemberPause") then
    scheduleEventProcessing (Event.interface event) QueueMemberPause event w
  else w.

(** ** Reading the cache *)

(** The objects the accessors build: the properties of a member, spread,
    with the queue it was read from, with the queues it was found in, or
    with both. *)
Module QueueAgent.
Record t := mk { member : Member.t; queue : string }.
End QueueAgent.

Module AgentData.
Record t := mk { member : Member.t; queue : string; queues : list string }.
End AgentData.

Module Agent.
Record t := mk { member : Member.t; queues : list string }.
End Agent.

Definition getQueues (w : World) : list Queue.t := Map_values (queues (this w)).

Definition getQueue (queueName : string) (w : World) : option Queue.t :=
  Map_get queueName (queues (this w)).

(** The body of the loop of [getAgentByExtension] on [agentQueues] and
    [agentData]; [agentData] has no [queues] yet. *)
Definition collect_agent (extension : string)
    (found : list string * option (Member.t * string)) (queue : Queue.t)
    : list string * option (Member.t * string) :=
  let '(agentQueues, agentData) := found in
  match snd <$> find_member extension (Queue.members queue) with
  | Some member =>
      (agentQueues ++ [Queue.name queue],
       match agentData with
       | None => Some (member, Queue.name queue)
       | Some _ => agentData
       end)
  | None => found
  end.

(** [None] is [null]. *)
Definition getAgentByExtension (extension : string) (w : World)
    : option AgentData.t :=
  let '(agentQueues, agentData) :=
    foldl (collect_agent extension) ([], None) (getQueues w) in
  match agentData with
  | Some (member, queue) =>
      Some {| AgentData.member := member; AgentData.queue := queue;
              AgentData.queues := agentQueues |}
  | None => None
  end.

Definition getAvailableAgents (queueName : string) (w : World) : list QueueAgent.t :=
  match Map_get queueName (queues (this w)) with
  | None => []
  | Some queue =>
      let availableMembers :=
        filter (λ m, Member.status m = Num 1 ∧ Member.paused m = Num 0)
          (Queue.members queue) in
      (λ member, {| QueueAgent.member := member; QueueAgent.queue := queueName |})
        <$> availableMembers
  end.

Definition getQueueAgents (queueName : string) (w : World) : list QueueAgent.t :=
  match Map_get queueName (queues (this w)) with
  | None => []
  | Some queue =>
      (λ member, {| QueueAgent.member := member; QueueAgent.queue := queueName |})
        <$> Queue.members queue
  end.

(** The body of the inner loop of [getAllAgents]; the [push] on the agent
    the map holds is a [set] under its key. *)
Definition add_agent (queueName : string) (agents : JsMap Agent.t)
    (member : Member.t) : JsMap Agent.t :=
  match Map_get (Member.extension member) agents with
  | None =>
      Map_set (Member.extension member)
        {| Agent.member := member; Agent.queues := [queueName] |} agents
  | Some agent =>
      if decide (queueName ∈ Agent.queues agent) then agents
      else
        Map_set (Member.extension member)
          {| Agent.member := Agent.member agent;
             Agent.queues := Agent.queues agent ++ [queueName] |} agents
  end.

Definition all_agents (qs : JsMap Queue.t) : JsMap Agent.t :=
  foldl (λ agents '(queueName, queue),
           foldl (add_agent queueName) agents (Queue.members queue))
    [] qs.

Definition getAllAgents (w : World) : list Agent.t :=
  Map_values (all_agents (queues (this w))).

(** ** The event loop *)

(** The loop takes a timer off its list and runs the callback. *)
Definition fire (t : Timer) (w : World) : World :=
  let w1 :=
    on_loop (λ l, set_now (Z.max (now l) (due t))
                    (set_timers (filter (λ t', timer_id t' ≠ timer_id t) (timers l)) l))
      w in
  match callback t with
  | ProcessPending extension eventType => processPendingEvent extension eventType w1
  | ConnectTimedOut =>
      handleDisconnection
        (emit (connectionError "TIMEOUT" "Timeout ao conectar ao Asterisk AMI") w1)
  | Reconnect => connect w1
  | SendTimedOut c => send_timed_out c w1
  end.

(** What can happen to the cache in one turn of the loop: a timer fires,
    the transport calls a listener or a callback, the process raises an
    uncaught exception or receives a signal, or the host calls a method. *)
Inductive Input :=
  | timer (id : nat)
  | namiConnected
  | namiConnectionClose
  | namiInvalidPeer
  | namiEvent (event : Event.t)
  | namiConnectionError (message : string)
  | socket_error (message : string)
  | nami_response (c : nat) (response : option Response.t)
  | uncaughtException (code : string)
  | signal (close_error : option string)
  | call_connect
  | call_disconnect (close_error : option string)
  | call_updateQueues
  | call_pauseMember (memberInterface reason : string)
  | call_unpauseMember (memberInterface : string)
  | call_addMemberToQueue (memberInterface memberName queueName : string)
      (paused penalty : Z)
  | call_removeMemberFromQueue (memberInterface queueName : string).

Definition find_timer (id : nat) (w : World) : option Timer :=
  snd <$> list_find (λ t, timer_id t = id) (timers (loop w)).

(** The handler an input reaches; an input nobody listens to is dropped. *)
Definition dispatch (i : Input) (w : World) : World :=
  match i with
  | timer id =>
      match find_timer id w with
      | Some t => fire t w
      | None => w
      end
  | namiConnected => if listeners (nami w) then handleConnection w else w
  | namiConnectionClose => if listeners (nami w) then handleDisconnection w else w
  | namiInvalidPeer =>
      if listeners (nami w) then
        handleDisconnection
          (emit (connectionError "INVALID_PEER" "Credenciais inválidas do Asterisk AMI") w)
      else w
  | namiEvent event => if listeners (nami w) then handleEvent event w else w
  | namiConnectionError message =>
      if listeners (nami w) then
        handleDisconnection (emit (connectionError "CONNECTION_ERROR" message) w)
      else w
  | socket_error message =>
      if decide (socket (nami w) = Some true) then
        handleDisconnection (emit (connectionError "SOCKET_ERROR" message) w)
      else w
  | nami_response c response =>
      if routing (nami w) then send_responded c response w else w
  | uncaughtException code =>
      if decide (code = "ECONNREFUSED") then handleDisconnection w else w
  | signal close_error => cleanup close_error w
  | call_connect => connect w
  | call_disconnect close_error => disconnect close_error w
  | call_updateQueues => updateQueues w
  | call_pauseMember memberInterface reason => pauseMember memberInterface reason w
  | call_unpauseMember memberInterface => unpauseMember memberInterface w
  | call_addMemberToQueue memberInterface memberName queueName paused penalty =>
      addMemberToQueue memberInterface memberName queueName paused penalty w
  | call_removeMemberFromQueue memberInterface queueName =>
      removeMemberFromQueue memberInterface queueName w
  end.


(** *** Running the loop against the clock *)

(** The armed timer that is due first, the one armed first among equals. *)
Fixpoint earliest (ts : list Timer) : option Timer :=
  match ts with
  | [] => None
  | t :: r =>
      match earliest r with
      | Some t' => if (due t' <? due t)%Z then Some t' else Some t
      | None => Some t
      end
  end.

(** Let the clock reach [t], firing in turn every timer due by then.
    Callbacks can arm new timers, so the run is bounded by [fuel]; [None]
    means the bound was too small. *)
Fixpoint run_until (fuel : nat) (t : Z) (w : World) : option World :=
  match earliest (timers (loop w)) with
  | Some tm =>
      if (due tm <=? t)%Z then
        match fuel with
        | S fuel' => run_until fuel' t (fire tm w)
        | O => None
        end
      else Some (on_loop (λ l, set_now (Z.max (now l) t) l) w)
  | None => Some (on_loop (λ l, set_now (Z.max (now l) t) l) w)
  end.

(** The event [event] arrives at time [t]. *)
Definition arrive (fuel : nat) (t : Z) (event : Event.t) (w : World) : option World :=
  handleEvent event <$> run_until fuel t w.

(** A burst of events, each with its arrival time, then the clock runs on
    to [stop]. *)
Fixpoint play (fuel : nat) (events : list (Z * Event.t)) (stop : Z) (w : World)
    : option World :=
  match events with
  | [] => run_until fuel stop w
  | (t, event) :: rest =>
      match arrive fuel t event w with
      | Some w' => play fuel rest stop w'
      | None => None
      end
  end.

(** ** Vocabulary of the statements *)

(** [new] is [old] up to the three fields a pause event carries. *)
Definition same_but_pause (old new : Member.t) : Prop :=
  Member.name new = Member.name old ∧
  Member.extension new = Member.extension old ∧
  Member.stateInterface new = Member.stateInterface old ∧
  Member.membership new = Member.membership old ∧
  Member.penalty new = Member.penalty old ∧
  Member.callsTaken new = Member.callsTaken old ∧
  Member.lastCall new = Member.lastCall old ∧
  Member.loginTime new = Member.loginTime old ∧
  Member.inCall new = Member.inCall old ∧
  Member.status new = Member.status old ∧
  Member.wrapupTime new = Member.wrapupTime old.

(** The extensions of a member list, in order. *)
Definition extensions (ms : list Member.t) : list string := Member.extension <$> ms.

(** What the loop of [processPendingEvent] makes of one member list and of
    one queue. *)
Definition updated_members (eventType : EventType) (event : Event.t)
    (members : list Member.t) : list Member.t :=
  match find_member (Event.interface event) members with
  | Some (memberIndex, oldMember) =>
      <[memberIndex := newMember eventType event oldMember]> members
  | None => members
  end.

Definition updated_queue (eventType : EventType) (event : Event.t)
    (queue : Queue.t) : Queue.t :=
  Queue.with_members (updated_members eventType event (Queue.members queue)) queue.

(** The members of a queue of the cache; none when the queue is not there. *)
Definition members_in (queueName : string) (w : World) : list Member.t :=
  match Map_get queueName (queues (this w)) with
  | Some queue => Queue.members queue
  | None => []
  end.

(** ** Sample data *)

Definition pause_event (queue interface paused pausedreason : string) : Event.t :=
  {| Event.event := "QueueMemberPause"; Event.queue := queue;
     Event.membername := "Agent"; Event.interface := interface;
     Event.stateinterface := interface; Event.membership := "dynamic";
     Event.penalty := "0"; Event.callstaken := "3"; Event.lastcall := "1745830000";
     Event.lastpause := "1745831000"; Event.logintime := "1745820000";
     Event.incall := "0"; Event.status := "1"; Event.paused := paused;
     Event.pausedreason := pausedreason; Event.wrapuptime := "0" |}.


Definition added_event (queue interface : string) : Event.t :=
  {| Event.event := "QueueMemberAdded"; Event.queue := queue;
     Event.membername := "Agent"; Event.interface := interface;
     Event.stateinterface := interface; Event.membership := "dynamic";
     Event.penalty := "0"; Event.callstaken := "0"; Event.lastcall := "0";
     Event.lastpause := "0"; Event.logintime := "1745820000";
     Event.incall := "0"; Event.status := "1"; Event.paused := "0";
     Event.pausedreason := ""; Event.wrapuptime := "0" |}.

Definition agent (extension : string) : Member.t :=
  {| Member.name := "Agent"; Member.extension := extension;
     Member.stateInterface := extension; Member.membership := "dynamic";
     Member.penalty := Num 0; Member.callsTaken := Num 3;
     Member.lastCall := Num 1745830000; Member.lastPause := Num 0;
     Member.loginTime := Num 1745820000; Member.inCall := Num 0;
     Member.status := Num 1; Member.paused := Num 0;
     Member.pausedReason := ""; Member.wrapupTime := Num 0 |}.

Definition queue_of (name : string) (members : list Member.t) : Queue.t :=
  Queue.with_members members (default_queue name).

(** A fresh cache whose queue map was filled. *)
Definition cache_of (qs : list Queue.t) : World :=
  on_this (set_queues ((λ q, (Queue.name q, q)) <$> qs)) new_AsteriskCache.

(** Queues A and B, the agent [SIP/100] in both. *)
Definition two_queues : World :=
  cache_of [queue_of "A" [agent "SIP/200"; agent "SIP/100"];
            queue_of "B" [agent "SIP/100"]].

Definition lunch (queue : string) : Event.t :=
  pause_event queue "SIP/100" "1" "Lunch".

(** [two_queues] with a merged pause event waiting for its timer. *)
Definition lunch_pending (names : list (option string)) : World :=
  on_this (set_pendingEvents {[ "SIP/100" := PendingEvent (lunch "B") names ]})
    two_queues.

(** Timer identifiers and call numbers in use are below the next ones the
    loop hands out. *)
Definition fresh (w : World) : Prop :=
  Forall (λ t, timer_id t < next_timer (loop w)) (timers (loop w)) ∧
  Forall (λ f, call f < next_call (loop w)) (inflight (loop w)).

(** What method [m] returns to its caller once its promise is settled. *)
Definition returns (m : Method) (p : Settled) : Completion JsReturn :=
  match m with
  | updateQueues_method => Return undefined
  | pauseMember_method => pauseMember_resume p
  | unpauseMember_method => unpauseMember_resume p
  | addMemberToQueue_method => addMemberToQueue_resume p
  | removeMemberFromQueue_method => removeMemberFromQueue_resume p
  end.

(** The promise was resolved with a response whose outcome is [Success]. *)
Definition succeeded (p : Settled) : bool :=
  match p with
  | Resolved response => bool_decide (Response.response response = "Success")
  | Rejected _ => false
  end.

(** The action a call of a mutating method sends. *)
Definition mutating_action (i : Input) : option Action :=
  match i with
  | call_pauseMember memberInterface reason =>
      Some (QueuePause memberInterface reason)
  | call_unpauseMember memberInterface => Some (QueueUnpause memberInterface)
  | call_addMemberToQueue memberInterface memberName queueName paused penalty =>
      Some (QueueAdd memberInterface queueName paused memberName penalty)
  | call_removeMemberFromQueue memberInterface queueName =>
      Some (QueueRemove memberInterface queueName)
  | _ => None
  end.

(** A connected cache: [connect] was called and the transport reported
    ['namiConnected']. *)
Definition connected_cache : World :=
  dispatch namiConnected (connect new_AsteriskCache).

(** The queue names a response defines. *)
Definition defined_queues (events : list Entry.t) : list string :=
  Entry.queue <$> filter (λ event, Entry.event event = "QueueParams") events.

(** The cache after a sequence of inputs. *)
Definition run (inputs : list Input) (w : World) : World :=
  foldl (λ w i, dispatch i w) w inputs.

(** Every queue of the cache lists an extension at most once. *)
Definition unique_extensions (w : World) : Prop :=
  ∀ k queue, Map_get k (queues (this w)) = Some queue →
    NoDup (extensions (Queue.members queue)).

Definition params_entry (queue : string) : Entry.t :=
  {| Entry.event := "QueueParams"; Entry.queue := queue; Entry.max := "0";
     Entry.strategy := "ringall"; Entry.calls := "0"; Entry.holdtime := "12";
     Entry.talktime := "95"; Entry.completed := "7"; Entry.abandoned := "1";
     Entry.servicelevel := "60"; Entry.servicelevelperf := "80.0";
     Entry.servicelevelperf2 := "85.0"; Entry.weight := "0";
     Entry.name := ""; Entry.location := ""; Entry.stateinterface := "";
     Entry.membership := ""; Entry.penalty := ""; Entry.callstaken := "";
     Entry.lastcall := ""; Entry.lastpause := ""; Entry.logintime := "";
     Entry.incall := ""; Entry.status := ""; Entry.paused := "";
     Entry.pausedreason := ""; Entry.wrapuptime := "" |}.

Definition member_entry (queue location : string) : Entry.t :=
  {| Entry.event := "QueueMember"; Entry.queue := queue; Entry.max := "";
     Entry.strategy := ""; Entry.calls := ""; Entry.holdtime := "";
     Entry.talktime := ""; Entry.completed := ""; Entry.abandoned := "";
     Entry.servicelevel := ""; Entry.servicelevelperf := "";
     Entry.servicelevelperf2 := ""; Entry.weight := "";
     Entry.name := "Agent"; Entry.location := location;
     Entry.stateinterface := location; Entry.membership := "dynamic";
     Entry.penalty := "0"; Entry.callstaken := "3";
     Entry.lastcall := "1745830000"; Entry.lastpause := "0";
     Entry.logintime := "1745820000"; Entry.incall := "0";
     Entry.status := "1"; Entry.paused := "0"; Entry.pausedreason := "";
     Entry.wrapuptime := "0" |}.

Definition status_response (events : list Entry.t) : Response.t :=
  {| Response.response := "Success";
     Response.message := Some "Queue status will follow";
     Response.events := Some events |}.

(** Two queue definitions, two members under the first and one under the
    second. *)
Definition boot_entries : list Entry.t :=
  [params_entry "A"; member_entry "A" "SIP/100"; member_entry "A" "SIP/200";
   params_entry "B"; member_entry "B" "SIP/100"].

(** A response that lists the same location twice under one queue. *)
Definition repeated_entries : list Entry.t :=
  [params_entry "A"; member_entry "A" "SIP/100"; member_entry "A" "SIP/100"].

Definition fully_booted : Event.t :=
  {| Event.event := "FullyBooted"; Event.queue := ""; Event.membername := "";
     Event.interface := ""; Event.stateinterface := ""; Event.membership := "";
     Event.penalty := ""; Event.callstaken := ""; Event.lastcall := "";
     Event.lastpause := ""; Event.logintime := ""; Event.incall := "";
     Event.status := ""; Event.paused := ""; Event.pausedreason := "";
     Event.wrapuptime := "" |}.

(** [event.event] as an event type, for the two kinds [handleEvent] hands
    to [scheduleEventProcessing]. *)
Definition coalesced_type (event : Event.t) : option EventType :=
  if decide (Event.event event = "QueueMemberStatus") then Some QueueMemberStatus
  else if decide (Event.event event = "QueueMemberPause") then Some QueueMemberPause
  else None.

(** The debounce window: the delay of the timer [scheduleEventProcessing]
    arms. *)
Definition window (w : World) : Z := timer_delay (eventTimeout (this w)).

(** Arrival times that follow [prev] with gaps below [W]. *)
Fixpoint close_arrivals (W prev : Z) (events : list (Z * Event.t)) : Prop :=
  match events with
  | [] => True
  | (t, _) :: rest => (prev ≤ t < prev + W)%Z ∧ close_arrivals W t rest
  end.

(** The distinct names of a list, each at the place of its first
    occurrence. *)
Fixpoint first_occurrences (names : list string) : list string :=
  match names with
  | [] => []
  | n :: rest => n :: filter (λ n', n' ≠ n) (first_occurrences rest)
  end.


(** The cache [w] while the merged event [event] of extension [E] waits
    for the timer [id], armed at time [t]. *)
Definition waiting (w : World) (E : string) (eventType : EventType)
    (event : Event.t) (names : list (option string)) (id : nat) (t : Z) : World :=
  {| this :=
       set_pendingEvents
         (<[timeout_key E := TimerHandle id]>
            (<[E := PendingEvent event names]> (pendingEvents (this w))))
         (this w);
     loop :=
       {| now := t;
          timers := [{| timer_id := id; due := t + window w;
                        callback := ProcessPending E eventType |}];
          next_timer := S id;
          inflight := inflight (loop w);
          next_call := next_call (loop w) |};
     nami := nami w; emitted := emitted w; results := results w;
     exited := exited w |}.

(** What is pending after the events [rest] have joined a pending event. *)
Fixpoint after_burst (eventType : EventType) (event : Event.t)
    (names : list (option string)) (id : nat) (t : Z)
    (rest : list (Z * Event.t))
    : EventType * Event.t * list (option string) * nat * Z :=
  match rest with
  | [] => (eventType, event, names, id, t)
  | (t', event') :: rest' =>
      after_burst (default eventType (coalesced_type event')) event'
        (merged_queues (PendingEvent event names) (Event.queue event'))
        (S id) t' rest'
  end.

(** An arrival of a status or pause event for extension [E]. *)
Definition of_burst (E : string) (arrival : Z * Event.t) : Prop :=
  Event.interface arrival.2 = E ∧ is_Some (coalesced_type arrival.2).

(** [r] is [b] with some of its timers cleared. *)
Definition timers_cleared (b r : World) : Prop :=
  this r = this b ∧ nami r = nami b ∧ emitted r = emitted b ∧
  results r = results b ∧ exited r = exited b ∧
  now (loop r) = now (loop b) ∧ next_timer (loop r) = next_timer (loop b) ∧
  inflight (loop r) = inflight (loop b) ∧ next_call (loop r) = next_call (loop b) ∧
  ∀ t, t ∈ timers (loop r) → t ∈ timers (loop b).

(** What [cleanup] establishes and every later step keeps: reconnection
    is switched off, nothing is pending, nothing of the transport reaches
    the cache. *)
Definition shut_down (w : World) : Prop :=
  shouldReconnect (this w) = false ∧
  pendingEvents (this w) = ∅ ∧
  listeners (nami w) = false ∧
  socket (nami w) ≠ Some true ∧
  routing (nami w) = false.

(** The notifications that can still be emitted after [cleanup]. *)
Definition after_shutdown (n : Notification) : Prop :=
  match n with
  | disconnected | connectionError _ _ => True
  | _ => False
  end.


(** The cache knows its timers.  Every armed debounce timer is the one
    recorded for its extension in [pendingEvents], every armed reconnect
    timer is [reconnectTimeout], every armed connect-timeout timer is
    [connectionTimeout], and a reconnect timer and a connect-timeout timer
    are never armed together. *)
Definition debounce_tracked (w : World) : Prop :=
  ∀ t E eventType, t ∈ timers (loop w) →
    callback t = ProcessPending E eventType →
    endsWith "_timeout" E = false ∧
    pendingEvents (this w) !! timeout_key E = Some (TimerHandle (timer_id t)).

Definition reconnect_tracked (w : World) : Prop :=
  ∀ t, t ∈ timers (loop w) → callback t = Reconnect →
    reconnectTimeout (this w) = Some (timer_id t).

Definition connect_tracked (w : World) : Prop :=
  ∀ t, t ∈ timers (loop w) → callback t = ConnectTimedOut →
    connectionTimeout (this w) = Some (timer_id t).

Definition one_attempt (w : World) : Prop :=
  ∀ t1 t2, t1 ∈ timers (loop w) → t2 ∈ timers (loop w) →
    callback t1 = Reconnect → callback t2 = ConnectTimedOut → False.

Definition tracked (w : World) : Prop :=
  fresh w ∧ NoDup (timer_id <$> timers (loop w)) ∧
  debounce_tracked w ∧ reconnect_tracked w ∧ connect_tracked w ∧ one_attempt w.

(** No connection attempt and no reconnection is under way. *)
Definition idle_connection (w : World) : Prop :=
  ∀ t, t ∈ timers (loop w) →
    callback t ≠ Reconnect ∧ callback t ≠ ConnectTimedOut.

(** The inputs of a regular history: status and pause events name no
    extension that ends in [_timeout], and the host calls [connect] only
    while no attempt is under way. *)
Definition regular_input (w : World) (i : Input) : Prop :=
  match i with
  | namiEvent event =>
      is_Some (coalesced_type event) →
      endsWith "_timeout" (Event.interface event) = false
  | call_connect => idle_connection w
  | _ => True
  end.

Fixpoint regular (history : list Input) (w : World) : Prop :=
  match history with
  | [] => True
  | i :: rest => regular_input w i ∧ regular rest (dispatch i w)
  end.

(** [r] differs from [w] in none of the fields [tracked] reads, except
    that timers may have been taken off the list. *)
Definition handles_kept (w r : World) : Prop :=
  pendingEvents (this r) = pendingEvents (this w) ∧
  connectionTimeout (this r) = connectionTimeout (this w) ∧
  reconnectTimeout (this r) = reconnectTimeout (this w) ∧
  next_timer (loop r) = next_timer (loop w) ∧
  inflight (loop r) = inflight (loop w) ∧
  next_call (loop r) = next_call (loop w) ∧
  timers (loop r) `sublist_of` timers (loop w).

(** Two histories that are not regular: a pause event for an extension
    and one for that extension followed by [_timeout], and two calls of
    [connect] in a row. *)
Definition colliding_events : list Input :=
  [call_connect; namiConnected;
   namiEvent (pause_event "A" "X" "1" "Lunch");
   namiEvent (pause_event "A" "X_timeout" "1" "Lunch")].

Definition connect_twice : list Input := [call_connect; call_connect].

(** *** Reading the cache *)

(** The members [getAvailableAgents] lists. *)
Definition available (m : Member.t) : Prop :=
  Member.status m = Num 1 ∧ Member.paused m = Num 0.

#[global] Instance available_dec m : Decision (available m).
Proof. unfold available. apply _. Defined.

(** The queues that list [extension], in the order of the map. *)
Definition holders (extension : string) (qs : list Queue.t) : list Queue.t :=
  filter (λ q, extension ∈ extensions (Queue.members q)) qs.

(** The first record of [extension] in a queue. *)
Definition first_member (extension : string) (q : Queue.t) : option Member.t :=
  snd <$> find_member extension (Queue.members q).

(** The map holds every queue under its name, each key once. *)
Definition well_keyed (qs : JsMap Queue.t) : Prop :=
  NoDup (Map_keys qs) ∧ ∀ k queue, (k, queue) ∈ qs → Queue.name queue = k.

(** The agent [getAllAgents] holds for an extension once it has met the
    member [m] in queue [k]. *)
Definition joined (k : string) (m : Member.t) (seen : option Agent.t) : Agent.t :=
  match seen with
  | None => {| Agent.member := m; Agent.queues := [k] |}
  | Some agent =>
      if decide (k ∈ Agent.queues agent) then agent
      else {| Agent.member := Agent.member agent;
              Agent.queues := Agent.queues agent ++ [k] |}
  end.

(** What [getAllAgents] holds for [extension] after the queues [qs], from
    what it held before. *)
Fixpoint agent_view (extension : string) (qs : JsMap Queue.t)
    (seen : option Agent.t) : option Agent.t :=
  match qs with
  | [] => seen
  | (k, q) :: rest =>
      agent_view extension rest
        (match first_member extension q with
         | Some m => Some (joined k m seen)
         | None => seen
         end)
  end.

(** What [agent_view] keeps of an agent: its key, and queue names that
    are distinct and not empty. *)
Definition sound_agent (e : string) (a : Agent.t) : Prop :=
  Member.extension (Agent.member a) = e ∧
  NoDup (Agent.queues a) ∧ Agent.queues a ≠ [].

(** A regular history: a connection, two events of one extension, and two
    signals of the same disconnection. *)
Definition closing_twice : list Input :=
  [call_connect; namiConnected; namiEvent (lunch "A"); namiEvent (lunch "B");
   namiConnectionClose; socket_error "read ECONNRESET"].

(** *** A server that does not answer *)




(** *** Handles and the timers they stand for *)

(** Every handle the cache holds was handed out by the loop, and a timer
    armed under that handle is the one the handle was stored for: a
    debounce timer of the extension for a handle of the table, the
    connect timeout for [connectionTimeout], the reconnect timer for
    [reconnectTimeout]. *)
Definition sound_handles (w : World) : Prop :=
  fresh w ∧
  (∀ key id, pendingEvents (this w) !! key = Some (TimerHandle id) →
     id < next_timer (loop w) ∧
     ∀ t, t ∈ timers (loop w) → timer_id t = id →
       ∃ E eventType, key = timeout_key E ∧ callback t = ProcessPending E eventType) ∧
  (∀ id, connectionTimeout (this w) = Some id →
     id < next_timer (loop w) ∧
     ∀ t, t ∈ timers (loop w) → timer_id t = id → callback t = ConnectTimedOut) ∧
  (∀ id, reconnectTimeout (this w) = Some id →
     id < next_timer (loop w) ∧
     ∀ t, t ∈ timers (loop w) → timer_id t = id → callback t = Reconnect).

(** A connection and one pause event, whose debounce timer is armed. *)
Definition one_event_waiting : list Input :=
  [call_connect; namiConnected; namiEvent (lunch "A")].



(** * Properties *)

(** ** The ordered map *)

Section JsMapFacts.
Context {V : Type}.
Implicit Types (m : JsMap V) (k : string) (v : V).

Lemma Map_get_set k k' v m :
  Map_get k (Map_set k' v m) = if decide (k' = k) then Some v else Map_get k m.
Proof.
  induction m as [|[k0 v0] m IH]; simpl.
  - repeat case_decide; congruence.
  - destruct (decide (k0 = k')) as [->|Hne]; simpl.
    + repeat case_decide; congruence.
    + rewrite IH. repeat case_decide; congruence.
Qed.

Lemma Map_get_set_eq k v m : Map_get k (Map_set k v m) = Some v.
Proof. rewrite Map_get_set. by case_decide. Qed.

Lemma Map_get_set_ne k k' v m : k' ≠ k → Map_get k (Map_set k' v m) = Map_get k m.
Proof. intros. rewrite Map_get_set. by case_decide. Qed.

Lemma Map_get_None k m : Map_get k m = None ↔ k ∉ Map_keys m.
Proof.
  unfold Map_keys. induction m as [|[k0 v0] m IH]; simpl.
  - split; [intros _; apply not_elem_of_nil | done].
  - rewrite not_elem_of_cons. case_decide; split; try done.
    + intros [? _]. congruence.
    + intros. split; [congruence | by apply IH].
    + intros [_ ?]. by apply IH.
Qed.

Lemma Map_set_keys k v v0 m :
  Map_get k m = Some v0 → Map_keys (Map_set k v m) = Map_keys m.
Proof.
  unfold Map_keys. induction m as [|[k0 v1] m IH]; simpl; [done|].
  case_decide; simpl; [by subst | intros; f_equal; auto].
Qed.

Lemma Map_set_same k v m : Map_get k m = Some v → Map_set k v m = m.
Proof.
  induction m as [|[k0 v1] m IH]; simpl; [done|].
  case_decide; [intros [= ->]; by subst | intros; f_equal; auto].
Qed.

Lemma Map_set_new k v m :
  Map_get k m = None → Map_set k v m = m ++ [(k, v)].
Proof.
  induction m as [|[k0 v1] m IH]; simpl; [done|].
  case_decide; [done | intros; f_equal; auto].
Qed.
End JsMapFacts.

(** ** Finding and replacing a member *)


Lemma find_member_None ext ms : find_member ext ms = None ↔ ext ∉ extensions ms.
Proof.
  unfold find_member, extensions. rewrite list_find_None, Forall_forall.
  rewrite list_elem_of_fmap. split.
  - intros H (m & -> & Hm). by apply (H m).
  - intros H m Hm Heq. apply H. exists m. by rewrite Heq.
Qed.

Lemma find_member_Some ext ms i m :
  find_member ext ms = Some (i, m) → ms !! i = Some m ∧ Member.extension m = ext.
Proof. unfold find_member. rewrite list_find_Some. by intros (? & ? & _). Qed.

Lemma find_member_is_Some ext ms :
  ext ∈ extensions ms → ∃ i m, find_member ext ms = Some (i, m).
Proof.
  intros Hin. destruct (find_member ext ms) as [[i m]|] eqn:E; [eauto|].
  by apply find_member_None in E.
Qed.

Lemma find_member_insert ext ms i m m' :
  find_member ext ms = Some (i, m) → Member.extension m' = ext →
  find_member ext (<[i := m']> ms) = Some (i, m').
Proof.
  unfold find_member. rewrite !list_find_Some. intros (Hi & Hm & Hlt) Hm'.
  split_and!; [|done|].
  - apply list_lookup_insert_eq. by eapply lookup_lt_Some.
  - intros j y Hj Hji. rewrite list_lookup_insert_ne in Hj by lia. eauto.
Qed.

Lemma find_member_app_new ext ms m :
  find_member ext ms = None → Member.extension m = ext →
  find_member ext (ms ++ [m]) = Some (length ms, m).
Proof.
  intros Hnone Hm. unfold find_member in *. apply list_find_Some.
  rewrite list_find_None, Forall_forall in Hnone.
  split_and!; [|done|].
  - rewrite lookup_app_r by lia. by rewrite Nat.sub_diag.
  - intros j y Hj Hlt. rewrite lookup_app_l in Hj by done.
    apply Hnone. by eapply list_elem_of_lookup_2.
Qed.

Lemma newMember_extension eventType event old :
  Member.extension old = Event.interface event →
  Member.extension (newMember eventType event old) = Event.interface event.
Proof. by destruct eventType. Qed.

Lemma newMember_idem eventType event old :
  newMember eventType event (newMember eventType event old)
  = newMember eventType event old.
Proof. by destruct eventType. Qed.


Lemma with_members_same q : Queue.with_members (Queue.members q) q = q.
Proof. by destruct q. Qed.

Lemma with_members_members ms q : Queue.members (Queue.with_members ms q) = ms.
Proof. done. Qed.

Lemma with_members_twice ms ms' q :
  Queue.with_members ms (Queue.with_members ms' q) = Queue.with_members ms q.
Proof. done. Qed.

Lemma updated_members_idem eventType event ms :
  updated_members eventType event (updated_members eventType event ms)
  = updated_members eventType event ms.
Proof.
  unfold updated_members at 2.
  destruct (find_member _ ms) as [[i old]|] eqn:E.
  - pose proof (find_member_Some _ _ _ _ E) as [_ Hold].
    pose proof (find_member_insert _ _ _ _ _ E
                  (newMember_extension eventType _ _ Hold)) as E'.
    unfold updated_members. rewrite E', E.
    by rewrite newMember_idem, list_insert_insert_eq.
  - unfold updated_members. by rewrite E.
Qed.

Lemma updated_queue_idem eventType event q :
  updated_queue eventType event (updated_queue eventType event q)
  = updated_queue eventType event q.
Proof.
  unfold updated_queue. rewrite with_members_members, with_members_twice.
  by rewrite updated_members_idem.
Qed.

Lemma updated_members_extensions eventType event ms :
  extensions (updated_members eventType event ms) = extensions ms.
Proof.
  unfold updated_members.
  destruct (find_member _ ms) as [[i old]|] eqn:E; [|done].
  apply find_member_Some in E as [Hi Hold].
  unfold extensions. rewrite list_fmap_insert.
  rewrite newMember_extension by done. rewrite <- Hold.
  apply list_insert_id. by rewrite list_lookup_fmap, Hi.
Qed.

Lemma updated_members_length eventType event ms :
  length (updated_members eventType event ms) = length ms.
Proof.
  unfold updated_members. destruct (find_member _ ms) as [[i old]|]; [|done].
  apply length_insert.
Qed.

Lemma apply_to_queue_get eventType event n k qs :
  Map_get k (apply_to_queue eventType event (Some n) qs)
  = if decide (n = k) then updated_queue eventType event <$> Map_get k qs
    else Map_get k qs.
Proof.
  unfold apply_to_queue.
  destruct (Map_get n qs) as [queue|] eqn:Hq.
  - unfold updated_queue, updated_members.
    destruct (find_member _ (Queue.members queue)) as [[i old]|] eqn:E.
    + rewrite Map_get_set. case_decide; [|done]. subst. rewrite Hq. simpl.
      by rewrite E.
    + case_decide; [|done]. subst. rewrite Hq. simpl.
      by rewrite E, with_members_same.
  - case_decide; [subst; by rewrite Hq | done].
Qed.

Lemma apply_to_queues_get eventType event names k qs :
  Map_get k (apply_to_queues eventType event names qs)
  = if decide (Some k ∈ names)
    then updated_queue eventType event <$> Map_get k qs
    else Map_get k qs.
Proof.
  unfold apply_to_queues. revert qs.
  induction names as [|n names IH]; intros qs; cbn [foldl].
  - rewrite decide_False; [done|]. apply not_elem_of_nil.
  - rewrite IH. destruct n as [n|].
    + rewrite apply_to_queue_get.
      destruct (decide (n = k)) as [->|Hne].
      * rewrite (decide_True (P := Some k ∈ Some k :: names))
          by apply list_elem_of_here.
        case_decide; [|done].
        rewrite <- option_fmap_compose. apply option_fmap_ext.
        intros q. apply updated_queue_idem.
      * destruct (decide (Some k ∈ names)) as [H1|H1].
        -- rewrite decide_True; [done|]. by apply list_elem_of_further.
        -- rewrite decide_False; [done|].
           intros [[=]|]%elem_of_cons; congruence.
    + cbn [apply_to_queue]. destruct (decide (Some k ∈ names)) as [H1|H1].
      * rewrite decide_True; [done|]. by apply list_elem_of_further.
      * rewrite decide_False; [done|].
        intros [[=]|]%elem_of_cons; congruence.
Qed.

Lemma apply_to_queue_keys eventType event n qs :
  Map_keys (apply_to_queue eventType event n qs) = Map_keys qs.
Proof.
  unfold apply_to_queue. destruct n as [n|]; [|done].
  destruct (Map_get n qs) as [queue|] eqn:Hq; [|done].
  destruct (find_member _ _) as [[i old]|]; [|done].
  by eapply Map_set_keys.
Qed.

Lemma apply_to_queues_keys eventType event names qs :
  Map_keys (apply_to_queues eventType event names qs) = Map_keys qs.
Proof.
  unfold apply_to_queues. revert qs.
  induction names as [|n names IH]; intros qs; simpl; [done|].
  by rewrite IH, apply_to_queue_keys.
Qed.

(** ** Firing a pending event *)

Lemma processPendingEvent_event extension eventType event names w :
  pendingEvents (this w) !! extension = Some (PendingEvent event names) →
  let qs := apply_to_queues eventType event names (queues (this w)) in
  queues (this (processPendingEvent extension eventType w)) = qs ∧
  emitted (processPendingEvent extension eventType w)
  = emitted w
    ++ match first_queue_member (Event.interface event) names qs with
       | Some member => [merged_notification eventType names member]
       | None => []
       end
    ++ [queuesUpdated (Map_values qs)] ∧
  pendingEvents (this (processPendingEvent extension eventType w))
  = delete (timeout_key extension) (delete extension (pendingEvents (this w))) ∧
  loop (processPendingEvent extension eventType w) = loop w ∧
  nami (processPendingEvent extension eventType w) = nami w.
Proof.
  intros Hp qs. unfold processPendingEvent. rewrite Hp. cbn.
  fold qs. destruct (first_queue_member _ names qs); cbn.
  - by rewrite <- app_assoc.
  - done.
Qed.

(** C5.  A coalesced pause event changes, in a member it is applied to,
    the fields [paused], [pausedReason] and [lastPause] and no other; the
    member stays at its index, every other member of every queue is left
    as it is, and so are the other fields and the place of the queue. *)
Theorem pause_changes_only_pause_fields extension event names w queueName queue :
  pendingEvents (this w) !! extension = Some (PendingEvent event names) →
  Map_get queueName (queues (this w)) = Some queue →
  let w' := processPendingEvent extension QueueMemberPause w in
  ∃ queue',
    Map_get queueName (queues (this w')) = Some queue' ∧
    Map_keys (queues (this w')) = Map_keys (queues (this w)) ∧
    queue' = Queue.with_members (Queue.members queue') queue ∧
    length (Queue.members queue') = length (Queue.members queue) ∧
    ∀ i old, Queue.members queue !! i = Some old →
      ∃ new, Queue.members queue' !! i = Some new ∧
        same_but_pause old new ∧
        if decide (Some queueName ∈ names ∧
                   fst <$> find_member (Event.interface event) (Queue.members queue)
                   = Some i)
        then Member.paused new = parseInt (Event.paused event) ∧
             Member.pausedReason new = Event.pausedreason event ∧
             Member.lastPause new = parseInt (Event.lastpause event)
        else new = old.
Proof.
  intros Hp Hq w'.
  destruct (processPendingEvent_event _ QueueMemberPause _ _ _ Hp) as (Hqs & _).
  subst w'. rewrite Hqs, apply_to_queues_get, apply_to_queues_keys, Hq.
  destruct (decide (Some queueName ∈ names)) as [Hin|Hout]; cbn.
  - exists (updated_queue QueueMemberPause event queue).
    unfold updated_queue. rewrite !with_members_members.
    split_and!; [done..| |].
    + apply updated_members_length.
    + intros i old Hi. unfold updated_members.
      destruct (find_member _ _) as [[j o]|] eqn:E.
      * destruct (decide (i = j)) as [->|Hne].
        -- pose proof (find_member_Some _ _ _ _ E) as [Hj _].
           assert (o = old) as -> by congruence.
           exists (paused_member event old). split.
           { apply list_lookup_insert_eq. by eapply lookup_lt_Some. }
           split; [by repeat split|].
           by rewrite decide_True.
        -- exists old. rewrite list_lookup_insert_ne by done.
           split; [done|]. split; [by repeat split|].
           rewrite decide_False; [done|]. intros [_ [=]]. congruence.
      * exists old. split; [done|]. split; [by repeat split|].
        rewrite decide_False; [done|]. by intros [_ ?].
  - exists queue. split_and!; [done| done | by rewrite with_members_same | done |].
    intros i old Hi. exists old. split; [done|]. split; [by repeat split|].
    rewrite decide_False; [done|]. by intros [? _].
Qed.

Lemma pause_changes_only_pause_fields_witness :
  let w := lunch_pending [Some "A"; Some "B"] in
  pendingEvents (this w) !! "SIP/100"
  = Some (PendingEvent (lunch "B") [Some "A"; Some "B"]) ∧
  Map_get "A" (queues (this w))
  = Some (queue_of "A" [agent "SIP/200"; agent "SIP/100"]) ∧
  ∃ queue',
    Map_get "A" (queues (this (processPendingEvent "SIP/100" QueueMemberPause w)))
    = Some queue' ∧
    length (Queue.members queue') = 2.
Proof.
  intros w. split; [reflexivity|]. split; [reflexivity|].
  destruct (pause_changes_only_pause_fields "SIP/100" (lunch "B")
              [Some "A"; Some "B"] w "A" _ eq_refl eq_refl)
    as (queue' & Hget & _ & _ & Hlen & _).
  exists queue'. split; assumption.
Defined.

Lemma filter_none {A} (P : A → Prop) `{!∀ x, Decision (P x)} (l : list A) :
  Forall (λ x, ¬ P x) l → filter P l = [].
Proof.
  induction 1 as [|x l Hx _ IH]; [done|].
  by rewrite filter_cons_False.
Qed.

Lemma filter_all {A} (P : A → Prop) `{!∀ x, Decision (P x)} (l : list A) :
  Forall P l → filter P l = l.
Proof.
  induction 1 as [|x l Hx _ IH]; [done|].
  rewrite filter_cons_True by done. by f_equal.
Qed.

Lemma find_member_updated eventType event ms :
  find_member (Event.interface event) ms = None →
  find_member (Event.interface event) (updated_members eventType event ms) = None.
Proof.
  rewrite !find_member_None. by rewrite updated_members_extensions.
Qed.

(** C10.  When the timer of a pending event fires and the first queue of
    its list is not in the cache, or has no member with the extension of
    the event, the only notification is [queuesUpdated]: neither
    [memberStatusChanged] nor [memberPauseChanged] is emitted, whatever
    was updated in the other queues of the list. *)
Theorem no_merged_notification_without_first_member
    extension eventType event n rest w :
  pendingEvents (this w) !! extension = Some (PendingEvent event (Some n :: rest)) →
  (Map_get n (queues (this w)) = None ∨
   ∃ firstQueue, Map_get n (queues (this w)) = Some firstQueue ∧
     Event.interface event ∉ extensions (Queue.members firstQueue)) →
  let w' := processPendingEvent extension eventType w in
  emitted w' = emitted w ++ [queuesUpdated (Map_values (queues (this w')))].
Proof.
  intros Hp Hfirst w'. subst w'.
  destruct (processPendingEvent_event _ eventType _ _ _ Hp) as (-> & -> & _).
  set (qs := apply_to_queues _ _ _ _).
  assert (first_queue_member (Event.interface event) (Some n :: rest) qs = None)
    as ->; [|done].
  unfold first_queue_member, qs. rewrite apply_to_queues_get.
  rewrite decide_True by apply list_elem_of_here.
  destruct Hfirst as [->|(q & -> & Hq)]; [done|].
  cbn [fmap option_fmap option_map]. unfold updated_queue.
  rewrite with_members_members.
  rewrite find_member_updated; [done|]. by apply find_member_None.
Qed.

Lemma no_merged_notification_without_first_member_witness :
  let w := lunch_pending [Some "C"; Some "B"] in
  pendingEvents (this w) !! "SIP/100"
  = Some (PendingEvent (lunch "B") [Some "C"; Some "B"]) ∧
  Map_get "C" (queues (this w)) = None ∧
  members_in "B" (processPendingEvent "SIP/100" QueueMemberPause w)
  ≠ members_in "B" w ∧
  emitted (processPendingEvent "SIP/100" QueueMemberPause w)
  = emitted w
    ++ [queuesUpdated
          (Map_values (queues (this (processPendingEvent "SIP/100"
                                       QueueMemberPause w))))].
Proof.
  intros w. split; [reflexivity|]. split; [reflexivity|].
  split; [by vm_compute|].
  apply (no_merged_notification_without_first_member "SIP/100" QueueMemberPause
           (lunch "B") "C" [Some "B"] w); [reflexivity | by left].
Defined.

(** ** Member added *)

Lemma member_added_present event w :
  Event.interface event ∈ extensions (members_in (Event.queue event) w) →
  handleQueueMemberAdded event w = w.
Proof.
  unfold members_in, handleQueueMemberAdded.
  destruct (Map_get _ _) as [queue|]; [|by intros ?%elem_of_nil].
  intros (i & m & E)%find_member_is_Some.
  change (Member.extension (member_of_event event)) with (Event.interface event).
  by rewrite E.
Qed.

Lemma member_added_absent event w :
  Event.interface event ∉ extensions (members_in (Event.queue event) w) →
  let w' := handleQueueMemberAdded event w in
  members_in (Event.queue event) w'
  = members_in (Event.queue event) w ++ [member_of_event event] ∧
  emitted w'
  = emitted w ++ [memberAdded (Event.queue event) (member_of_event event);
                  queuesUpdated (Map_values (queues (this w')))].
Proof.
  unfold members_in, handleQueueMemberAdded.
  destruct (Map_get _ _) as [queue|] eqn:Hq.
  - intros E%find_member_None.
    change (Member.extension (member_of_event event)) with (Event.interface event).
    rewrite E. cbn. rewrite Map_get_set_eq, <- app_assoc. done.
  - intros _. cbn. rewrite Map_get_set_eq, <- app_assoc. done.
Qed.

(** C8.  A member-added event for an extension that is already in the
    named queue changes nothing and emits nothing; for an extension that
    is not there it appends one record, after which the queue holds
    exactly one record of that extension, and emits [memberAdded] once,
    followed by [queuesUpdated]; handling the same event again changes
    nothing more. *)
Theorem member_added_idempotent event w :
  let queueName := Event.queue event in
  let member := member_of_event event in
  let w' := handleQueueMemberAdded event w in
  (Event.interface event ∈ extensions (members_in queueName w) → w' = w) ∧
  (Event.interface event ∉ extensions (members_in queueName w) →
     members_in queueName w' = members_in queueName w ++ [member] ∧
     length (filter (λ m, Member.extension m = Event.interface event)
               (members_in queueName w')) = 1 ∧
     emitted w'
     = emitted w ++ [memberAdded queueName member;
                     queuesUpdated (Map_values (queues (this w')))]) ∧
  handleQueueMemberAdded event w' = w'.
Proof.
  intros queueName member w'. split_and!.
  - apply member_added_present.
  - intros Habsent.
    destruct (member_added_absent _ _ Habsent) as [Hms Hem].
    split_and!; [done| |done].
    subst w' queueName. rewrite Hms, filter_app.
    rewrite filter_none, filter_cons_True; [done..|].
    apply Forall_forall. intros m Hm Heq. apply Habsent.
    apply list_elem_of_fmap. eauto.
  - apply member_added_present.
    destruct (decide (Event.interface event
                        ∈ extensions (members_in queueName w))) as [Hin|Hout].
    + subst w'. by rewrite member_added_present.
    + destruct (member_added_absent _ _ Hout) as [Hms _].
      subst w' queueName member. rewrite Hms. unfold extensions.
      rewrite fmap_app. apply elem_of_app. right. apply list_elem_of_here.
Qed.

(** ** The command gateway *)

Lemma list_find_snoc {A} (P : A → Prop) `{!∀ x, Decision (P x)} (l : list A) x :
  Forall (λ y, ¬ P y) l → P x → list_find P (l ++ [x]) = Some (length l, x).
Proof.
  intros Hl Hx. apply list_find_Some. split_and!; [|done|].
  - rewrite lookup_app_r by lia. by rewrite Nat.sub_diag.
  - intros j y Hj Hlt. rewrite lookup_app_l in Hj by done.
    rewrite Forall_forall in Hl. apply Hl. by eapply list_elem_of_lookup_2.
Qed.

Lemma filter_snoc_out {A} (P : A → Prop) `{!∀ x, Decision (P x)} (l : list A) x :
  Forall P l → ¬ P x → filter P (l ++ [x]) = l.
Proof.
  intros Hl Hx. rewrite filter_app, filter_all by done.
  rewrite filter_cons_False by done. apply app_nil_r.
Qed.

Lemma results_resume c m p w :
  results (resume c m p w)
  = results w ++ [{| of_call := c; settled := p; returned := returns m p |}].
Proof.
  destruct m; cbn; try done.
  destruct p as [r|e]; cbn; [|done].
  destruct (Response.events r); done.
Qed.

Lemma queues_resume_mutating c m p w :
  m ≠ updateQueues_method → this (resume c m p w) = this w.
Proof. by destruct m. Qed.

Section Send.
Context (m : Method) (a : Action) (t : Z) (w : World).
Hypothesis Hfresh : fresh w.
Let c := next_call (loop w).
Let id := next_timer (loop w).
Let tm := {| timer_id := id; due := now (loop w) + timer_delay t;
             callback := SendTimedOut c |}.

Lemma _send_disconnected :
  isConnected (this w) = false →
  _send m a t w = resume c m (Rejected NotConnected) (on_loop (set_next_call (S c)) w).
Proof. intros H. unfold _send. cbn. by rewrite H. Qed.

Lemma _send_connected :
  isConnected (this w) = true →
  this (_send m a t w) = this w ∧
  emitted (_send m a t w) = emitted w ∧
  results (_send m a t w) = results w ∧
  exited (_send m a t w) = exited w ∧
  nami (_send m a t w) = set_sent (sent (nami w) ++ [a]) (nami w) ∧
  timers (loop (_send m a t w)) = timers (loop w) ++ [tm] ∧
  inflight (loop (_send m a t w))
  = inflight (loop w)
    ++ [{| call := c; action := a; awaiting := m; timeoutId := id |}] ∧
  now (loop (_send m a t w)) = now (loop w).
Proof. intros H. unfold _send. cbn. rewrite H. by cbn. Qed.

Lemma _send_timer_fires :
  isConnected (this w) = true →
  ∃ w', dispatch (timer id) (_send m a t w) = resume c m (Rejected (Timeout a)) w' ∧
    this w' = this w ∧ results w' = results w ∧ emitted w' = emitted w ∧
    nami w' = set_sent (sent (nami w) ++ [a]) (nami w) ∧
    timers (loop w') = timers (loop w) ∧ inflight (loop w') = inflight (loop w).
Proof.
  intros H. destruct Hfresh as [Ht Hc].
  unfold dispatch, find_timer, _send. cbn. rewrite H. cbn.
  rewrite list_find_snoc; [|by eapply Forall_impl; [exact Ht|]; cbn; lia..|done].
  cbn. unfold fire. cbn. unfold send_timed_out, find_call. cbn.
  rewrite list_find_snoc; [|by eapply Forall_impl; [exact Hc|]; cbn; lia..|done].
  cbn. eexists. split; [reflexivity|]. cbn. split_and!; try done.
  - apply filter_snoc_out; [|by cbn; intros ?].
    eapply Forall_impl; [exact Ht|]. cbn. lia.
  - apply filter_snoc_out; [|by cbn; intros ?].
    eapply Forall_impl; [exact Hc|]. cbn. lia.
Qed.

Lemma _send_response_arrives response :
  isConnected (this w) = true → routing (nami w) = true →
  ∃ w', dispatch (nami_response c response) (_send m a t w)
        = resume c m (send_callback a response) w' ∧
    this w' = this w ∧ results w' = results w ∧ emitted w' = emitted w ∧
    nami w' = set_sent (sent (nami w) ++ [a]) (nami w) ∧
    timers (loop w') = timers (loop w) ∧ inflight (loop w') = inflight (loop w).
Proof.
  intros H Hr. destruct Hfresh as [Ht Hc].
  unfold dispatch, _send. cbn. rewrite H. cbn. rewrite Hr.
  unfold send_responded, find_call. cbn.
  rewrite list_find_snoc; [|by eapply Forall_impl; [exact Hc|]; cbn; lia..|done].
  cbn. eexists. split; [reflexivity|]. cbn. split_and!; try done.
  - apply filter_snoc_out; [|by cbn; intros ?].
    eapply Forall_impl; [exact Ht|]. cbn. lia.
  - apply filter_snoc_out; [|by cbn; intros ?].
    eapply Forall_impl; [exact Hc|]. cbn. lia.
Qed.
End Send.


Lemma nami_resume c m p w : nami (resume c m p w) = nami w.
Proof.
  destruct m; cbn; try done.
  destruct p as [r|e]; cbn; [|done]. by destruct (Response.events r).
Qed.




Lemma connected_cache_fresh : fresh connected_cache.
Proof. split; by repeat constructor. Qed.


Lemma returns_mutating m p :
  m ≠ updateQueues_method → returns m p = Return (boolean (succeeded p)).
Proof.
  intros Hm. destruct m; [done|..]; destruct p as [r|e]; try done;
    unfold returns, pauseMember_resume, unpauseMember_resume,
      addMemberToQueue_resume, removeMemberFromQueue_resume,
      try_catch, bind, await, succeeded;
    by case_decide;
       [rewrite bool_decide_eq_true_2 | rewrite bool_decide_eq_false_2].
Qed.

Lemma succeeded_callback a r :
  succeeded (send_callback a r) = true
  ↔ ∃ response, r = Some response ∧ Response.response response = "Success".
Proof.
  destruct r as [response|]; cbn; [|split; [done | by intros (? & [=] & _)]].
  destruct (decide (Response.response response = "Error")) as [He|He]; cbn.
  - split; [done|]. intros (? & [= <-] & Hs). congruence.
  - rewrite bool_decide_eq_true.
    split; [by intros; eexists | by intros (? & [= <-] & ?)].
Qed.

Lemma mutating_is_send i a w :
  mutating_action i = Some a →
  ∃ m, m ≠ updateQueues_method ∧ dispatch i w = _send m a 5000 w.
Proof.
  destruct i; intros [= <-].
  - by exists pauseMember_method.
  - by exists unpauseMember_method.
  - by exists addMemberToQueue_method.
  - by exists removeMemberFromQueue_method.
Qed.

(** C7.  [pauseMember], [unpauseMember], [addMemberToQueue] and
    [removeMemberFromQueue] make one call of [_send].  Whichever way its
    promise is settled, the method returns a boolean and never throws:
    [false] at once when the cache is not connected, [false] when the
    timer of the call fires first, and for a response [true] exactly when
    the response is there and its outcome is [Success].  The queue map is
    not touched. *)
Theorem mutating_returns_boolean (i : Input) (a : Action) (w : World) :
  mutating_action i = Some a →
  fresh w →
  let c := next_call (loop w) in
  let id := next_timer (loop w) in
  let w1 := dispatch i w in
  let outcome p :=
    {| of_call := c; settled := p; returned := Return (boolean (succeeded p)) |} in
  (isConnected (this w) = false →
     results w1 = results w ++ [outcome (Rejected NotConnected)] ∧
     sent (nami w1) = sent (nami w) ∧
     queues (this w1) = queues (this w)) ∧
  (isConnected (this w) = true →
     results w1 = results w ∧
     sent (nami w1) = sent (nami w) ++ [a] ∧
     queues (this w1) = queues (this w) ∧
     results (dispatch (timer id) w1)
     = results w ++ [outcome (Rejected (Timeout a))] ∧
     sent (nami (dispatch (timer id) w1)) = sent (nami w) ++ [a] ∧
     queues (this (dispatch (timer id) w1)) = queues (this w) ∧
     (routing (nami w) = true → ∀ r,
        results (dispatch (nami_response c r) w1)
        = results w ++ [outcome (send_callback a r)] ∧
        sent (nami (dispatch (nami_response c r) w1)) = sent (nami w) ++ [a] ∧
        queues (this (dispatch (nami_response c r) w1)) = queues (this w) ∧
        (succeeded (send_callback a r) = true
         ↔ ∃ response, r = Some response ∧
             Response.response response = "Success"))).
Proof.
  intros Hi Hfresh c id w1 outcome. subst c id w1 outcome.
  destruct (mutating_is_send i a w Hi) as (m & Hm & ->). split.
  - intros H. rewrite _send_disconnected by done.
    rewrite results_resume, nami_resume, queues_resume_mutating by done.
    by rewrite returns_mutating.
  - intros H.
    destruct (_send_connected m a 5000 w H) as (Hthis & _ & Hres & _ & Hnami & _).
    split_and!; [done | by rewrite Hnami | by rewrite Hthis | ..].
    + destruct (_send_timer_fires m a 5000 w Hfresh H) as (w' & -> & _ & Hr & _).
      by rewrite results_resume, Hr, returns_mutating.
    + destruct (_send_timer_fires m a 5000 w Hfresh H)
        as (w' & -> & _ & _ & _ & Hn & _).
      by rewrite nami_resume, Hn.
    + destruct (_send_timer_fires m a 5000 w Hfresh H) as (w' & -> & Ht & _).
      by rewrite queues_resume_mutating, Ht.
    + intros Hroute r.
      destruct (_send_response_arrives m a 5000 w Hfresh r H Hroute)
        as (w' & -> & Ht & Hr & _ & Hn & _).
      rewrite results_resume, nami_resume, queues_resume_mutating by done.
      rewrite Hr, Hn, Ht, returns_mutating by done.
      split_and!; [done..|]. apply succeeded_callback.
Qed.

Lemma mutating_returns_boolean_witness :
  mutating_action (call_pauseMember "SIP/100" "Lunch")
  = Some (QueuePause "SIP/100" "Lunch") ∧
  fresh connected_cache ∧
  results (dispatch (nami_response 0
                       (Some {| Response.response := "Success";
                                Response.message := Some "Interface paused successfully";
                                Response.events := None |}))
             (dispatch (call_pauseMember "SIP/100" "Lunch") connected_cache))
  = [{| of_call := 0;
        settled := Resolved {| Response.response := "Success";
                               Response.message := Some "Interface paused successfully";
                               Response.events := None |};
        returned := Return (boolean true) |}].
Proof.
  split; [reflexivity|]. split; [exact connected_cache_fresh|].
  pose proof (mutating_returns_boolean (call_pauseMember "SIP/100" "Lunch")
                (QueuePause "SIP/100" "Lunch") connected_cache eq_refl
                connected_cache_fresh) as [_ H].
  destruct (H eq_refl) as (_ & _ & _ & _ & _ & _ & Hr).
  exact (proj1 (Hr eq_refl _)).
Defined.

(** ** Full resync *)

Lemma push_member_get_None k n member qs :
  Map_get k qs = None → Map_get k (push_member n member qs) = None.
Proof.
  intros Hk. unfold push_member. destruct (Map_get n qs) as [q|] eqn:Hn; [|done].
  rewrite Map_get_set. case_decide; [congruence | done].
Qed.

Lemma resync_get_None events currentQueue k qs :
  Map_get k qs = None → k ∉ defined_queues events →
  Map_get k (resync events currentQueue qs) = None.
Proof.
  unfold defined_queues.
  revert currentQueue qs. induction events as [|event events IH];
    intros currentQueue qs Hk Hout; cbn [resync]; [done|].
  destruct (decide (Entry.event event = "QueueParams")) as [Hp|Hp].
  - rewrite filter_cons_True in Hout by done.
    rewrite fmap_cons, not_elem_of_cons in Hout. destruct Hout as [Hne Hout].
    apply IH; [|done]. by rewrite Map_get_set_ne.
  - rewrite filter_cons_False in Hout by done.
    case_decide; [destruct currentQueue|]; apply IH; try done.
    by apply push_member_get_None.
Qed.

(** C2.  [updateQueues] either leaves the queue map as it is or replaces it
    by the map built from the response.  The map is untouched when the
    promise of the queue-status command is rejected, whatever the state in
    which that happens: at once when the cache is not connected, when the
    timer of the command fires, for an empty response and for an error
    response.  When the command succeeds with an event list the map is the
    one built from that list alone, so a queue the list does not define is
    no longer there. *)
Theorem resync_all_or_nothing (w : World) :
  fresh w →
  let c := next_call (loop w) in
  let id := next_timer (loop w) in
  let w1 := updateQueues w in
  (∀ w' e, updateQueues_resume (Rejected e) w' = w') ∧
  (∀ w' r events, Response.events r = Some events →
     queues (this (updateQueues_resume (Resolved r) w')) = resync events None [] ∧
     (∀ k, k ∉ defined_queues events →
        Map_get k (queues (this (updateQueues_resume (Resolved r) w'))) = None) ∧
     emitted (updateQueues_resume (Resolved r) w')
     = emitted w' ++ [queuesUpdated (Map_values (resync events None []))]) ∧
  queues (this w1) = queues (this w) ∧
  (isConnected (this w) = false →
     results w1
     = results w ++ [{| of_call := c; settled := Rejected NotConnected;
                        returned := Return undefined |}]) ∧
  (isConnected (this w) = true →
     queues (this (dispatch (timer id) w1)) = queues (this w) ∧
     (routing (nami w) = true →
        queues (this (dispatch (nami_response c None) w1)) = queues (this w) ∧
        (∀ r, Response.response r = "Error" →
           queues (this (dispatch (nami_response c (Some r)) w1))
           = queues (this w)) ∧
        (∀ r events, Response.response r ≠ "Error" →
           Response.events r = Some events →
           queues (this (dispatch (nami_response c (Some r)) w1))
           = resync events None []))).
Proof.
  intros Hfresh c id w1. subst c id w1. unfold updateQueues.
  split_and!.
  - done.
  - intros w' r events He. unfold updateQueues_resume. rewrite He. cbn.
    split_and!; [done| |done].
    intros k Hk. by apply resync_get_None.
  - destruct (isConnected (this w)) eqn:H.
    + by destruct (_send_connected updateQueues_method QueueStatus 5000 w H)
        as (-> & _).
    + by rewrite _send_disconnected.
  - intros H. rewrite _send_disconnected by done. by rewrite results_resume.
  - intros H. split.
    + destruct (_send_timer_fires updateQueues_method QueueStatus 5000 w Hfresh H)
        as (w' & -> & Ht & _).
      cbn. by rewrite Ht.
    + intros Hroute.
      assert (∀ r, ∃ w',
                 this (dispatch (nami_response (next_call (loop w)) r)
                         (_send updateQueues_method QueueStatus 5000 w))
                 = this (updateQueues_resume (send_callback QueueStatus r) w') ∧
                 this w' = this w) as Hany.
      { intros r.
        destruct (_send_response_arrives updateQueues_method QueueStatus 5000 w
                    Hfresh r H Hroute) as (w' & -> & Ht & _).
        by exists w'. }
      split_and!.
      * destruct (Hany None) as (w' & -> & Ht). cbn. by rewrite Ht.
      * intros r Herr. destruct (Hany (Some r)) as (w' & -> & Ht).
        unfold send_callback. rewrite decide_True by done. cbn. by rewrite Ht.
      * intros r events Herr He. destruct (Hany (Some r)) as (w' & -> & Ht).
        unfold send_callback. rewrite decide_False by done. cbn. by rewrite He.
Qed.

Lemma resync_all_or_nothing_witness :
  fresh connected_cache ∧
  queues (this (dispatch (nami_response 0 (Some (status_response boot_entries)))
                  (updateQueues connected_cache)))
  = resync boot_entries None [] ∧
  length <$> (Queue.members <$> Map_values (resync boot_entries None [])) = [2; 1].
Proof.
  split; [exact connected_cache_fresh|]. split; [|reflexivity].
  pose proof (resync_all_or_nothing connected_cache connected_cache_fresh)
    as (_ & _ & _ & _ & H).
  destruct (H eq_refl) as [_ Hr]. destruct (Hr eq_refl) as (_ & _ & Hok).
  apply Hok; [discriminate | reflexivity].
Defined.

(** ** Uniqueness of extensions within a queue *)

Lemma unique_extensions_added event w :
  unique_extensions w → unique_extensions (handleQueueMemberAdded event w).
Proof.
  intros Hu k queue.
  destruct (decide (Event.interface event
                      ∈ extensions (members_in (Event.queue event) w)))
    as [Hin|Hout].
  { rewrite member_added_present by done. apply Hu. }
  revert Hout. unfold members_in, handleQueueMemberAdded.
  change (Member.extension (member_of_event event)) with (Event.interface event).
  destruct (Map_get (Event.queue event) (queues (this w))) as [q|] eqn:Hq.
  - intros Hout. rewrite (proj2 (find_member_None _ _) Hout). cbn.
    rewrite Map_get_set. case_decide; [|apply Hu].
    intros [= <-]. cbn. unfold extensions. rewrite fmap_app.
    apply NoDup_app. split_and!.
    + by eapply Hu.
    + intros x Hx [->|[]%elem_of_nil]%elem_of_cons. by apply Hout.
    + apply NoDup_singleton.
  - intros _. cbn. rewrite !Map_get_set. case_decide; [|apply Hu].
    intros [= <-]. cbn. apply NoDup_singleton.
Qed.

Lemma unique_extensions_removed event w :
  unique_extensions w → unique_extensions (handleQueueMemberRemoved event w).
Proof.
  intros Hu k queue. unfold handleQueueMemberRemoved.
  destruct (Map_get (Event.queue event) (queues (this w))) as [q|] eqn:Hq;
    [|apply Hu].
  destruct (find_member _ _) as [[i m]|]; [|apply Hu]. cbn.
  rewrite Map_get_set. case_decide; [|apply Hu].
  intros [= <-]. cbn. unfold extensions.
  assert (NoDup (extensions (Queue.members q))) as Hq' by (by eapply Hu).
  unfold extensions in *.
  eapply sublist_NoDup; [exact Hq'|]. apply fmap_sublist, sublist_delete.
Qed.

Lemma unique_extensions_processed extension eventType w :
  unique_extensions w →
  unique_extensions (processPendingEvent extension eventType w).
Proof.
  intros Hu k queue. unfold processPendingEvent.
  destruct (pendingEvents (this w) !! extension) as [[event names|id]|] eqn:Hp;
    [|apply Hu..].
  assert (queues (this (processPendingEvent extension eventType w))
          = apply_to_queues eventType event names (queues (this w))) as Hqs
    by apply (processPendingEvent_event _ _ _ _ _ Hp).
  unfold processPendingEvent in Hqs. rewrite Hp in Hqs. rewrite Hqs.
  rewrite apply_to_queues_get.
  destruct (Map_get k (queues (this w))) as [q|] eqn:Hq;
    [|by case_decide].
  case_decide; [|intros [= <-]; by eapply Hu].
  intros [= <-]. cbn. rewrite updated_members_extensions. by eapply Hu.
Qed.

(** C3.  Uniqueness of extensions within a queue is kept by the handling
    of member-added and member-removed events and by the application of a
    pending event (the three lemmas above), but not by the full resync:
    [updateQueues] appends every [QueueMember] element of the response to
    the current queue without looking for its extension.  After a resync
    whose response lists [SIP/100] twice under queue [A], the cache, which
    is a reachable state, holds two records of [SIP/100] in [A]. *)
Theorem resync_keeps_repeated_extension :
  let w := run [call_connect; namiConnected; namiEvent fully_booted;
                nami_response 0 (Some (status_response repeated_entries))]
             new_AsteriskCache in
  unique_extensions new_AsteriskCache ∧
  extensions (members_in "A" w) = ["SIP/100"; "SIP/100"] ∧
  ¬ unique_extensions w.
Proof.
  intros w. split_and!.
  - intros k queue [=].
  - reflexivity.
  - intros Hu.
    specialize (Hu "A"
                  (Queue.with_members
                     [member_of_entry (member_entry "A" "SIP/100");
                      member_of_entry (member_entry "A" "SIP/100")]
                     (queue_of_entry (params_entry "A")))
                  eq_refl).
    apply NoDup_cons in Hu as [Hu _]. apply Hu, list_elem_of_here.
Qed.

(** ** A burst of events for one extension *)

Lemma length_append (s1 s2 : string) :
  String.length (s1 +:+ s2) = String.length s1 + String.length s2.
Proof.
  induction s1 as [|c s1 IH]; [done|].
  change (S (String.length (s1 +:+ s2))
          = S (String.length s1 + String.length s2)).
  by f_equal.
Qed.

Lemma timeout_key_ne E : E ≠ timeout_key E.
Proof.
  intros H. apply (f_equal String.length) in H.
  unfold timeout_key in H. rewrite length_append in H. cbn in H. lia.
Qed.

Lemma timeout_key_ne' E : timeout_key E ≠ E.
Proof. intros H. by apply (timeout_key_ne E). Qed.

Lemma handleEvent_coalesced event eventType w :
  coalesced_type event = Some eventType →
  handleEvent event w
  = scheduleEventProcessing (Event.interface event) eventType event w.
Proof.
  unfold coalesced_type, handleEvent.
  destruct (decide (Event.event event = "QueueMemberStatus")) as [->|H1].
  { by intros [= <-]. }
  destruct (decide (Event.event event = "QueueMemberPause")) as [->|H2]; [|done].
  by intros [= <-].
Qed.


(** Expose the fields of a world built by the field updates. *)
Ltac projections :=
  cbn [this loop nami emitted results exited
       queues isConnected reconnectInterval connectTimeout connectionTimeout
       reconnectTimeout isReconnecting shouldReconnect pendingEvents
       eventTimeout now timers next_timer inflight next_call
       listeners socket routing opened closed sent
       timer_id due callback].

Ltac fields :=
  unfold on_this, on_loop, on_nami, emit, complete, process_exit,
    set_queues, set_isConnected, set_connectionTimeout, set_reconnectTimeout,
    set_isReconnecting, set_shouldReconnect, set_pendingEvents,
    set_timers, set_now, set_next_timer, set_inflight, set_next_call,
    set_listeners, set_socket, set_routing, set_opened, set_closed, set_sent;
  projections.

Lemma run_until_quiet fuel t w :
  (∀ tm, earliest (timers (loop w)) = Some tm → (t < due tm)%Z) →
  run_until fuel t w = Some (on_loop (λ l, set_now (Z.max (now l) t) l) w).
Proof.
  intros H. destruct fuel; cbn [run_until];
    (destruct (earliest (timers (loop w))) as [tm|] eqn:Htm; [|done]);
    specialize (H tm eq_refl);
    (destruct (Z.leb_spec (due tm) t); [lia|done]).
Qed.

Lemma run_until_at fuel t w :
  (∀ tm, earliest (timers (loop w)) = Some tm → (t < due tm)%Z) →
  (now (loop w) ≤ t)%Z →
  run_until fuel t w = Some (on_loop (set_now t) w).
Proof.
  intros H Hnow. rewrite run_until_quiet by done.
  unfold on_loop, set_now. by rewrite Z.max_r.
Qed.

Lemma last_cons_default {A} (x d : A) (l : list A) :
  List.last (x :: l) d = List.last l x.
Proof.
  revert x d. induction l as [|y l IH]; intros x d; [done|].
  change (List.last (y :: l) d = List.last (y :: l) x). by rewrite !IH.
Qed.

Lemma merged_queues_Some event (acc : list string) q :
  merged_queues (PendingEvent event (Some <$> acc)) q
  = Some <$> (if decide (q ∈ acc) then acc else acc ++ [q]).
Proof.
  unfold merged_queues. destruct (decide (q ∈ acc)) as [Hin|Hout].
  - rewrite decide_True; [done|]. by apply list_elem_of_fmap_2.
  - rewrite decide_False; [by rewrite fmap_app|].
    intros (y & [= ->] & Hy)%list_elem_of_fmap. by apply Hout.
Qed.

Lemma first_occurrences_merge (acc : list string) q (l : list string) :
  (if decide (q ∈ acc) then acc else acc ++ [q])
  ++ filter (λ x, x ∉ (if decide (q ∈ acc) then acc else acc ++ [q])) l
  = acc ++ filter (λ x, x ∉ acc) (q :: filter (λ x, x ≠ q) l).
Proof.
  destruct (decide (q ∈ acc)) as [Hin|Hout].
  - rewrite filter_cons_False by auto.
    rewrite list_filter_filter. f_equal. apply list_filter_iff.
    intros x. split; [|by intros [? _]].
    intros Hx. split; [done|]. by intros ->.
  - rewrite filter_cons_True by done.
    rewrite list_filter_filter, <- app_assoc. cbn. do 2 f_equal.
    apply list_filter_iff. intros x.
    rewrite not_elem_of_app, not_elem_of_cons. split.
    + by intros (? & ? & _).
    + intros (? & ?). split_and!; [done..|]. apply not_elem_of_nil.
Qed.

Section Burst.
Context (w : World) (E : string).
Hypothesis Htimers : timers (loop w) = [].
Hypothesis HE : pendingEvents (this w) !! E = None.
Hypothesis HT : pendingEvents (this w) !! timeout_key E = None.

Lemma first_arrival fuel t event eventType :
  (now (loop w) ≤ t)%Z →
  Event.interface event = E →
  coalesced_type event = Some eventType →
  arrive fuel t event w
  = Some (waiting w E eventType event [Some (Event.queue event)]
            (next_timer (loop w)) t).
Proof.
  intros Ht Hi Hty. unfold arrive.
  rewrite run_until_at; [|by rewrite Htimers|done].
  cbn. f_equal. rewrite (handleEvent_coalesced _ _ _ Hty), Hi.
  unfold scheduleEventProcessing. cbn. rewrite HE. cbn.
  rewrite lookup_insert_ne by apply timeout_key_ne. rewrite HT. cbn.
  unfold waiting, window. fields. by rewrite Htimers.
Qed.

Lemma next_arrival fuel t' event' eventType' eventType event names id t :
  (t ≤ t' < t + window w)%Z →
  Event.interface event' = E →
  coalesced_type event' = Some eventType' →
  arrive fuel t' event' (waiting w E eventType event names id t)
  = Some (waiting w E eventType' event'
            (merged_queues (PendingEvent event names) (Event.queue event'))
            (S id) t').
Proof.
  intros Ht Hi Hty. unfold arrive.
  rewrite run_until_at; [|intros tm [= <-]; cbn; lia|cbn; lia].
  cbn [fmap option_fmap option_map]. f_equal.
  rewrite (handleEvent_coalesced _ _ _ Hty), Hi.
  unfold scheduleEventProcessing, waiting. fields.
  rewrite (lookup_insert_ne _ (timeout_key E) E) by apply timeout_key_ne'.
  rewrite lookup_insert_eq.
  rewrite (lookup_insert_ne _ E (timeout_key E)) by apply timeout_key_ne.
  rewrite lookup_insert_eq.
  unfold clearTimeout, setTimeout, window. fields.
  rewrite filter_cons_False by (projections; auto). rewrite filter_nil.
  f_equal. f_equal.
  pose proof (timeout_key_ne E).
  apply map_eq. intros k.
  destruct (decide (k = timeout_key E)) as [Hk|Hk];
    destruct (decide (k = E)) as [Hk'|Hk']; by simplify_map_eq.
Qed.

Lemma play_waiting fuel stop rest eventType event names id t :
  close_arrivals (window w) t rest →
  Forall (of_burst E) rest →
  play fuel rest stop (waiting w E eventType event names id t)
  = let '(eventType', event', names', id', t') :=
      after_burst eventType event names id t rest in
    run_until fuel stop (waiting w E eventType' event' names' id' t').
Proof.
  revert eventType event names id t.
  induction rest as [|[t' event'] rest IH]; intros eventType event names id t;
    [done|].
  intros [Ht Hrest] [[Hi [eventType' Hty]] Hall]%Forall_cons.
  cbn [play after_burst]. cbn in Hi, Hty.
  rewrite (next_arrival _ _ _ eventType') by done.
  rewrite Hty. cbn [default]. by apply IH.
Qed.

Lemma waiting_quiet fuel stop eventType event names id t :
  (t ≤ stop < t + window w)%Z →
  run_until fuel stop (waiting w E eventType event names id t)
  = Some (on_loop (set_now stop) (waiting w E eventType event names id t)).
Proof. intros H. apply run_until_at; [intros tm [= <-]|]; cbn; lia. Qed.

Lemma waiting_pending_gone event names id :
  delete (timeout_key E)
    (delete E (<[timeout_key E := TimerHandle id]>
                 (<[E := PendingEvent event names]> (pendingEvents (this w)))))
  = pendingEvents (this w).
Proof.
  pose proof (timeout_key_ne E).
  apply map_eq. intros k.
  destruct (decide (k = timeout_key E)) as [Hk|Hk];
    destruct (decide (k = E)) as [Hk'|Hk']; by simplify_map_eq.
Qed.

Lemma waiting_fires fuel eventType event names id t :
  let qs := apply_to_queues eventType event names (queues (this w)) in
  ∃ w', run_until (S fuel) (t + window w)
          (waiting w E eventType event names id t) = Some w' ∧
    queues (this w') = qs ∧
    emitted w'
    = emitted w
      ++ match first_queue_member (Event.interface event) names qs with
         | Some member => [merged_notification eventType names member]
         | None => []
         end
      ++ [queuesUpdated (Map_values qs)] ∧
    pendingEvents (this w') = pendingEvents (this w) ∧
    timers (loop w') = [].
Proof.
  intros qs. cbn [run_until waiting loop timers earliest due].
  rewrite Z.leb_refl. unfold fire. cbn [callback].
  set (w1 := on_loop _ _).
  assert (pendingEvents (this w1) !! E = Some (PendingEvent event names)) as Hp.
  { subst w1. unfold waiting. fields.
    rewrite lookup_insert_ne by apply timeout_key_ne'.
    apply lookup_insert_eq. }
  destruct (processPendingEvent_event E eventType event names _ Hp)
    as (Hqs & Hem & Hpe & Hloop & _).
  eexists. split.
  { apply run_until_quiet. intros tm. rewrite Hloop. subst w1. unfold waiting. fields.
    rewrite filter_cons_False by (projections; auto). done. }
  fields. rewrite Hqs, Hem, Hpe, Hloop. subst w1. unfold waiting. fields.
  rewrite filter_cons_False by (projections; auto).
  split_and!; [done..| |done]. apply waiting_pending_gone.
Qed.

Lemma after_burst_spec eventType event (acc : list string) id t rest :
  coalesced_type event = Some eventType →
  Forall (of_burst E) rest →
  ∃ eventType',
    coalesced_type (List.last rest (t, event)).2 = Some eventType' ∧
    after_burst eventType event (Some <$> acc) id t rest
    = (eventType', (List.last rest (t, event)).2,
       Some <$> (acc ++ filter (λ q, q ∉ acc)
                          (first_occurrences (Event.queue <$> rest.*2))),
       id + length rest, (List.last rest (t, event)).1).
Proof.
  revert eventType event acc id t.
  induction rest as [|[t' event'] rest IH]; intros eventType event acc id t Hty.
  - intros _. exists eventType. split; [done|]. cbn.
    by rewrite app_nil_r, Nat.add_0_r.
  - intros [[_ [eventType' Hty']] Hall]%Forall_cons. cbn in Hty'.
    cbn [after_burst]. rewrite Hty'. cbn [default from_option Datatypes.id].
    rewrite merged_queues_Some, last_cons_default.
    destruct (IH eventType' event' (if decide (Event.queue event' ∈ acc)
                                    then acc else acc ++ [Event.queue event'])
                (S id) t' Hty' Hall) as (ty & Hlast & ->).
    exists ty. split; [done|]. cbn [fmap list_fmap first_occurrences snd length].
    rewrite first_occurrences_merge. do 2 f_equal. lia.
Qed.
End Burst.

Lemma Forall_last {A} (P : A → Prop) (x : A) (l : list A) :
  Forall P (x :: l) → P (List.last l x).
Proof.
  revert x. induction l as [|y l IH]; intros x.
  - by intros [? _]%Forall_cons.
  - intros [_ H]%Forall_cons. rewrite last_cons_default. by apply IH.
Qed.


Lemma find_member_updated_Some eventType event ms :
  Event.interface event ∈ extensions ms →
  ∃ i old,
    find_member (Event.interface event) ms = Some (i, old) ∧
    find_member (Event.interface event) (updated_members eventType event ms)
    = Some (i, newMember eventType event old).
Proof.
  intros (i & old & Hf)%find_member_is_Some. exists i, old. split; [done|].
  unfold updated_members. rewrite Hf.
  apply (find_member_insert _ _ _ _ _ Hf).
  apply newMember_extension. by apply find_member_Some in Hf as [_ ?].
Qed.

(** What a burst of status and pause events for one extension comes to:
    nothing is emitted and no queue is touched while the window of the
    last event runs; when it has run, the last event is applied to the
    queues named, in the order they were first named, and the
    notifications follow. *)
Lemma burst_outcome (w : World) (E : string) (t1 : Z) (e1 : Event.t)
    (rest : list (Z * Event.t)) (fuel : nat) :
  timers (loop w) = [] →
  pendingEvents (this w) !! E = None →
  pendingEvents (this w) !! timeout_key E = None →
  (now (loop w) ≤ t1)%Z →
  close_arrivals (window w) t1 rest →
  Forall (of_burst E) ((t1, e1) :: rest) →
  let arrivals := (t1, e1) :: rest in
  let tn := (List.last rest (t1, e1)).1 in
  let en := (List.last rest (t1, e1)).2 in
  let names := Some <$> first_occurrences (Event.queue <$> arrivals.*2) in
  ∃ eventType,
    coalesced_type en = Some eventType ∧
    Event.interface en = E ∧
    let qs := apply_to_queues eventType en names (queues (this w)) in
    (∀ stop, (tn ≤ stop < tn + window w)%Z →
       ∃ w', play fuel arrivals stop w = Some w' ∧
         emitted w' = emitted w ∧ queues (this w') = queues (this w)) ∧
    ∃ w', play (S fuel) arrivals (tn + window w) w = Some w' ∧
      queues (this w') = qs ∧
      emitted w'
      = emitted w
        ++ match first_queue_member E names qs with
           | Some member => [merged_notification eventType names member]
           | None => []
           end
        ++ [queuesUpdated (Map_values qs)] ∧
      pendingEvents (this w') = pendingEvents (this w) ∧
      timers (loop w') = [].
Proof.
  intros Htimers HE HT Hnow Hclose Hall arrivals tn en names.
  pose proof (Forall_last _ _ _ Hall) as [Hen _].
  apply Forall_cons in Hall as [[Hi1 [ty1 Hty1]] Hrest]. cbn in Hi1, Hty1.
  destruct (after_burst_spec E ty1 e1 [Event.queue e1] (next_timer (loop w))
              t1 rest Hty1 Hrest) as (eventType & Hty & Hafter).
  assert ([Event.queue e1]
          ++ filter (λ q, q ∉ [Event.queue e1])
               (first_occurrences (Event.queue <$> rest.*2))
          = first_occurrences (Event.queue <$> arrivals.*2)) as Hnames.
  { cbn. f_equal. apply list_filter_iff. intros q.
    rewrite not_elem_of_cons. split; [by intros [? _]|].
    intros ?. split; [done|]. apply not_elem_of_nil. }
  rewrite Hnames in Hafter. fold tn en names in Hty, Hafter.
  exists eventType. split_and!; [done..|]. intros qs.
  assert (∀ fuel' stop,
            play fuel' arrivals stop w
            = run_until fuel' stop
                (waiting w E eventType en names
                   (next_timer (loop w) + length rest) tn)) as Hplay.
  { intros fuel' stop. subst arrivals. cbn [play].
    rewrite (first_arrival w E Htimers HE HT _ _ _ ty1) by done.
    rewrite (play_waiting w E HE HT) by done.
    change [Some (Event.queue e1)] with (Some <$> [Event.queue e1]).
    by rewrite Hafter. }
  split.
  - intros stop Hstop. rewrite Hplay, waiting_quiet by done. by eexists.
  - rewrite Hplay.
    destruct (waiting_fires w E HE HT fuel eventType en names
                (next_timer (loop w) + length rest) tn)
      as (w' & Hrun & Hqs & Hem & Hpe & Htm).
    exists w'. fold en in Hen. rewrite Hen in Hem. by split_and!.
Qed.




(** C4.  Queues [A] and [B] both hold a member with extension [SIP/100].
    A pause event for [A] at [t1], then within the debounce window a
    pause event for [B] at [t2] with [paused] 1 and reason [Lunch]:
    nothing is emitted before [t2] plus the window; at that time exactly
    one [memberPauseChanged] is emitted, with queues [A] and [B], whose
    member is the record of queue [A], now with [paused] 1 and
    [pausedReason] [Lunch], followed by [queuesUpdated]; the record of
    queue [B] carries the same pause fields. *)
Theorem lunch_pause_scenario (w : World) (e1 e2 : Event.t) (t1 t2 : Z)
    (fuel : nat) :
  timers (loop w) = [] →
  pendingEvents (this w) !! "SIP/100" = None →
  pendingEvents (this w) !! timeout_key "SIP/100" = None →
  "SIP/100" ∈ extensions (members_in "A" w) →
  "SIP/100" ∈ extensions (members_in "B" w) →
  Event.event e1 = "QueueMemberPause" ∧ Event.queue e1 = "A" ∧
    Event.interface e1 = "SIP/100" →
  Event.event e2 = "QueueMemberPause" ∧ Event.queue e2 = "B" ∧
    Event.interface e2 = "SIP/100" ∧
    Event.paused e2 = "1" ∧ Event.pausedreason e2 = "Lunch" →
  (now (loop w) ≤ t1 ∧ t1 ≤ t2 < t1 + window w)%Z →
  (∀ stop, (t2 ≤ stop < t2 + window w)%Z →
     ∃ w', play fuel [(t1, e1); (t2, e2)] stop w = Some w' ∧
       emitted w' = emitted w) ∧
  ∃ w' member memberB,
    play (S fuel) [(t1, e1); (t2, e2)] (t2 + window w) w = Some w' ∧
    emitted w'
    = emitted w
      ++ [memberPauseChanged [Some "A"; Some "B"] member (Num 1);
          queuesUpdated (Map_values (queues (this w')))] ∧
    member ∈ members_in "A" w' ∧
    Member.extension member = "SIP/100" ∧
    Member.paused member = Num 1 ∧
    Member.pausedReason member = "Lunch" ∧
    memberB ∈ members_in "B" w' ∧
    Member.extension memberB = "SIP/100" ∧
    Member.paused memberB = Num 1 ∧
    Member.pausedReason memberB = "Lunch".
Proof.
  intros Htimers HE HT HA HB (Hk1 & Hq1 & Hi1) (Hk2 & Hq2 & Hi2 & Hp2 & Hr2)
    (Hnow & Ht).
  assert (∀ e, Event.event e = "QueueMemberPause" →
               coalesced_type e = Some QueueMemberPause) as Hkind.
  { intros e He. unfold coalesced_type. by rewrite He. }
  assert (Forall (of_burst "SIP/100") [(t1, e1); (t2, e2)]) as Hall.
  { repeat constructor; cbn; try done; eexists; by apply Hkind. }
  destruct (burst_outcome w "SIP/100" t1 e1 [(t2, e2)] fuel Htimers HE HT Hnow
              (conj Ht I) Hall)
    as (eventType & Hty & _ & Hquiet & w' & Hplay & Hqs & Hem & _).
  cbn [List.last fst snd fmap list_fmap first_occurrences] in *.
  rewrite Hkind in Hty by done. injection Hty as <-.
  rewrite Hq1, Hq2 in *.
  change (Some <$> "A" :: filter (λ n', n' ≠ "A") ["B"])
    with [Some "A"; Some "B"] in *.
  split.
  { intros stop Hstop. destruct (Hquiet stop Hstop) as (w0 & ? & ? & _). eauto. }
  assert (∀ k, k = "A" ∨ k = "B" → "SIP/100" ∈ extensions (members_in k w) →
            ∃ i m, find_member "SIP/100" (members_in k w') = Some (i, m) ∧
              Member.paused m = Num 1 ∧ Member.pausedReason m = "Lunch") as Hboth.
  { intros k Hk Hin. unfold members_in in *. rewrite Hqs, apply_to_queues_get.
    rewrite decide_True
      by (destruct Hk as [->| ->];
          [apply list_elem_of_here
          |apply list_elem_of_further, list_elem_of_here]).
    destruct (Map_get k (queues (this w))) as [queue|];
      [|by apply elem_of_nil in Hin].
    rewrite <- Hi2 in Hin |- *.
    destruct (find_member_updated_Some QueueMemberPause e2 _ Hin)
      as (i & old & _ & Hnew).
    exists i, (paused_member e2 old). split; [exact Hnew|]. cbn.
    by rewrite Hp2, Hr2. }
  destruct (Hboth "A" (or_introl eq_refl) HA) as (iA & mA & HfA & HpA & HrA).
  destruct (Hboth "B" (or_intror eq_refl) HB) as (iB & mB & HfB & HpB & HrB).
  exists w', mA, mB.
  pose proof (find_member_Some _ _ _ _ HfA) as [HlA HeA].
  pose proof (find_member_Some _ _ _ _ HfB) as [HlB HeB].
  split_and!; try done; try (by eapply list_elem_of_lookup_2).
  rewrite Hem, <- Hqs. do 2 f_equal.
  unfold first_queue_member. unfold members_in in HfA.
  destruct (Map_get "A" (queues (this w'))) as [queue|]; [|done].
  rewrite HfA. cbn. by rewrite HpA.
Qed.

Lemma lunch_pause_scenario_witness :
  let w := two_queues in
  let e1 := pause_event "A" "SIP/100" "1" "Break" in
  let e2 := lunch "B" in
  timers (loop w) = [] ∧
  pendingEvents (this w) !! "SIP/100" = None ∧
  pendingEvents (this w) !! timeout_key "SIP/100" = None ∧
  "SIP/100" ∈ extensions (members_in "A" w) ∧
  "SIP/100" ∈ extensions (members_in "B" w) ∧
  (now (loop w) ≤ 0 ∧ 0 ≤ 100 < 0 + window w)%Z ∧
  window w = 500%Z ∧
  ∃ w' member,
    play 1 [(0%Z, e1); (100%Z, e2)] 600 w = Some w' ∧
    emitted w'
    = [memberPauseChanged [Some "A"; Some "B"] member (Num 1);
       queuesUpdated (Map_values (queues (this w')))] ∧
    Member.pausedReason member = "Lunch".
Proof.
  intros w e1 e2.
  assert ("SIP/100" ∈ extensions (members_in "A" w)) as HA
    by (apply list_elem_of_further, list_elem_of_here).
  assert ("SIP/100" ∈ extensions (members_in "B" w)) as HB
    by apply list_elem_of_here.
  assert (now (loop w) ≤ 0 ∧ 0 ≤ 100 < 0 + window w)%Z as Ht
    by (vm_compute; intuition discriminate).
  split_and!; try done; try apply Ht.
  destruct (lunch_pause_scenario w e1 e2 0 100 0 eq_refl eq_refl eq_refl HA HB
              (conj eq_refl (conj eq_refl eq_refl))
              (conj eq_refl (conj eq_refl (conj eq_refl (conj eq_refl eq_refl))))
              Ht)
    as (_ & w' & member & _ & Hplay & Hem & _ & _ & _ & Hreason & _).
  exists w', member. split_and!; [exact Hplay | exact Hem | exact Hreason].
Defined.

(** ** Shutdown *)

Lemma timers_cleared_refl w : timers_cleared w w.
Proof. by repeat split. Qed.

Lemma timers_cleared_trans a b c :
  timers_cleared a b → timers_cleared b c → timers_cleared a c.
Proof.
  intros (?&?&?&?&?&?&?&?&?&Hab) (?&?&?&?&?&?&?&?&?&Hbc).
  repeat split; try congruence. auto.
Qed.

Lemma clearTimeout_cleared id w :
  timers_cleared w (clearTimeout id w) ∧ ¬ armed id (clearTimeout id w).
Proof.
  split.
  - repeat split. unfold clearTimeout. fields.
    by intros t [_ ?]%list_elem_of_filter.
  - unfold armed, clearTimeout. fields.
    intros (t & -> & [Hne _]%list_elem_of_filter)%list_elem_of_fmap. done.
Qed.

Lemma armed_cleared id b r : timers_cleared b r → armed id r → armed id b.
Proof.
  intros (_&_&_&_&_&_&_&_&_&Hsub) (t & -> & Hin)%list_elem_of_fmap.
  apply list_elem_of_fmap. eauto.
Qed.

Lemma clear_entries_cleared w (m : gmap string Pending) :
  timers_cleared w (map_fold clear_entry w m) ∧
  ∀ k id, endsWith "_timeout" k = true → m !! k = Some (TimerHandle id) →
    ¬ armed id (map_fold clear_entry w m).
Proof.
  apply (map_fold_weak_ind
           (λ r m, timers_cleared w r ∧
                   ∀ k id, endsWith "_timeout" k = true →
                     m !! k = Some (TimerHandle id) → ¬ armed id r)).
  - split; [apply timers_cleared_refl|]. intros k id _. by rewrite lookup_empty.
  - intros i x m' r Hi [Hr Hids].
    assert (timers_cleared r (clear_entry i x r)) as Hstep.
    { unfold clear_entry. destruct (endsWith "_timeout" i); [|apply timers_cleared_refl].
      destruct x; [apply timers_cleared_refl | apply clearTimeout_cleared]. }
    split; [by eapply timers_cleared_trans|].
    intros k id Hk. destruct (decide (i = k)) as [->|Hne].
    + rewrite lookup_insert_eq. intros [= ->]. unfold clear_entry. rewrite Hk.
      apply clearTimeout_cleared.
    + rewrite lookup_insert_ne by done. intros Hm Harmed.
      apply (Hids k id Hk Hm). by eapply armed_cleared.
Qed.

Lemma substring_all s : String.substring 0 (String.length s) s = s.
Proof. induction s as [|c s IH]; [done|]. cbn. by rewrite IH. Qed.

Lemma substring_append s1 s2 :
  String.substring (String.length s1) (String.length s2) (s1 +:+ s2) = s2.
Proof.
  induction s1 as [|c s1 IH]; [apply substring_all|].
  change (String.substring (String.length s1) (String.length s2) (s1 +:+ s2) = s2).
  exact IH.
Qed.

Lemma endsWith_timeout_key E : endsWith "_timeout" (timeout_key E) = true.
Proof.
  unfold endsWith, timeout_key. rewrite length_append.
  change (String.length "_timeout") with 8.
  destruct (Nat.leb_spec 8 (String.length E + 8)); [|lia].
  replace (String.length E + 8 - 8) with (String.length E) by lia.
  pose proof (substring_append E "_timeout") as H8.
  change (String.length "_timeout") with 8 in H8. by rewrite H8.
Qed.





Lemma clear_connectionTimeout_quiet w :
  let r := clear_connectionTimeout w in
  queues (this r) = queues (this w) ∧
  shouldReconnect (this r) = shouldReconnect (this w) ∧
  pendingEvents (this r) = pendingEvents (this w) ∧
  reconnectTimeout (this r) = reconnectTimeout (this w) ∧
  isConnected (this r) = isConnected (this w) ∧
  connectionTimeout (this r) = None ∧
  nami r = nami w ∧ emitted r = emitted w ∧ exited r = exited w ∧
  (∀ t, t ∈ timers (loop r) → t ∈ timers (loop w)) ∧
  (∀ id, connectionTimeout (this w) = Some id → ¬ armed id r).
Proof.
  unfold clear_connectionTimeout.
  destruct (connectionTimeout (this w)) as [id|] eqn:H; [|by split_and!].
  destruct (clearTimeout_cleared id w) as [(Ht&Hn&He&_&Hx&_&_&_&_&Hsub) Harm].
  fields. rewrite Ht, Hn, He, Hx. split_and!; try done.
  intros id' [= <-]. exact Harm.
Qed.

Lemma clear_reconnectTimeout_quiet w :
  let r := clear_reconnectTimeout w in
  queues (this r) = queues (this w) ∧
  shouldReconnect (this r) = shouldReconnect (this w) ∧
  pendingEvents (this r) = pendingEvents (this w) ∧
  connectionTimeout (this r) = connectionTimeout (this w) ∧
  isConnected (this r) = isConnected (this w) ∧
  reconnectTimeout (this r) = None ∧
  nami r = nami w ∧ emitted r = emitted w ∧ exited r = exited w ∧
  (∀ t, t ∈ timers (loop r) → t ∈ timers (loop w)) ∧
  (∀ id, reconnectTimeout (this w) = Some id → ¬ armed id r).
Proof.
  unfold clear_reconnectTimeout.
  destruct (reconnectTimeout (this w)) as [id|] eqn:H; [|by split_and!].
  destruct (clearTimeout_cleared id w) as [(Ht&Hn&He&_&Hx&_&_&_&_&Hsub) Harm].
  fields. rewrite Ht, Hn, He, Hx. split_and!; try done.
  intros id' [= <-]. exact Harm.
Qed.


Lemma armed_subset id w r :
  (∀ t, t ∈ timers (loop r) → t ∈ timers (loop w)) → armed id r → armed id w.
Proof.
  intros Hsub (t & -> & Hin)%list_elem_of_fmap.
  apply list_elem_of_fmap. eauto.
Qed.

Lemma socket_off_not_listening s : socket_off s ≠ Some true.
Proof. by destruct s. Qed.

Lemma cleanup_spec close_error w :
  let w0 := cleanup close_error w in
  shut_down w0 ∧
  connectionTimeout (this w0) = None ∧
  reconnectTimeout (this w0) = None ∧
  exited w0 = true ∧
  queues (this w0) = queues (this w) ∧
  opened (nami w0) = opened (nami w) ∧
  (∀ t, t ∈ timers (loop w0) → t ∈ timers (loop w)) ∧
  (∀ id, connectionTimeout (this w) = Some id → ¬ armed id w0) ∧
  (∀ id, reconnectTimeout (this w) = Some id → ¬ armed id w0) ∧
  (∀ k id, endsWith "_timeout" k = true →
     pendingEvents (this w) !! k = Some (TimerHandle id) → ¬ armed id w0) ∧
  ∃ extra, emitted w0 = emitted w ++ extra ∧ Forall after_shutdown extra.
Proof.
  unfold cleanup.
  set (w1 := on_this (set_shouldReconnect false) w).
  destruct (clear_connectionTimeout_quiet w1)
    as (Hq2 & Hs2 & Hp2 & Hr2 & Hi2 & Hc2 & Hn2 & He2 & Hx2 & Ht2 & Ha2).
  set (w2 := clear_connectionTimeout w1) in *.
  destruct (clear_reconnectTimeout_quiet w2)
    as (Hq3 & Hs3 & Hp3 & Hc3 & Hi3 & Hr3 & Hn3 & He3 & Hx3 & Ht3 & Ha3).
  set (w3 := clear_reconnectTimeout w2) in *.
  destruct (clear_entries_cleared w3 (pendingEvents (this w3)))
    as [(Hthis & Hn4 & He4 & _ & Hx4 & _ & _ & _ & _ & Ht4) Ha4].
  set (w4 := map_fold clear_entry w3 (pendingEvents (this w3))) in *.
  assert (∀ t, t ∈ timers (loop w4) → t ∈ timers (loop w)) as Hsub.
  { intros t Ht. by apply Ht2, Ht3, Ht4. }
  assert (nami w4 = nami w) as Hn by (by rewrite Hn4, Hn3, Hn2).
  assert (emitted w4 = emitted w) as He by (by rewrite He4, He3, He2).
  cbn zeta.
  set (w7 := on_nami _ (on_nami _ (on_this _ w4))).
  assert (this w7 = set_pendingEvents ∅ (this w3)) as Hthis7
    by (subst w7; fields; by rewrite Hthis).
  assert (loop w7 = loop w4) as Hloop7 by done.
  assert (nami w7
          = set_socket (socket_off (socket (nami w)))
              (set_routing false (set_listeners false (nami w)))) as Hnami7
    by (subst w7; fields; by rewrite Hn).
  assert (emitted w7 = emitted w) as Hem7 by (subst w7; fields; done).
  set (w8 := if isConnected (this w7) then _ else w7).
  assert (this w8 = this w7 ∧ loop w8 = loop w7 ∧
          listeners (nami w8) = false ∧ routing (nami w8) = false ∧
          socket (nami w8) ≠ Some true ∧ opened (nami w8) = opened (nami w) ∧
          ∃ extra, emitted w8 = emitted w ++ extra ∧ Forall after_shutdown extra)
    as (Hthis8 & Hloop8 & Hl8 & Hr8 & Hso8 & Ho8 & extra & Hem8 & Hex8).
  { subst w8. destruct (isConnected (this w7)).
    - destruct close_error as [message|]; fields; rewrite Hnami7, Hem7; fields;
        (split_and!; [done..|apply socket_off_not_listening|done|]).
      + exists [connectionError "CLEANUP_ERROR" message]. by repeat constructor.
      + exists []. by rewrite app_nil_r.
    - rewrite Hnami7, Hem7. fields.
      split_and!; [done..|apply socket_off_not_listening|done|].
      exists []. by rewrite app_nil_r. }
  fields. rewrite Hthis8, Hloop8, Hthis7, Hloop7. fields.
  split_and!.
  - unfold shut_down. fields. split_and!; try done. by rewrite Hs3, Hs2.
  - by rewrite Hc3.
  - done.
  - done.
  - by rewrite Hq3, Hq2.
  - done.
  - done.
  - intros id Hid Harm. eapply (Ha2 id); [done|].
    eapply armed_subset; [|exact Harm]. intros t Ht. by apply Ht3, Ht4.
  - intros id Hid Harm. eapply (Ha3 id); [by rewrite Hr2|].
    eapply armed_subset; [|exact Harm]. intros t Ht. by apply Ht4.
  - intros k id Hk Hid Harm. eapply (Ha4 k id Hk); [by rewrite Hp3, Hp2|].
    exact Harm.
  - exists (extra ++ [disconnected]). rewrite Hem8, app_assoc.
    split; [done|]. apply Forall_app. by repeat constructor.
Qed.











(** ** The cache knows its timers *)

Lemma handles_kept_refl w : handles_kept w w.
Proof. by repeat split. Qed.

Lemma handles_kept_trans a b c :
  handles_kept a b → handles_kept b c → handles_kept a c.
Proof.
  intros (?&?&?&?&?&?&Hab) (?&?&?&?&?&?&Hbc).
  repeat split; try congruence. by etrans.
Qed.

Lemma kept_elem w r t :
  handles_kept w r → t ∈ timers (loop r) → t ∈ timers (loop w).
Proof. intros (_&_&_&_&_&_&Hsub) Ht. by eapply elem_of_sublist. Qed.

Lemma tracked_kept w r : handles_kept w r → tracked w → tracked r.
Proof.
  intros Hk ([Hft Hfc] & Hnd & HD & HR & HC & HX).
  assert (∀ t, t ∈ timers (loop r) → t ∈ timers (loop w)) as Hin
    by (intros t; by apply kept_elem).
  destruct Hk as (Hp & Hc & Hr & Hn & Hi & Hnc & Hsub).
  split_and!.
  - split.
    + rewrite Hn. eapply Forall_forall. intros t Ht.
      by apply (proj1 (Forall_forall _ _) Hft), Hin.
    + by rewrite Hi, Hnc.
  - eapply sublist_NoDup; [exact Hnd|]. by apply fmap_sublist.
  - intros t E ty Ht Hcb. rewrite Hp. by apply (HD t E ty); [apply Hin|].
  - intros t Ht Hcb. rewrite Hr. by apply HR; [apply Hin|].
  - intros t Ht Hcb. rewrite Hc. by apply HC; [apply Hin|].
  - intros t1 t2 H1 H2. apply HX; by apply Hin.
Qed.

Lemma clearTimeout_kept id w : handles_kept w (clearTimeout id w).
Proof. repeat split. unfold clearTimeout. fields. apply sublist_filter. Qed.

(** Once the timer with a given identifier is off the list, none of that
    identifier is left. *)
Lemma clearTimeout_gone id w t :
  t ∈ timers (loop (clearTimeout id w)) → timer_id t ≠ id.
Proof. unfold clearTimeout. fields. by intros [? _]%list_elem_of_filter. Qed.

Lemma tracked_clear_connectionTimeout w :
  tracked w →
  tracked (clear_connectionTimeout w) ∧
  ∀ t, t ∈ timers (loop (clear_connectionTimeout w)) →
    callback t ≠ ConnectTimedOut.
Proof.
  intros Hw. pose proof Hw as (Hf & Hnd & HD & HR & HC & HX).
  unfold clear_connectionTimeout.
  destruct (connectionTimeout (this w)) as [id|] eqn:Hid.
  - pose proof (tracked_kept _ _ (clearTimeout_kept id w) Hw)
      as (Hf' & Hnd' & HD' & HR' & HC' & HX').
    assert (∀ t, t ∈ timers (loop (clearTimeout id w)) →
                 callback t ≠ ConnectTimedOut) as Hnone.
    { intros t Ht Hcb. apply (clearTimeout_gone id w t Ht).
      pose proof (kept_elem _ _ t (clearTimeout_kept id w) Ht) as Hin.
      specialize (HC t Hin Hcb). congruence. }
    split; [|exact Hnone].
    split_and!; try done.
    intros t Ht Hcb. by destruct (Hnone t Ht).
  - split; [done|]. intros t Ht Hcb. specialize (HC t Ht Hcb). congruence.
Qed.

Lemma tracked_clear_reconnectTimeout w :
  tracked w →
  tracked (clear_reconnectTimeout w) ∧
  ∀ t, t ∈ timers (loop (clear_reconnectTimeout w)) → callback t ≠ Reconnect.
Proof.
  intros Hw. pose proof Hw as (Hf & Hnd & HD & HR & HC & HX).
  unfold clear_reconnectTimeout.
  destruct (reconnectTimeout (this w)) as [id|] eqn:Hid.
  - pose proof (tracked_kept _ _ (clearTimeout_kept id w) Hw)
      as (Hf' & Hnd' & HD' & HR' & HC' & HX').
    assert (∀ t, t ∈ timers (loop (clearTimeout id w)) →
                 callback t ≠ Reconnect) as Hnone.
    { intros t Ht Hcb. apply (clearTimeout_gone id w t Ht).
      pose proof (kept_elem _ _ t (clearTimeout_kept id w) Ht) as Hin.
      specialize (HR t Hin Hcb). congruence. }
    split; [|exact Hnone].
    split_and!; try done.
    intros t Ht Hcb. by destruct (Hnone t Ht).
  - split; [done|]. intros t Ht Hcb. specialize (HR t Ht Hcb). congruence.
Qed.

Lemma tracked_arm w r cb due_ :
  tracked w →
  timers (loop r)
  = timers (loop w)
    ++ [{| timer_id := next_timer (loop w); due := due_; callback := cb |}] →
  next_timer (loop r) = S (next_timer (loop w)) →
  Forall (λ f, call f < next_call (loop r)) (inflight (loop r)) →
  (∀ t E eventType, t ∈ timers (loop w) →
     callback t = ProcessPending E eventType →
     pendingEvents (this r) !! timeout_key E = Some (TimerHandle (timer_id t))) →
  (∀ t, t ∈ timers (loop w) → callback t = Reconnect →
     reconnectTimeout (this r) = Some (timer_id t)) →
  (∀ t, t ∈ timers (loop w) → callback t = ConnectTimedOut →
     connectionTimeout (this r) = Some (timer_id t)) →
  match cb with
  | ProcessPending E _ =>
      endsWith "_timeout" E = false ∧
      pendingEvents (this r) !! timeout_key E
      = Some (TimerHandle (next_timer (loop w)))
  | Reconnect =>
      reconnectTimeout (this r) = Some (next_timer (loop w)) ∧
      ∀ t, t ∈ timers (loop w) → callback t ≠ ConnectTimedOut
  | ConnectTimedOut =>
      connectionTimeout (this r) = Some (next_timer (loop w)) ∧
      ∀ t, t ∈ timers (loop w) → callback t ≠ Reconnect
  | SendTimedOut _ => True
  end →
  tracked r.
Proof.
  intros ([Hft Hfc] & Hnd & HD & HR & HC & HX) Ht Hn Hfc' HD' HR' HC' Hnew.
  assert (∀ t, t ∈ timers (loop r) →
            t ∈ timers (loop w) ∨
            t = {| timer_id := next_timer (loop w); due := due_; callback := cb |})
    as Hin.
  { intros t. rewrite Ht, elem_of_app, list_elem_of_singleton. tauto. }
  split_and!.
  - split; [|done]. rewrite Ht, Hn. apply Forall_app. split.
    + eapply Forall_impl; [exact Hft|]. cbn. lia.
    + apply Forall_singleton. cbn. lia.
  - rewrite Ht, fmap_app. apply NoDup_app. split_and!; [done| |apply NoDup_singleton].
    intros id (t & -> & Hin')%list_elem_of_fmap [Heq|[]%elem_of_nil]%elem_of_cons.
    rewrite Forall_forall in Hft. specialize (Hft t Hin'). cbn in *. lia.
  - intros t E ty [Hold| ->]%Hin Hcb.
    + split; [by eapply HD | by eapply HD'].
    + cbn in Hcb. subst cb. exact Hnew.
  - intros t [Hold| ->]%Hin Hcb; [by apply HR'|].
    cbn in Hcb. subst cb. apply Hnew.
  - intros t [Hold| ->]%Hin Hcb; [by apply HC'|].
    cbn in Hcb. subst cb. apply Hnew.
  - intros t1 t2 [H1| ->]%Hin [H2| ->]%Hin Hc1 Hc2; cbn in Hc1, Hc2.
    + exact (HX t1 t2 H1 H2 Hc1 Hc2).
    + subst cb. exact (proj2 Hnew t1 H1 Hc1).
    + subst cb. exact (proj2 Hnew t2 H2 Hc2).
    + congruence.
Qed.

Lemma resume_kept c m p w : handles_kept w (resume c m p w).
Proof.
  destruct m; try by repeat split.
  destruct p as [r|e]; [|by repeat split].
  cbn. destruct (Response.events r); by repeat split.
Qed.

Lemma tracked_next_call w :
  tracked w → tracked (on_loop (set_next_call (S (next_call (loop w)))) w).
Proof.
  intros ([Hft Hfc] & Hnd & HD & HR & HC & HX). split_and!; try done.
  split; [done|]. fields. eapply Forall_impl; [exact Hfc|]. cbn. lia.
Qed.

Lemma tracked_forget_call c w : tracked w → tracked (forget_call c w).
Proof.
  intros ([Hft Hfc] & Hnd & HD & HR & HC & HX). split_and!; try done.
  split; [done|]. unfold forget_call. fields.
  apply Forall_forall. intros f [_ Hf]%list_elem_of_filter.
  by apply (proj1 (Forall_forall _ _) Hfc).
Qed.

Lemma tracked_send m a t w : tracked w → tracked (_send m a t w).
Proof.
  intros Hw. unfold _send. cbn zeta.
  pose proof (tracked_next_call w Hw) as Hw0.
  set (w0 := on_loop _ w) in *.
  destruct (isConnected (this w0)).
  - unfold setTimeout. cbn zeta. destruct Hw0 as ([Hft Hfc] & Hrest).
    eapply (tracked_arm w0 _ (SendTimedOut (next_call (loop w)))).
    + by split.
    + fields. done.
    + done.
    + fields. apply Forall_app. split; [done|]. apply Forall_singleton. cbn. lia.
    + apply Hrest.
    + apply Hrest.
    + apply Hrest.
    + done.
  - eapply tracked_kept; [apply resume_kept|done].
Qed.

Lemma append_inj_l s1 s2 t : s1 +:+ t = s2 +:+ t → s1 = s2.
Proof.
  revert s2. induction s1 as [|c s1 IH]; intros [|c' s2] H.
  - done.
  - apply (f_equal String.length) in H. rewrite !length_append in H.
    cbn in H. lia.
  - apply (f_equal String.length) in H. rewrite !length_append in H.
    cbn in H. lia.
  - change (String c (s1 +:+ t) = String c' (s2 +:+ t)) in H.
    injection H as -> H. f_equal. by apply IH.
Qed.

Lemma timeout_key_inj E E' : timeout_key E = timeout_key E' → E = E'.
Proof. apply append_inj_l. Qed.

Lemma not_timeout_key E E' : endsWith "_timeout" E = false → E ≠ timeout_key E'.
Proof. intros H ->. by rewrite endsWith_timeout_key in H. Qed.

Lemma tracked_schedule E eventType event w :
  endsWith "_timeout" E = false →
  tracked w → tracked (scheduleEventProcessing E eventType event w).
Proof.
  intros HE Hw. unfold scheduleEventProcessing. cbn zeta.
  set (names := match pendingEvents (this w) !! E with
                | Some existingEvent => _
                | None => _
                end).
  set (w1 := on_this _ w).
  assert (tracked w1) as Hw1.
  { destruct Hw as (Hf & Hnd & HD & HR & HC & HX). split_and!; try done.
    intros t E' ty Ht Hcb. destruct (HD t E' ty Ht Hcb) as [HE' Hh].
    split; [done|]. subst w1. fields.
    rewrite lookup_insert_ne by (by apply not_timeout_key). done. }
  set (w2 := match pendingEvents (this w1) !! timeout_key E with
             | Some (TimerHandle id) => clearTimeout id w1
             | _ => w1
             end).
  assert (handles_kept w1 w2) as Hk.
  { subst w2. destruct (pendingEvents (this w1) !! timeout_key E) as [[|id]|];
      [apply handles_kept_refl | apply clearTimeout_kept | apply handles_kept_refl]. }
  pose proof (tracked_kept _ _ Hk Hw1) as Hw2.
  assert (∀ t ty, t ∈ timers (loop w2) → callback t ≠ ProcessPending E ty) as Hno.
  { intros t ty Ht Hcb.
    destruct Hw1 as (_ & _ & HD1 & _).
    destruct (HD1 t E ty (kept_elem _ _ _ Hk Ht) Hcb) as [_ Hh].
    subst w2. rewrite Hh in Ht. by apply clearTimeout_gone in Ht. }
  unfold setTimeout. cbn zeta.
  pose proof Hw2 as ([_ Hfc2] & _ & HD2 & HR2 & HC2 & _).
  eapply (tracked_arm w2 _ (ProcessPending E eventType)); [done|..].
  - fields. done.
  - done.
  - done.
  - intros t E' ty Ht Hcb. fields.
    rewrite lookup_insert_ne.
    + by apply (HD2 t E' ty).
    + intros Heq. apply timeout_key_inj in Heq as ->. by apply (Hno t ty).
  - intros t Ht Hcb. by apply HR2.
  - intros t Ht Hcb. by apply HC2.
  - split; [done|]. fields. apply lookup_insert_eq.
Qed.

Lemma emit_kept n w : handles_kept w (emit n w).
Proof. by repeat split. Qed.

Lemma tracked_process E eventType w :
  tracked w →
  endsWith "_timeout" E = false →
  (∀ t ty, t ∈ timers (loop w) → callback t ≠ ProcessPending E ty) →
  tracked (processPendingEvent E eventType w).
Proof.
  intros Hw HE Hno. unfold processPendingEvent.
  destruct (pendingEvents (this w) !! E) as [pending|]; [|done].
  cbn zeta. set (w1 := on_this _ w).
  assert (tracked w1) as Hw1.
  { destruct Hw as (Hf & Hnd & HD & HR & HC & HX). split_and!; try done.
    intros t E' ty Ht Hcb. destruct (HD t E' ty Ht Hcb) as [HE' Hh].
    split; [done|]. subst w1. fields.
    rewrite lookup_delete_ne.
    - rewrite lookup_delete_ne; [done|]. by apply not_timeout_key.
    - intros Heq. apply timeout_key_inj in Heq as ->. by apply (Hno t ty). }
  destruct pending as [event names|id].
  - eapply tracked_kept; [apply emit_kept|].
    destruct (first_queue_member _ _ _).
    + eapply tracked_kept; [apply emit_kept|].
      eapply tracked_kept; [|exact Hw1]. by repeat split.
    + eapply tracked_kept; [|exact Hw1]. by repeat split.
  - eapply tracked_kept; [apply emit_kept|done].
Qed.

(** As [fields], but the updates are unfolded only under a projection. *)
Ltac through :=
  cbn [this loop nami emitted results exited
       queues isConnected reconnectInterval connectTimeout connectionTimeout
       reconnectTimeout isReconnecting shouldReconnect pendingEvents
       eventTimeout now timers next_timer inflight next_call
       listeners socket routing opened closed sent
       timer_id due callback
       on_this on_loop on_nami emit complete process_exit
       set_queues set_isConnected set_connectionTimeout set_reconnectTimeout
       set_isReconnecting set_shouldReconnect set_pendingEvents
       set_timers set_now set_next_timer set_inflight set_next_call
       set_listeners set_socket set_routing set_opened set_closed set_sent].

Lemma tracked_connect w :
  tracked w → idle_connection w → tracked (connect w).
Proof.
  intros Hw Hidle. unfold connect.
  destruct (isReconnecting (this w) || negb (shouldReconnect (this w))); [done|].
  unfold setTimeout. cbn zeta.
  pose proof Hw as ([_ Hfc] & _ & HD & HR & HC & _).
  eapply (tracked_arm w _ ConnectTimedOut).
  - exact Hw.
  - through. reflexivity.
  - through. reflexivity.
  - through. exact Hfc.
  - intros t E ty Ht Hcb. through. by apply (HD t E ty).
  - intros t Ht Hcb. through. by apply HR.
  - intros t Ht Hcb. by destruct (proj2 (Hidle t Ht)).
  - split; [through; reflexivity|]. intros t Ht. apply (Hidle t Ht).
Qed.

Lemma tracked_handleConnection w : tracked w → tracked (handleConnection w).
Proof.
  intros Hw. unfold handleConnection. cbn zeta.
  destruct (tracked_clear_connectionTimeout w Hw) as [Hw1 _].
  eapply tracked_kept; [|exact Hw1]. by repeat split.
Qed.

Lemma tracked_handleDisconnection w : tracked w → tracked (handleDisconnection w).
Proof.
  intros Hw. unfold handleDisconnection. cbn zeta.
  destruct (tracked_clear_connectionTimeout w Hw) as [Hw1 HnoC].
  set (w1 := clear_connectionTimeout w) in *.
  destruct (tracked_clear_reconnectTimeout w1 Hw1) as [Hw2 HnoR].
  destruct (clear_reconnectTimeout_quiet w1) as (_&_&_&_&_&_&_&_&_&Hsub&_).
  set (w2 := clear_reconnectTimeout w1) in *.
  set (w4 := emit disconnected _).
  assert (handles_kept w2 w4) as Hk by (by repeat split).
  pose proof (tracked_kept _ _ Hk Hw2) as Hw4.
  destruct (shouldReconnect (this w4)); [|done].
  unfold setTimeout. cbn zeta.
  pose proof Hw4 as ([_ Hfc] & _ & HD & HR & HC & _).
  eapply (tracked_arm w4 _ Reconnect); [done|..].
  - fields. done.
  - done.
  - done.
  - intros t E ty Ht Hcb. by apply (HD t E ty).
  - intros t Ht Hcb. by destruct (HnoR t Ht).
  - intros t Ht Hcb. by apply HC.
  - split; [done|]. intros t Ht. by apply HnoC, Hsub.
Qed.

Lemma clear_entries_kept w (m : gmap string Pending) :
  handles_kept w (map_fold clear_entry w m).
Proof.
  apply (map_fold_weak_ind (λ r _, handles_kept w r)).
  - apply handles_kept_refl.
  - intros i x m' r _ Hr. eapply handles_kept_trans; [exact Hr|].
    unfold clear_entry. destruct (endsWith "_timeout" i); [|apply handles_kept_refl].
    destruct x; [apply handles_kept_refl | apply clearTimeout_kept].
Qed.

Lemma tracked_cleanup close_error w :
  tracked w →
  tracked (cleanup close_error w) ∧
  ∀ t, t ∈ timers (loop (cleanup close_error w)) → ∃ c, callback t = SendTimedOut c.
Proof.
  intros Hw. unfold cleanup. cbn zeta.
  set (w1 := on_this (set_shouldReconnect false) w).
  assert (tracked w1) as Hw1 by (eapply tracked_kept; [|exact Hw]; by repeat split).
  destruct (tracked_clear_connectionTimeout w1 Hw1) as [Hw2 HnoC].
  destruct (clear_connectionTimeout_quiet w1) as (_&_&_&_&_&_&_&_&_&_&_).
  set (w2 := clear_connectionTimeout w1) in *.
  destruct (tracked_clear_reconnectTimeout w2 Hw2) as [Hw3 HnoR].
  destruct (clear_reconnectTimeout_quiet w2) as (_&_&_&_&_&_&_&_&_&Hsub3&_).
  set (w3 := clear_reconnectTimeout w2) in *.
  pose proof (clear_entries_kept w3 (pendingEvents (this w3))) as Hk4.
  destruct (clear_entries_cleared w3 (pendingEvents (this w3))) as [_ Hgone].
  set (w4 := map_fold clear_entry w3 (pendingEvents (this w3))) in *.
  pose proof (tracked_kept _ _ Hk4 Hw3) as Hw4.
  assert (∀ t, t ∈ timers (loop w4) → ∃ c, callback t = SendTimedOut c) as Honly.
  { intros t Ht. destruct (callback t) as [E ty| | |c] eqn:Hcb.
    - destruct Hw4 as (_ & _ & HD & _). destruct (HD t E ty Ht Hcb) as [_ Hh].
      rewrite (proj1 Hk4) in Hh.
      destruct (Hgone _ _ (endsWith_timeout_key E) Hh).
      apply list_elem_of_fmap. eauto.
    - destruct (HnoC t); [|done]. apply Hsub3. by eapply kept_elem.
    - destruct (HnoR t); [|done]. by eapply kept_elem.
    - eauto. }
  set (w5 := on_this (set_pendingEvents ∅) w4).
  assert (tracked w5) as Hw5.
  { destruct Hw4 as (? & ? & HD & ? & ? & ?). split_and!; try done.
    intros t E ty Ht Hcb. destruct (Honly t Ht) as [c Hc]. congruence. }
  set (w7 := on_nami _ (on_nami _ w5)).
  assert (handles_kept w5 (process_exit (emit disconnected
            (if isConnected (this w7)
             then
               match close_error with
               | Some message =>
                   emit (connectionError "CLEANUP_ERROR" message)
                     (on_nami (λ n, set_closed (S (closed n)) n) w7)
               | None => on_nami (λ n, set_closed (S (closed n)) n) w7
               end
             else w7)))) as Hk.
  { destruct (isConnected (this w7)); [destruct close_error|]; by repeat split. }
  split; [by eapply tracked_kept|].
  intros t Ht. apply Honly. by apply (kept_elem _ _ t Hk).
Qed.

Lemma tracked_send_timed_out c w : tracked w → tracked (send_timed_out c w).
Proof.
  intros Hw. unfold send_timed_out. destruct (find_call c w); [|done].
  eapply tracked_kept; [apply resume_kept|]. by apply tracked_forget_call.
Qed.

Lemma tracked_send_responded c response w :
  tracked w → tracked (send_responded c response w).
Proof.
  intros Hw. unfold send_responded. destruct (find_call c w) as [f|]; [|done].
  eapply tracked_kept; [apply resume_kept|]. apply tracked_forget_call.
  by eapply tracked_kept; [apply clearTimeout_kept|].
Qed.

Lemma handleQueueMemberAdded_kept event w :
  handles_kept w (handleQueueMemberAdded event w).
Proof.
  unfold handleQueueMemberAdded.
  destruct (Map_get _ _); cbn zeta; destruct (find_member _ _); by repeat split.
Qed.

Lemma handleQueueMemberRemoved_kept event w :
  handles_kept w (handleQueueMemberRemoved event w).
Proof.
  unfold handleQueueMemberRemoved.
  destruct (Map_get _ _); [|by repeat split].
  destruct (find_member _ _) as [[]|]; by repeat split.
Qed.

Lemma tracked_handleEvent event w :
  tracked w → regular_input w (namiEvent event) → tracked (handleEvent event w).
Proof.
  intros Hw Hreg. cbn [regular_input] in Hreg. unfold coalesced_type in Hreg.
  unfold handleEvent.
  destruct (decide (Event.event event = "FullyBooted")); [by apply tracked_send|].
  destruct (decide (Event.event event = "QueueMemberStatus")).
  { apply tracked_schedule; [|done]. apply Hreg. repeat case_decide; by eexists. }
  destruct (decide (Event.event event = "QueueMemberAdded")).
  { eapply tracked_kept; [apply handleQueueMemberAdded_kept|done]. }
  destruct (decide (Event.event event = "QueueMemberRemoved")).
  { eapply tracked_kept; [apply handleQueueMemberRemoved_kept|done]. }
  destruct (decide (Event.event event = "QueueMemberPause")); [|done].
  apply tracked_schedule; [|done]. apply Hreg. repeat case_decide; by eexists.
Qed.

Lemma tracked_fire t w : tracked w → t ∈ timers (loop w) → tracked (fire t w).
Proof.
  intros Hw Ht. unfold fire. cbn zeta.
  set (w1 := on_loop _ w).
  assert (handles_kept w w1) as Hk.
  { repeat split. subst w1. fields. apply sublist_filter. }
  assert (∀ t', t' ∈ timers (loop w1) → timer_id t' ≠ timer_id t) as Hne.
  { intros t'. subst w1. fields. by intros [? _]%list_elem_of_filter. }
  pose proof (tracked_kept _ _ Hk Hw) as Hw1.
  destruct Hw as (_ & _ & HD & HR & HC & HX).
  destruct (callback t) as [E ty| | |c] eqn:Hcb.
  - destruct (HD t E ty Ht Hcb) as [HE Hh].
    apply tracked_process; [done..|].
    intros t' ty' Ht' Hcb'.
    destruct (HD t' E ty' (kept_elem _ _ _ Hk Ht') Hcb') as [_ Hh'].
    apply (Hne t' Ht'). congruence.
  - apply tracked_handleDisconnection.
    eapply tracked_kept; [apply emit_kept|done].
  - apply tracked_connect; [done|].
    intros t' Ht'. pose proof (kept_elem _ _ _ Hk Ht') as Hin. split; intros Hcb'.
    + apply (Hne t' Ht'). pose proof (HR t Ht Hcb) as H1.
      pose proof (HR t' Hin Hcb') as H2. congruence.
    + exact (HX t t' Ht Hin Hcb Hcb').
  - by apply tracked_send_timed_out.
Qed.

Lemma find_timer_elem id w t : find_timer id w = Some t → t ∈ timers (loop w).
Proof.
  unfold find_timer. destruct (list_find _ _) as [[i t']|] eqn:Hf; [|done].
  intros [= <-]. apply list_find_Some in Hf as (Hl & _). by eapply list_elem_of_lookup_2.
Qed.

Lemma dispatch_tracked i w : tracked w → regular_input w i → tracked (dispatch i w).
Proof.
  intros Hw Hreg. destruct i; cbn [dispatch].
  - destruct (find_timer id w) as [t|] eqn:Hf; [|done].
    apply tracked_fire; [done|]. by eapply find_timer_elem.
  - destruct (listeners (nami w)); [by apply tracked_handleConnection|done].
  - destruct (listeners (nami w)); [by apply tracked_handleDisconnection|done].
  - destruct (listeners (nami w)); [|done]. apply tracked_handleDisconnection.
    eapply tracked_kept; [apply emit_kept|done].
  - destruct (listeners (nami w)); [by apply tracked_handleEvent|done].
  - destruct (listeners (nami w)); [|done]. apply tracked_handleDisconnection.
    eapply tracked_kept; [apply emit_kept|done].
  - case_decide; [|done]. apply tracked_handleDisconnection.
    eapply tracked_kept; [apply emit_kept|done].
  - destruct (routing (nami w)); [by apply tracked_send_responded|done].
  - case_decide; [by apply tracked_handleDisconnection|done].
  - by apply tracked_cleanup.
  - by apply tracked_connect.
  - by apply tracked_cleanup.
  - by apply tracked_send.
  - by apply tracked_send.
  - by apply tracked_send.
  - by apply tracked_send.
  - by apply tracked_send.
Qed.

Lemma tracked_new : tracked new_AsteriskCache.
Proof.
  split_and!.
  - split; apply Forall_nil_2.
  - apply NoDup_nil_2.
  - by intros t E ty Ht%elem_of_nil.
  - by intros t Ht%elem_of_nil.
  - by intros t Ht%elem_of_nil.
  - by intros t1 t2 Ht%elem_of_nil.
Qed.

(** Along a regular history the cache keeps track of every timer it
    arms. *)
Lemma run_tracked history w :
  tracked w → regular history w → tracked (run history w).
Proof.
  revert w. induction history as [|i history IH]; intros w Hw Hreg; [done|].
  destruct Hreg as [Hi Hrest]. cbn [run foldl].
  apply IH; [by apply dispatch_tracked|done].
Qed.

(** Every cache reached from a new one along a regular history keeps
    track of every timer it arms. *)
Corollary reachable_tracked history :
  regular history new_AsteriskCache → tracked (run history new_AsteriskCache).
Proof. apply run_tracked, tracked_new. Qed.

(** Regularity is needed.  The event of extension [X_timeout] takes the
    key under which the timer of extension [X] is recorded, and [cleanup]
    finds no timer there: the timer of [X] stays armed. *)
Example colliding_extension_keeps_timer :
  timers (loop (cleanup None (run colliding_events new_AsteriskCache)))
  = [{| timer_id := 1; due := 500;
        callback := ProcessPending "X" QueueMemberPause |}].
Proof. vm_compute. reflexivity. Qed.

(** A second [connect] while the first attempt is under way overwrites
    [connectionTimeout]: the first connect-timeout timer stays armed. *)
Example connect_twice_keeps_timer :
  timers (loop (cleanup None (run connect_twice new_AsteriskCache)))
  = [{| timer_id := 0; due := 10000; callback := ConnectTimedOut |}].
Proof. vm_compute. reflexivity. Qed.


(** ** Reading the cache *)

Section JsMapElements.
Context {V : Type}.
Implicit Types (m : JsMap V) (k : string) (v : V).

Lemma Map_get_elem k v m : Map_get k m = Some v → (k, v) ∈ m.
Proof.
  induction m as [|[k' v'] m IH]; [done|]. cbn [Map_get].
  case_decide as Hk.
  - intros [= ->]. subst. apply list_elem_of_here.
  - intros H. apply list_elem_of_further. by apply IH.
Qed.

Lemma Map_elem_get k v m : NoDup (Map_keys m) → (k, v) ∈ m → Map_get k m = Some v.
Proof.
  induction m as [|[k' v'] m IH]; [by intros _ ?%elem_of_nil|].
  unfold Map_keys. rewrite fmap_cons. cbn [fst].
  intros [Hout Hnd]%NoDup_cons [[= -> ->]|Hin]%elem_of_cons; cbn [Map_get].
  - by rewrite decide_True.
  - rewrite decide_False; [by apply IH|].
    intros ->. apply Hout. apply list_elem_of_fmap. by exists (k, v).
Qed.

Lemma Map_set_NoDup k v m : NoDup (Map_keys m) → NoDup (Map_keys (Map_set k v m)).
Proof.
  intros Hnd. destruct (Map_get k m) as [v0|] eqn:Hk.
  - by rewrite (Map_set_keys _ _ _ _ Hk).
  - rewrite (Map_set_new _ _ _ Hk). unfold Map_keys. rewrite fmap_app.
    apply NoDup_app. split_and!; [done| |apply NoDup_singleton].
    intros k' Hin ->%list_elem_of_singleton. by apply Map_get_None in Hk.
Qed.

Lemma Map_set_elem k v m k' v' :
  (k', v') ∈ Map_set k v m → (k' = k ∧ v' = v) ∨ (k', v') ∈ m.
Proof.
  induction m as [|[k0 v0] m IH]; cbn [Map_set].
  - intros [= -> ->]%list_elem_of_singleton. by left.
  - case_decide.
    + intros [[= -> ->]|Hin]%elem_of_cons; [by left|].
      right. by apply list_elem_of_further.
    + intros [[= -> ->]|Hin]%elem_of_cons; [right; apply list_elem_of_here|].
      destruct (IH Hin) as [?|?]; [by left|]. right. by apply list_elem_of_further.
Qed.
End JsMapElements.

Lemma find_member_cons ext m ms :
  find_member ext (m :: ms)
  = if decide (Member.extension m = ext) then Some (0, m)
    else prod_map S id <$> find_member ext ms.
Proof. done. Qed.

Lemma first_member_is_Some ext q :
  is_Some (first_member ext q) ↔ ext ∈ extensions (Queue.members q).
Proof.
  unfold first_member. split.
  - intros [m Hm]. destruct (find_member _ _) as [[i m']|] eqn:E; [|done].
    apply find_member_Some in E as [Hi <-].
    apply list_elem_of_fmap. exists m'. split; [done|]. by eapply list_elem_of_lookup_2.
  - intros Hin. destruct (find_member_is_Some _ _ Hin) as (i & m & ->). by eexists.
Qed.

Lemma first_member_extension ext q m :
  first_member ext q = Some m → Member.extension m = ext ∧ m ∈ Queue.members q.
Proof.
  unfold first_member. destruct (find_member _ _) as [[i m']|] eqn:E; [|done].
  intros [= <-]. apply find_member_Some in E as [Hi ?]. split; [done|].
  by eapply list_elem_of_lookup_2.
Qed.

(** What the loop of [getAgentByExtension] leaves in [agentQueues] and
    [agentData]. *)
Lemma collect_agent_fold ext qs names data :
  foldl (collect_agent ext) (names, data) qs
  = (names ++ (Queue.name <$> holders ext qs),
     match data with
     | Some _ => data
     | None =>
         match holders ext qs with
         | q :: _ => (λ m, (m, Queue.name q)) <$> first_member ext q
         | [] => None
         end
     end).
Proof.
  revert names data. induction qs as [|q qs IH]; intros names data.
  - cbn. rewrite app_nil_r. by destruct data.
  - cbn [foldl]. unfold holders. rewrite filter_cons. fold (holders ext qs).
    unfold collect_agent at 2. fold (first_member ext q).
    destruct (decide _) as [Hin|Hout].
    + apply first_member_is_Some in Hin as [m Hm]. rewrite Hm.
      rewrite IH, fmap_cons, <- app_assoc. cbn [app].
      by destruct data.
    + destruct (first_member ext q) as [m|] eqn:Hm.
      { destruct Hout. apply first_member_is_Some. by eexists. }
      by rewrite IH.
Qed.

(** What [getAgentByExtension] returns, by the queues that list the
    extension. *)
Lemma getAgentByExtension_holders extension w :
  getAgentByExtension extension w
  = match holders extension (getQueues w) with
    | q :: rest =>
        (λ m, {| AgentData.member := m; AgentData.queue := Queue.name q;
                 AgentData.queues := Queue.name q :: (Queue.name <$> rest) |})
          <$> first_member extension q
    | [] => None
    end.
Proof.
  unfold getAgentByExtension. rewrite collect_agent_fold. cbn [app].
  destruct (holders extension (getQueues w)) as [|q rest]; [done|].
  by destruct (first_member extension q).
Qed.

Lemma holders_head extension qs q rest :
  holders extension qs = q :: rest → is_Some (first_member extension q).
Proof.
  intros Hh. apply first_member_is_Some.
  assert (q ∈ holders extension qs) as Hq by (rewrite Hh; apply list_elem_of_here).
  by apply list_elem_of_filter in Hq as [Hq _].
Qed.

Lemma getAgentByExtension_extension extension w d :
  getAgentByExtension extension w = Some d →
  Member.extension (AgentData.member d) = extension.
Proof.
  rewrite getAgentByExtension_holders.
  destruct (holders extension (getQueues w)) as [|q rest]; [done|].
  destruct (first_member extension q) as [m|] eqn:Hm; [|done].
  intros [= <-]. cbn. by apply first_member_extension in Hm as [? _].
Qed.

(** X1.  [getAgentByExtension] returns [null] exactly when no queue lists
    the extension.  Otherwise [queues] holds the names of all the queues
    that list it, in the order of the map, [queue] is the first of them,
    and the data are those of the first record of the extension in that
    first queue. *)
Theorem getAgentByExtension_spec extension w :
  match getAgentByExtension extension w with
  | None => holders extension (getQueues w) = []
  | Some a =>
      ∃ q rest,
        holders extension (getQueues w) = q :: rest ∧
        first_member extension q = Some (AgentData.member a) ∧
        Member.extension (AgentData.member a) = extension ∧
        AgentData.queue a = Queue.name q ∧
        AgentData.queues a = Queue.name q :: (Queue.name <$> rest)
  end.
Proof.
  rewrite getAgentByExtension_holders.
  destruct (holders extension (getQueues w)) as [|q rest] eqn:Hh; [done|].
  destruct (holders_head _ _ _ _ Hh) as [m Hm]. rewrite Hm. cbn.
  exists q, rest. split_and!; try done.
  by apply first_member_extension in Hm as [? _].
Qed.

Lemma add_agent_get k agents m e :
  Map_get e (add_agent k agents m)
  = if decide (Member.extension m = e) then Some (joined k m (Map_get e agents))
    else Map_get e agents.
Proof.
  unfold add_agent, joined.
  destruct (decide (Member.extension m = e)) as [<-|Hne].
  - destruct (Map_get (Member.extension m) agents) as [a|] eqn:Ha.
    + case_decide; [done|]. by rewrite Map_get_set_eq.
    + by rewrite Map_get_set_eq.
  - destruct (Map_get (Member.extension m) agents) as [a|].
    + case_decide; [done|]. by rewrite Map_get_set_ne.
    + by rewrite Map_get_set_ne.
Qed.

Lemma joined_queue k m seen : k ∈ Agent.queues (joined k m seen).
Proof.
  unfold joined. destruct seen as [a|]; [|apply list_elem_of_here].
  case_decide; [done|]. cbn. apply elem_of_app. right. apply list_elem_of_here.
Qed.

Lemma joined_again k m m' seen : joined k m' (Some (joined k m seen)) = joined k m seen.
Proof.
  unfold joined at 1. by rewrite decide_True by apply joined_queue.
Qed.

Lemma members_fold_get k ms agents e :
  Map_get e (foldl (add_agent k) agents ms)
  = match snd <$> find_member e ms with
    | Some m => Some (joined k m (Map_get e agents))
    | None => Map_get e agents
    end.
Proof.
  revert agents. induction ms as [|m ms IH]; intros agents; [done|].
  cbn [foldl]. rewrite IH, add_agent_get, find_member_cons.
  destruct (decide (Member.extension m = e)) as [He|He].
  - cbn [fmap option_fmap option_map snd].
    destruct (snd <$> find_member e ms); [|done]. by rewrite joined_again.
  - destruct (find_member e ms) as [[i m']|]; done.
Qed.

Lemma all_agents_fold_get e qs agents :
  Map_get e (foldl (λ agents '(queueName, queue),
                      foldl (add_agent queueName) agents (Queue.members queue))
               agents qs)
  = agent_view e qs (Map_get e agents).
Proof.
  revert agents. induction qs as [|[k q] qs IH]; intros agents; [done|].
  cbn [foldl agent_view]. rewrite IH, members_fold_get. done.
Qed.

Lemma all_agents_get e qs : Map_get e (all_agents qs) = agent_view e qs None.
Proof. apply all_agents_fold_get. Qed.

Lemma add_agent_NoDup k agents m :
  NoDup (Map_keys agents) → NoDup (Map_keys (add_agent k agents m)).
Proof.
  intros H. unfold add_agent. destruct (Map_get _ _); [case_decide|];
    try done; by apply Map_set_NoDup.
Qed.

Lemma all_agents_NoDup qs : NoDup (Map_keys (all_agents qs)).
Proof.
  unfold all_agents.
  assert (∀ agents : JsMap Agent.t, NoDup (Map_keys agents) →
            NoDup (Map_keys
                     (foldl (λ agents '(queueName, queue),
                               foldl (add_agent queueName) agents (Queue.members queue))
                        agents qs))) as H.
  { induction qs as [|[k q] qs IH]; intros agents Hnd; [done|].
    cbn [foldl]. apply IH. generalize (Queue.members q). intros ms.
    revert agents Hnd. induction ms as [|m ms IHm]; intros agents Hnd; [done|].
    cbn [foldl]. by apply IHm, add_agent_NoDup. }
  apply H, NoDup_nil_2.
Qed.

(** The agents of [getAllAgents] are the values the map holds, each under
    one key. *)
Lemma getAllAgents_elem a w :
  a ∈ getAllAgents w ↔ ∃ e, agent_view e (queues (this w)) None = Some a.
Proof.
  unfold getAllAgents, Map_values. rewrite list_elem_of_fmap. split.
  - intros ([e a'] & -> & Hin). exists e. rewrite <- all_agents_get.
    by apply Map_elem_get; [apply all_agents_NoDup|].
  - intros [e He]. rewrite <- all_agents_get in He.
    exists (e, a). split; [done|]. by apply Map_get_elem.
Qed.


Lemma joined_sound e k m seen :
  Member.extension m = e →
  (∀ a0, seen = Some a0 → sound_agent e a0) →
  sound_agent e (joined k m seen).
Proof.
  intros Hm Hseen. unfold joined. destruct seen as [a0|].
  - destruct (Hseen a0 eq_refl) as (He & Hnd & Hne).
    case_decide as Hk; [done|]. split_and!; [done| |by destruct (Agent.queues a0)].
    cbn. apply NoDup_app. split_and!; [done| |apply NoDup_singleton].
    by intros k' Hin ->%list_elem_of_singleton.
  - split_and!; [done|apply NoDup_singleton|done].
Qed.

Lemma agent_view_sound e qs seen a :
  (∀ a0, seen = Some a0 → sound_agent e a0) →
  agent_view e qs seen = Some a → sound_agent e a.
Proof.
  revert seen. induction qs as [|[k q] qs IH]; intros seen Hseen; cbn [agent_view].
  - intros ->. by apply Hseen.
  - apply IH. destruct (first_member e q) as [m|] eqn:Hm; [|done].
    intros a0 [= <-]. apply joined_sound; [|done].
    by apply first_member_extension in Hm as [? _].
Qed.

Lemma all_agents_sound e a qs : (e, a) ∈ all_agents qs → sound_agent e a.
Proof.
  intros Hin. apply (Map_elem_get _ _ _ (all_agents_NoDup qs)) in Hin.
  rewrite all_agents_get in Hin. by eapply agent_view_sound; [|exact Hin].
Qed.

(** X2.  [getAllAgents] lists every extension once, also when a queue
    lists an extension more than once or several queues list it; the
    queues of an agent are distinct and there is at least one. *)
Theorem getAllAgents_distinct w :
  NoDup ((λ a, Member.extension (Agent.member a)) <$> getAllAgents w) ∧
  ∀ a, a ∈ getAllAgents w → NoDup (Agent.queues a) ∧ Agent.queues a ≠ [].
Proof.
  split.
  - unfold getAllAgents, Map_values.
    pose proof (all_agents_NoDup (queues (this w))) as Hnd.
    pose proof (λ e a, all_agents_sound e a (queues (this w))) as Hs.
    revert Hnd Hs. generalize (all_agents (queues (this w))). intros agents.
    unfold Map_keys. induction agents as [|[e a] agents IH]; intros Hnd Hs;
      [apply NoDup_nil_2|].
    rewrite !fmap_cons in *. cbn [fst snd] in *.
    apply NoDup_cons in Hnd as [Hout Hnd]. apply NoDup_cons. split.
    + destruct (Hs e a) as [-> _]; [apply list_elem_of_here|].
      intros (a' & Heq & ([e' a''] & -> & Hin)%list_elem_of_fmap)%list_elem_of_fmap.
      cbn [snd] in Heq. apply Hout. apply list_elem_of_fmap. exists (e', a'').
      split; [|done]. cbn [fst]. rewrite Heq.
      destruct (Hs e' a'') as [-> _]; [by apply list_elem_of_further|done].
    + apply IH; [done|]. intros e' a' Hin. apply Hs. by apply list_elem_of_further.
  - intros a [e He]%getAllAgents_elem.
    by destruct (agent_view_sound e _ None a ltac:(done) He) as (_ & ? & ?).
Qed.

Lemma agent_view_is_Some e qs seen :
  is_Some (agent_view e qs seen) ↔ is_Some seen ∨ holders e qs.*2 ≠ [].
Proof.
  revert seen. induction qs as [|[k q] qs IH]; intros seen; cbn [agent_view].
  - split; [by left | by intros [?|?]].
  - rewrite IH. rewrite fmap_cons. cbn [snd]. unfold holders. rewrite filter_cons.
    fold (holders e qs.*2). destruct (first_member e q) as [m|] eqn:Hm.
    + rewrite decide_True by (apply first_member_is_Some; by eexists).
      split; [intros _; by right | intros _; left; by eexists].
    + rewrite decide_False; [done|].
      intros [m Hm']%first_member_is_Some. congruence.
Qed.

(** X3.  [getAllAgents] lists an extension exactly when some queue lists
    it, that is, exactly when [getAgentByExtension] does not return
    [null]; the key of an agent is the extension of its data. *)
Theorem getAllAgents_covers extension w :
  ((∃ a, a ∈ getAllAgents w ∧ Member.extension (Agent.member a) = extension)
   ↔ ∃ queue, queue ∈ getQueues w ∧ extension ∈ extensions (Queue.members queue)) ∧
  ((∃ a, a ∈ getAllAgents w ∧ Member.extension (Agent.member a) = extension)
   ↔ is_Some (getAgentByExtension extension w)).
Proof.
  assert ((∃ a, a ∈ getAllAgents w ∧ Member.extension (Agent.member a) = extension)
          ↔ holders extension (getQueues w) ≠ []) as Hh.
  { split.
    - intros (a & [e He]%getAllAgents_elem & Hext).
      destruct (agent_view_sound e _ None a ltac:(done) He) as (He' & _).
      assert (e = extension) as -> by congruence.
      assert (is_Some (agent_view extension (queues (this w)) None)) as Hs
        by (by eexists).
      by apply agent_view_is_Some in Hs as [[? [=]]|?].
    - intros Hne.
      destruct (proj2 (agent_view_is_Some extension (queues (this w)) None))
        as [a Ha]; [by right|].
      exists a. split; [apply getAllAgents_elem; eauto|].
      by destruct (agent_view_sound extension _ None a ltac:(done) Ha) as (? & _). }
  split.
  - rewrite Hh. split.
    + intros Hne. destruct (holders extension (getQueues w)) as [|q r] eqn:E; [done|].
      assert (q ∈ holders extension (getQueues w)) as Hq
        by (rewrite E; apply list_elem_of_here).
      apply list_elem_of_filter in Hq as [? ?]. eauto.
    + intros (q & Hq & Hin) E.
      assert (q ∈ holders extension (getQueues w)) as Hq'
        by (apply list_elem_of_filter; eauto).
      rewrite E in Hq'. by apply elem_of_nil in Hq'.
  - rewrite Hh, getAgentByExtension_holders.
    destruct (holders extension (getQueues w)) as [|q rest] eqn:E.
    + split; [done|]. by intros [? [=]].
    + destruct (holders_head _ _ _ _ E) as [m ->]. split; [by eexists|done].
Qed.

Lemma holders_cons e q qs :
  holders e (q :: qs)
  = match first_member e q with
    | Some _ => q :: holders e qs
    | None => holders e qs
    end.
Proof.
  unfold holders. rewrite filter_cons. destruct (first_member e q) as [m|] eqn:Hm.
  - rewrite decide_True; [done|]. apply first_member_is_Some. by eexists.
  - rewrite decide_False; [done|]. intros [m Hm']%first_member_is_Some. congruence.
Qed.

Lemma well_keyed_cons k q qs :
  well_keyed ((k, q) :: qs) →
  Queue.name q = k ∧ (k ∉ Map_keys qs) ∧ well_keyed qs.
Proof.
  intros [Hnd Hn]. unfold Map_keys in Hnd. rewrite fmap_cons in Hnd.
  apply NoDup_cons in Hnd as [Hout Hnd]. split_and!; [|done|].
  - apply Hn, list_elem_of_here.
  - split; [done|]. intros k' q' Hin. by apply Hn, list_elem_of_further.
Qed.

Lemma agent_view_seen e qs a :
  well_keyed qs →
  (∀ k, k ∈ Agent.queues a → k ∉ Map_keys qs) →
  agent_view e qs (Some a)
  = Some {| Agent.member := Agent.member a;
            Agent.queues := Agent.queues a ++ (Queue.name <$> holders e qs.*2) |}.
Proof.
  revert a. induction qs as [|[k q] qs IH]; intros a Hwk Hfresh.
  - cbn. rewrite app_nil_r. by destruct a.
  - apply well_keyed_cons in Hwk as (Hname & Hout & Hwk).
    cbn [agent_view]. rewrite fmap_cons, holders_cons. cbn [snd].
    assert (∀ k', k' ∈ Agent.queues a → k' ∉ Map_keys qs) as Hfresh'.
    { intros k' Hk' Hin. apply (Hfresh k' Hk'). unfold Map_keys.
      rewrite fmap_cons. by apply list_elem_of_further. }
    destruct (first_member e q) as [m|]; [|by apply IH].
    unfold joined. rewrite decide_False.
    + rewrite IH; [|done|].
      * cbn. by rewrite Hname, <- app_assoc.
      * cbn. intros k' [Hk'| ->%list_elem_of_singleton]%elem_of_app; [by apply Hfresh'|done].
    + intros Hk. apply (Hfresh k Hk). unfold Map_keys. rewrite fmap_cons.
      apply list_elem_of_here.
Qed.

Lemma agent_view_new e qs :
  well_keyed qs →
  agent_view e qs None
  = match holders e qs.*2 with
    | q :: rest =>
        (λ m, {| Agent.member := m;
                 Agent.queues := Queue.name q :: (Queue.name <$> rest) |})
          <$> first_member e q
    | [] => None
    end.
Proof.
  induction qs as [|[k q] qs IH]; intros Hwk; [done|].
  apply well_keyed_cons in Hwk as (Hname & Hout & Hwk).
  cbn [agent_view]. rewrite fmap_cons, holders_cons. cbn [snd].
  destruct (first_member e q) as [m|] eqn:Hm; [|by apply IH].
  cbn [joined]. rewrite agent_view_seen; [|done|].
  - cbn. by rewrite Hm, Hname.
  - cbn. by intros k' ->%list_elem_of_singleton.
Qed.

(** X4.  When the map holds every queue under its name, the two views of
    an agent agree: the agents of [getAllAgents] are exactly those
    [getAgentByExtension] returns, with the same data and the same
    queues. *)
Theorem agent_views_agree w (a : Agent.t) :
  well_keyed (queues (this w)) →
  a ∈ getAllAgents w
  ↔ ∃ d, getAgentByExtension (Member.extension (Agent.member a)) w = Some d ∧
         AgentData.member d = Agent.member a ∧
         AgentData.queues d = Agent.queues a.
Proof.
  intros Hwk. rewrite getAllAgents_elem.
  assert (∀ e, agent_view e (queues (this w)) None
               = (λ d, {| Agent.member := AgentData.member d;
                          Agent.queues := AgentData.queues d |})
                   <$> getAgentByExtension e w) as Hview.
  { intros e. rewrite agent_view_new by done.
    unfold getAgentByExtension. rewrite collect_agent_fold. cbn [app].
    unfold getQueues, Map_values.
    destruct (holders e (queues (this w)).*2) as [|q rest]; [done|].
    by destruct (first_member e q). }
  split.
  - intros [e He]. rewrite Hview in He.
    destruct (getAgentByExtension e w) as [d|] eqn:Hd; [|done].
    injection He as <-. cbn.
    rewrite (getAgentByExtension_extension e w d Hd), Hd. by exists d.
  - intros (d & Hd & Hm & Hq). exists (Member.extension (Agent.member a)).
    rewrite Hview, Hd. cbn. rewrite Hm, Hq. by destruct a.
Qed.

Lemma agent_views_agree_witness :
  well_keyed (queues (this two_queues)) ∧
  ({| Agent.member := agent "SIP/100"; Agent.queues := ["A"; "B"] |}
     ∈ getAllAgents two_queues
   ↔ ∃ d, getAgentByExtension "SIP/100" two_queues = Some d ∧
          AgentData.member d = agent "SIP/100" ∧
          AgentData.queues d = ["A"; "B"]).
Proof.
  assert (well_keyed (queues (this two_queues))) as Hwk.
  { split.
    - apply (bool_decide_unpack _). by vm_compute.
    - intros k q Hin%list_elem_of_In. vm_compute in Hin.
      destruct Hin as [[= <- <-]|[[= <- <-]|[]]]; reflexivity. }
  split; [exact Hwk|].
  exact (agent_views_agree two_queues
           {| Agent.member := agent "SIP/100"; Agent.queues := ["A"; "B"] |} Hwk).
Defined.

(** X5.  [getAvailableAgents] lists, in the order of [getQueueAgents] and
    with the same data, the agents of the queue whose status is the
    number 1 and whose pause flag is the number 0: a status or a flag
    that did not parse never counts as available.  Both accessors return
    the empty list for a queue the cache does not hold. *)
Theorem getAvailableAgents_spec queueName w :
  getAvailableAgents queueName w
  = filter (λ a, available (QueueAgent.member a)) (getQueueAgents queueName w) ∧
  QueueAgent.member <$> getQueueAgents queueName w = members_in queueName w ∧
  (∀ a, a ∈ getQueueAgents queueName w → QueueAgent.queue a = queueName) ∧
  (∀ a, a ∈ getAvailableAgents queueName w →
     Member.status (QueueAgent.member a) ≠ NaN ∧
     Member.paused (QueueAgent.member a) ≠ NaN) ∧
  (getQueue queueName w = None →
     getQueueAgents queueName w = [] ∧ getAvailableAgents queueName w = []).
Proof.
  unfold getAvailableAgents, getQueueAgents, getQueue, members_in.
  destruct (Map_get queueName (queues (this w))) as [queue|]; cbn zeta.
  - split_and!; [| | | |done].
    + generalize (Queue.members queue). intros ms.
      induction ms as [|m ms IH]; [done|].
      rewrite fmap_cons, !filter_cons. cbn [QueueAgent.member].
      fold (available m). destruct (decide (available m)).
      * by rewrite fmap_cons, IH.
      * done.
    + rewrite <- list_fmap_compose. apply list_fmap_id.
    + by intros a (m & -> & _)%list_elem_of_fmap.
    + intros a (m & -> & [[Hs Hp] _]%list_elem_of_filter)%list_elem_of_fmap.
      cbn. by rewrite Hs, Hp.
  - split_and!; try done; by intros a ?%elem_of_nil.
Qed.

Lemma members_in_processed extension eventType event names queueName w :
  pendingEvents (this w) !! extension = Some (PendingEvent event names) →
  members_in queueName (processPendingEvent extension eventType w)
  = if decide (Some queueName ∈ names)
    then updated_members eventType event (members_in queueName w)
    else members_in queueName w.
Proof.
  intros Hp. unfold members_in.
  destruct (processPendingEvent_event _ eventType _ _ _ Hp) as (-> & _).
  rewrite apply_to_queues_get. case_decide; [|done].
  by destruct (Map_get queueName (queues (this w))).
Qed.

(** X6.  Once a coalesced event whose pause flag is not 0 has been
    applied, the agent is no longer among the available agents of any
    queue of the event, provided the queue lists the extension once. *)
Theorem paused_agent_not_available extension eventType event names queueName w :
  pendingEvents (this w) !! extension = Some (PendingEvent event names) →
  Some queueName ∈ names →
  parseInt (Event.paused event) ≠ Num 0 →
  NoDup (extensions (members_in queueName w)) →
  ∀ a, a ∈ getAvailableAgents queueName (processPendingEvent extension eventType w) →
    Member.extension (QueueAgent.member a) ≠ Event.interface event.
Proof.
  intros Hp Hq Hpaused Hnd a Ha Hext.
  assert (QueueAgent.member a
            ∈ members_in queueName (processPendingEvent extension eventType w)
          ∧ available (QueueAgent.member a)) as [Hin Hav].
  { revert Ha. unfold getAvailableAgents, members_in.
    destruct (Map_get queueName _) as [queue|]; [|by intros ?%elem_of_nil].
    by intros (m & -> & [Hav Hin]%list_elem_of_filter)%list_elem_of_fmap. }
  rewrite (members_in_processed _ _ _ _ _ _ Hp), decide_True in Hin by done.
  unfold updated_members in Hin.
  destruct (find_member _ _) as [[i old]|] eqn:E.
  - apply find_member_Some in E as [Hi Hold].
    apply list_elem_of_lookup in Hin as [j Hj].
    destruct (decide (j = i)) as [->|Hne].
    + rewrite list_lookup_insert_eq in Hj by (by eapply lookup_lt_Some).
      injection Hj as Hj. destruct Hav as [_ Hav]. rewrite <- Hj in Hav.
      by destruct eventType.
    + rewrite list_lookup_insert_ne in Hj by done.
      apply Hne. eapply NoDup_lookup; [exact Hnd|..].
      * unfold extensions. by rewrite list_lookup_fmap, Hj.
      * unfold extensions. rewrite list_lookup_fmap, Hi. cbn. congruence.
  - apply find_member_None in E. apply E. apply list_elem_of_fmap. eauto.
Qed.

Lemma paused_agent_not_available_witness :
  let w := lunch_pending [Some "A"; Some "B"] in
  pendingEvents (this w) !! "SIP/100"
  = Some (PendingEvent (lunch "B") [Some "A"; Some "B"]) ∧
  parseInt (Event.paused (lunch "B")) ≠ Num 0 ∧
  NoDup (extensions (members_in "A" w)) ∧
  ∀ a, a ∈ getAvailableAgents "A" (processPendingEvent "SIP/100" QueueMemberPause w) →
    Member.extension (QueueAgent.member a) ≠ "SIP/100".
Proof.
  assert (NoDup (extensions (members_in "A" (lunch_pending [Some "A"; Some "B"]))))
    as Hnd by (apply (bool_decide_unpack _); by vm_compute).
  assert (parseInt (Event.paused (lunch "B")) ≠ Num 0) as Hp by (by vm_compute).
  split_and!; [reflexivity|exact Hp|exact Hnd|].
  apply (paused_agent_not_available "SIP/100" QueueMemberPause (lunch "B")
           [Some "A"; Some "B"] "A" (lunch_pending [Some "A"; Some "B"])
           eq_refl); [|exact Hp|exact Hnd].
  apply (bool_decide_unpack _). by vm_compute.
Defined.

(** ** Member removed *)

Lemma Map_set_set {V} k (v v' : V) (m : JsMap V) :
  Map_set k v (Map_set k v' m) = Map_set k v m.
Proof.
  induction m as [|[k0 v0] m IH]; cbn [Map_set].
  - by rewrite decide_True.
  - case_decide; cbn [Map_set].
    + by rewrite decide_True.
    + rewrite decide_False by done. by rewrite IH.
Qed.

Lemma member_removed_found event w queue i m :
  Map_get (Event.queue event) (queues (this w)) = Some queue →
  find_member (Event.interface event) (Queue.members queue) = Some (i, m) →
  let w' := handleQueueMemberRemoved event w in
  queues (this w')
  = Map_set (Event.queue event)
      (Queue.with_members (delete i (Queue.members queue)) queue) (queues (this w)) ∧
  emitted w'
  = emitted w ++ [memberRemoved (Event.queue event) m;
                  queuesUpdated (Map_values (queues (this w')))] ∧
  pendingEvents (this w') = pendingEvents (this w) ∧
  loop w' = loop w ∧ nami w' = nami w.
Proof.
  intros Hq Hm. unfold handleQueueMemberRemoved. rewrite Hq, Hm. cbn.
  by rewrite <- app_assoc.
Qed.

Lemma member_removed_absent event w :
  Event.interface event ∉ extensions (members_in (Event.queue event) w) →
  handleQueueMemberRemoved event w = w.
Proof.
  unfold members_in, handleQueueMemberRemoved.
  destruct (Map_get _ _) as [queue|]; [|done].
  intros E%find_member_None. by rewrite E.
Qed.

Lemma delete_first_count {A} (P : A → Prop) `{!∀ x, Decision (P x)}
    (l : list A) i x :
  l !! i = Some x → P x →
  S (length (filter P (delete i l))) = length (filter P l).
Proof.
  revert i. induction l as [|y l IH]; intros [|i] Hi Hx; try done.
  - injection Hi as ->. change (delete 0 (x :: l)) with l.
    by rewrite filter_cons_True.
  - change (delete (S i) (y :: l)) with (y :: delete i l). rewrite !filter_cons.
    destruct (decide (P y)); cbn [length]; by rewrite (IH i).
Qed.

Lemma delete_snoc {A} (l : list A) x : delete (length l) (l ++ [x]) = l.
Proof.
  induction l as [|y l IH]; [done|].
  change (y :: delete (length l) (l ++ [x]) = y :: l). by rewrite IH.
Qed.

(** X7.  A member-removed event changes nothing and emits nothing when
    the cache has no such queue or the queue does not list the extension.
    Otherwise the first record of the extension leaves the member list of
    that queue and nothing else moves: the other records keep their order,
    one record fewer has that extension, the queue stays in the map at its
    place even when it is left empty, every other queue is as before;
    [memberRemoved] carries the record taken out and is followed by
    [queuesUpdated]. *)
Theorem member_removed_spec event w :
  let queueName := Event.queue event in
  let E := Event.interface event in
  let w' := handleQueueMemberRemoved event w in
  (E ∉ extensions (members_in queueName w) → w' = w) ∧
  (∀ i m, find_member E (members_in queueName w) = Some (i, m) →
     members_in queueName w' = delete i (members_in queueName w) ∧
     S (length (filter (λ m', Member.extension m' = E) (members_in queueName w')))
     = length (filter (λ m', Member.extension m' = E) (members_in queueName w)) ∧
     Map_keys (queues (this w')) = Map_keys (queues (this w)) ∧
     (∀ k, k ≠ queueName →
        Map_get k (queues (this w')) = Map_get k (queues (this w))) ∧
     emitted w'
     = emitted w ++ [memberRemoved queueName m;
                     queuesUpdated (Map_values (queues (this w')))]).
Proof.
  intros queueName E w'. split; [apply member_removed_absent|].
  intros i m. subst w'. unfold members_in.
  destruct (Map_get queueName (queues (this w))) as [queue|] eqn:Hq; [|done].
  intros Hm.
  destruct (member_removed_found event w queue i m Hq Hm) as (Hqs & Hem & _).
  rewrite Hqs, Map_get_set_eq. cbn [Queue.members Queue.with_members].
  apply find_member_Some in Hm as [Hi Hext].
  split_and!; [done| | | |].
  - by apply (delete_first_count _ _ i m).
  - by eapply Map_set_keys.
  - intros k Hk. by rewrite Map_get_set_ne.
  - by rewrite Hem, Hqs.
Qed.

(** X8.  A member added and then removed leaves the member list as it
    was.  When the queue was in the cache the whole map is as before; when
    it was not, the queue the first event created stays, empty.  The four
    notifications are [memberAdded], [queuesUpdated], [memberRemoved] with
    the same record, and [queuesUpdated]. *)
Theorem member_added_then_removed event w :
  let queueName := Event.queue event in
  let member := member_of_event event in
  let w1 := handleQueueMemberAdded event w in
  let w2 := handleQueueMemberRemoved event w1 in
  Event.interface event ∉ extensions (members_in queueName w) →
  members_in queueName w2 = members_in queueName w ∧
  (is_Some (Map_get queueName (queues (this w))) →
     queues (this w2) = queues (this w)) ∧
  (Map_get queueName (queues (this w)) = None →
     queues (this w2) = queues (this w) ++ [(queueName, default_queue queueName)]) ∧
  emitted w2
  = emitted w ++ [memberAdded queueName member;
                  queuesUpdated (Map_values (queues (this w1)));
                  memberRemoved queueName member;
                  queuesUpdated (Map_values (queues (this w2)))].
Proof.
  intros queueName member w1 w2 Habsent.
  set (queue0 := default (default_queue queueName)
                   (Map_get queueName (queues (this w)))).
  assert (Queue.members queue0 = members_in queueName w) as Hms0.
  { subst queue0. unfold members_in. by destruct (Map_get _ _). }
  assert (queues (this w1)
          = Map_set queueName
              (Queue.with_members (Queue.members queue0 ++ [member]) queue0)
              (queues (this w))) as Hqs1.
  { subst w1 queue0. revert Habsent. unfold members_in, handleQueueMemberAdded.
    fold queueName. fold member.
    change (Member.extension member) with (Event.interface event).
    destruct (Map_get queueName (queues (this w))) as [queue|] eqn:Hq.
    - intros E%find_member_None. by rewrite E.
    - intros _. cbn. by rewrite Map_set_set. }
  destruct (member_added_absent event w Habsent) as [_ Hem1].
  fold w1 queueName member in Hem1.
  assert (find_member (Event.interface event) (Queue.members queue0 ++ [member])
          = Some (length (Queue.members queue0), member)) as Hfind.
  { apply find_member_app_new; [|done]. apply find_member_None. by rewrite Hms0. }
  destruct (member_removed_found event w1
              (Queue.with_members (Queue.members queue0 ++ [member]) queue0)
              (length (Queue.members queue0)) member)
    as (Hqs2 & Hem2 & _).
  { fold queueName. by rewrite Hqs1, Map_get_set_eq. }
  { exact Hfind. }
  fold w2 queueName in Hqs2, Hem2.
  assert (queues (this w2) = Map_set queueName queue0 (queues (this w))) as Hqs.
  { rewrite Hqs2, Hqs1, Map_set_set. cbn [Queue.members Queue.with_members].
    by rewrite delete_snoc, with_members_twice, with_members_same. }
  split_and!.
  - unfold members_in at 1. by rewrite Hqs, Map_get_set_eq.
  - intros [queue Hq]. rewrite Hqs. subst queue0. rewrite Hq. by apply Map_set_same.
  - intros Hq. rewrite Hqs. subst queue0. rewrite Hq. by apply Map_set_new.
  - by rewrite Hem2, Hem1, <- app_assoc.
Qed.

Lemma member_added_then_removed_witness :
  let event := added_event "A" "SIP/300" in
  (Event.interface event ∉ extensions (members_in "A" two_queues)) ∧
  queues (this (handleQueueMemberRemoved event (handleQueueMemberAdded event two_queues)))
  = queues (this two_queues).
Proof.
  assert (Event.interface (added_event "A" "SIP/300")
            ∉ extensions (members_in "A" two_queues)) as Habsent.
  { apply (bool_decide_unpack _). by vm_compute. }
  split; [exact Habsent|].
  apply (member_added_then_removed (added_event "A" "SIP/300") two_queues Habsent).
  by eexists.
Defined.

(** ** What touches the queue map *)

Lemma connect_queues w : queues (this (connect w)) = queues (this w).
Proof.
  unfold connect. destruct (_ || _); [done|]. unfold setTimeout. cbn zeta.
  through. done.
Qed.

Lemma clear_connectionTimeout_queues w :
  queues (this (clear_connectionTimeout w)) = queues (this w).
Proof. unfold clear_connectionTimeout. by destruct (connectionTimeout (this w)). Qed.

Lemma clear_reconnectTimeout_queues w :
  queues (this (clear_reconnectTimeout w)) = queues (this w).
Proof. unfold clear_reconnectTimeout. by destruct (reconnectTimeout (this w)). Qed.

Lemma handleConnection_queues w :
  queues (this (handleConnection w)) = queues (this w).
Proof. unfold handleConnection. through. apply clear_connectionTimeout_queues. Qed.

Lemma handleDisconnection_queues w :
  queues (this (handleDisconnection w)) = queues (this w).
Proof.
  unfold handleDisconnection. cbn zeta.
  destruct (shouldReconnect _); unfold setTimeout; through;
    by rewrite clear_reconnectTimeout_queues, clear_connectionTimeout_queues.
Qed.

Lemma scheduleEventProcessing_queues E eventType event w :
  queues (this (scheduleEventProcessing E eventType event w)) = queues (this w).
Proof.
  unfold scheduleEventProcessing, setTimeout. cbn zeta. through.
  by destruct (_ !! timeout_key E) as [[|]|].
Qed.

Lemma resume_queues c m p w :
  queues (this (resume c m p w)) = queues (this w) ∨
  ∃ r events, m = updateQueues_method ∧ p = Resolved r ∧
    Response.events r = Some events ∧
    queues (this (resume c m p w)) = resync events None [].
Proof.
  destruct m; try by left.
  destruct p as [r|e]; [|by left].
  cbn. destruct (Response.events r) as [events|] eqn:He; [|by left].
  right. by exists r, events.
Qed.

Lemma resume_rejected_queues c m e w :
  queues (this (resume c m (Rejected e) w)) = queues (this w).
Proof. by destruct m. Qed.

Lemma _send_queues m a t w : queues (this (_send m a t w)) = queues (this w).
Proof.
  unfold _send. cbn zeta. destruct (isConnected _).
  - unfold setTimeout. through. done.
  - by rewrite resume_rejected_queues.
Qed.

Lemma send_timed_out_queues c w :
  queues (this (send_timed_out c w)) = queues (this w).
Proof.
  unfold send_timed_out. destruct (find_call c w); [|done].
  by rewrite resume_rejected_queues.
Qed.

Lemma cleanup_queues close_error w :
  queues (this (cleanup close_error w)) = queues (this w).
Proof. by destruct (cleanup_spec close_error w) as (_ & _ & _ & _ & ? & _). Qed.

(** X9.  The queue map changes only when Asterisk reports: on a
    member-added or member-removed event, when the debounce timer of a
    status or pause event fires, and on the reply to the queue-status
    command, which replaces it.  Nothing else touches it: not the loss of
    the connection, not a reconnection, not [cleanup], not the commands
    of the host nor their replies, not the arrival of a status or pause
    event. *)
Theorem queues_change_only_on_reports i w :
  queues (this (dispatch i w)) = queues (this w) ∨
  (∃ event, i = namiEvent event ∧
     (Event.event event = "QueueMemberAdded" ∨
      Event.event event = "QueueMemberRemoved")) ∨
  (∃ id t E eventType pending,
     i = timer id ∧ find_timer id w = Some t ∧
     callback t = ProcessPending E eventType ∧
     pendingEvents (this w) !! E = Some pending) ∨
  (∃ c r f events,
     i = nami_response c (Some r) ∧ find_call c w = Some f ∧
     awaiting f = updateQueues_method ∧
     Response.response r ≠ "Error" ∧ Response.events r = Some events ∧
     queues (this (dispatch i w)) = resync events None []).
Proof.
  destruct i; cbn [dispatch].
  - destruct (find_timer id w) as [t|] eqn:Ht; [|by left].
    unfold fire. cbn zeta. destruct (callback t) as [E ty| | |c] eqn:Hcb.
    + destruct (pendingEvents (this w) !! E) as [pending|] eqn:Hp.
      * right. right. left. by exists id, t, E, ty, pending.
      * left. unfold processPendingEvent. through. by rewrite Hp.
    + left. by rewrite handleDisconnection_queues.
    + left. by rewrite connect_queues.
    + left. by rewrite send_timed_out_queues.
  - left. destruct (listeners _); [apply handleConnection_queues|done].
  - left. destruct (listeners _); [apply handleDisconnection_queues|done].
  - left. destruct (listeners _); [by rewrite handleDisconnection_queues|done].
  - destruct (listeners _); [|by left]. unfold handleEvent.
    destruct (decide (Event.event event = "FullyBooted")).
    { left. apply _send_queues. }
    destruct (decide (Event.event event = "QueueMemberStatus")).
    { left. apply scheduleEventProcessing_queues. }
    destruct (decide (Event.event event = "QueueMemberAdded")).
    { right. left. exists event. by split; [|left]. }
    destruct (decide (Event.event event = "QueueMemberRemoved")).
    { right. left. exists event. by split; [|right]. }
    destruct (decide (Event.event event = "QueueMemberPause")); [|by left].
    left. apply scheduleEventProcessing_queues.
  - left. destruct (listeners _); [by rewrite handleDisconnection_queues|done].
  - left. case_decide; [by rewrite handleDisconnection_queues|done].
  - destruct (routing _); [|by left]. unfold send_responded.
    destruct (find_call c w) as [f|] eqn:Hf; [|by left].
    destruct (resume_queues c (awaiting f) (send_callback (action f) response)
                (forget_call c (clearTimeout (timeoutId f) w)))
      as [Hsame|(r & events & Hm & Hp & He & Hqs)]; [by left|].
    right. right. right. unfold send_callback in Hp.
    destruct response as [r'|]; [|done]. case_decide; [done|].
    injection Hp as ->. by exists c, r, f, events.
  - left. case_decide; [apply handleDisconnection_queues|done].
  - left. apply cleanup_queues.
  - left. apply connect_queues.
  - left. apply cleanup_queues.
  - left. apply _send_queues.
  - left. apply _send_queues.
  - left. apply _send_queues.
  - left. apply _send_queues.
  - left. apply _send_queues.
Qed.

(** An invariant of the queue map that the four operations writing it
    keep is kept by every input. *)
Lemma dispatch_queues (P : JsMap Queue.t → Prop) :
  (∀ event w, P (queues (this w)) →
     P (queues (this (handleQueueMemberAdded event w)))) →
  (∀ event w, P (queues (this w)) →
     P (queues (this (handleQueueMemberRemoved event w)))) →
  (∀ eventType event names qs, P qs → P (apply_to_queues eventType event names qs)) →
  (∀ events, P (resync events None [])) →
  ∀ i w, P (queues (this w)) → P (queues (this (dispatch i w))).
Proof.
  intros Hadd Hrem Happ Hsync i w Hw. destruct i; cbn [dispatch].
  - destruct (find_timer id w) as [t|]; [|done].
    unfold fire. cbn zeta. set (w1 := on_loop _ w).
    destruct (callback t) as [E ty| | |c].
    + destruct (pendingEvents (this w1) !! E) as [[event names|id']|] eqn:Hp.
      * destruct (processPendingEvent_event E ty event names w1 Hp) as (-> & _).
        by apply Happ.
      * unfold processPendingEvent. by rewrite Hp.
      * unfold processPendingEvent. by rewrite Hp.
    + by rewrite handleDisconnection_queues.
    + by rewrite connect_queues.
    + by rewrite send_timed_out_queues.
  - destruct (listeners _); [by rewrite handleConnection_queues|done].
  - destruct (listeners _); [by rewrite handleDisconnection_queues|done].
  - destruct (listeners _); [by rewrite handleDisconnection_queues|done].
  - destruct (listeners _); [|done]. unfold handleEvent. repeat case_decide; try done.
    + unfold updateQueues. by rewrite _send_queues.
    + by rewrite scheduleEventProcessing_queues.
    + by apply Hadd.
    + by apply Hrem.
    + by rewrite scheduleEventProcessing_queues.
  - destruct (listeners _); [by rewrite handleDisconnection_queues|done].
  - case_decide; [by rewrite handleDisconnection_queues|done].
  - destruct (routing _); [|done]. unfold send_responded.
    destruct (find_call c w) as [f|]; [|done].
    destruct (resume_queues c (awaiting f) (send_callback (action f) response)
                (forget_call c (clearTimeout (timeoutId f) w)))
      as [->|(r & events & _ & _ & _ & ->)]; done.
  - case_decide; [by rewrite handleDisconnection_queues|done].
  - by rewrite cleanup_queues.
  - by rewrite connect_queues.
  - by rewrite cleanup_queues.
  - unfold updateQueues. by rewrite _send_queues.
  - unfold pauseMember. by rewrite _send_queues.
  - unfold unpauseMember. by rewrite _send_queues.
  - unfold addMemberToQueue. by rewrite _send_queues.
  - unfold removeMemberFromQueue. by rewrite _send_queues.
Qed.

Lemma well_keyed_set k q qs :
  well_keyed qs → Queue.name q = k → well_keyed (Map_set k q qs).
Proof.
  intros [Hnd Hn] Hq. split; [by apply Map_set_NoDup|].
  intros k' q' [[-> ->]|Hin]%Map_set_elem; [done|by apply Hn].
Qed.

Lemma well_keyed_members k q ms qs :
  well_keyed qs → Map_get k qs = Some q →
  well_keyed (Map_set k (Queue.with_members ms q) qs).
Proof.
  intros Hwk Hq. apply well_keyed_set; [done|].
  destruct Hwk as [_ Hn]. by apply (Hn k q), Map_get_elem.
Qed.

Lemma well_keyed_added event w :
  well_keyed (queues (this w)) →
  well_keyed (queues (this (handleQueueMemberAdded event w))).
Proof.
  intros Hwk. unfold handleQueueMemberAdded.
  destruct (Map_get _ _) as [queue|] eqn:Hq; cbn zeta.
  - destruct (find_member _ _); [done|]. through. by apply well_keyed_members.
  - cbn. rewrite Map_set_set. by apply well_keyed_set.
Qed.

Lemma well_keyed_removed event w :
  well_keyed (queues (this w)) →
  well_keyed (queues (this (handleQueueMemberRemoved event w))).
Proof.
  intros Hwk. unfold handleQueueMemberRemoved.
  destruct (Map_get _ _) as [queue|] eqn:Hq; [|done].
  destruct (find_member _ _) as [[i m]|]; [|done].
  through. by apply well_keyed_members.
Qed.

Lemma well_keyed_applied eventType event names qs :
  well_keyed qs → well_keyed (apply_to_queues eventType event names qs).
Proof.
  unfold apply_to_queues. revert qs.
  induction names as [|[n|] names IH]; intros qs Hwk; cbn [foldl]; [done| |by apply IH].
  apply IH. unfold apply_to_queue.
  destruct (Map_get n qs) as [queue|] eqn:Hq; [|done].
  destruct (find_member _ _) as [[i old]|]; [|done].
  by apply well_keyed_members.
Qed.

Lemma well_keyed_resync events currentQueue qs :
  well_keyed qs → well_keyed (resync events currentQueue qs).
Proof.
  revert currentQueue qs.
  induction events as [|event events IH]; intros currentQueue qs Hwk; [done|].
  cbn [resync]. case_decide; [by apply IH, well_keyed_set|].
  case_decide; [|by apply IH]. destruct currentQueue as [n|]; [|by apply IH].
  apply IH. unfold push_member.
  destruct (Map_get n qs) as [queue|] eqn:Hq; [|done].
  by apply well_keyed_members.
Qed.

Lemma well_keyed_nil : well_keyed [].
Proof. split; [apply NoDup_nil_2|]. by intros k q ?%elem_of_nil. Qed.

Lemma dispatch_well_keyed i w :
  well_keyed (queues (this w)) → well_keyed (queues (this (dispatch i w))).
Proof.
  apply (dispatch_queues well_keyed).
  - apply well_keyed_added.
  - apply well_keyed_removed.
  - apply well_keyed_applied.
  - intros events. apply well_keyed_resync, well_keyed_nil.
Qed.

Lemma run_well_keyed history w :
  well_keyed (queues (this w)) → well_keyed (queues (this (run history w))).
Proof.
  revert w. induction history as [|i history IH]; intros w Hw; [done|].
  cbn [run foldl]. by apply IH, dispatch_well_keyed.
Qed.

(** X10.  Whatever happens to a cache from its creation on, the queue map
    holds every queue under its own name, and each name once: the [name]
    of a queue is the key it is read by, also after a resync whose reply
    repeats a queue. *)
Theorem reachable_well_keyed history :
  let w := run history new_AsteriskCache in
  NoDup (Queue.name <$> getQueues w) ∧
  (∀ queueName queue, getQueue queueName w = Some queue →
     Queue.name queue = queueName) ∧
  (∀ queue, queue ∈ getQueues w → getQueue (Queue.name queue) w = Some queue).
Proof.
  intros w.
  assert (well_keyed (queues (this w))) as [Hnd Hn].
  { apply run_well_keyed, well_keyed_nil. }
  split_and!.
  - unfold getQueues, Map_values.
    replace (Queue.name <$> (queues (this w)).*2) with (Map_keys (queues (this w)));
      [done|].
    unfold Map_keys. revert Hn. generalize (queues (this w)). intros qs Hn.
    induction qs as [|[k q] qs IH]; [done|].
    rewrite !fmap_cons. cbn [fst snd]. f_equal.
    + symmetry. apply Hn, list_elem_of_here.
    + apply IH. intros k' q' Hin. by apply Hn, list_elem_of_further.
  - intros k q Hq. by apply Hn, Map_get_elem.
  - unfold getQueues, getQueue, Map_values.
    intros q ([k q'] & -> & Hin)%list_elem_of_fmap. cbn [snd].
    rewrite (Hn k q' Hin). by apply Map_elem_get.
Qed.

(** ** Timers of the connection controller and of the debounce *)

Lemma same_id_same_timer (l : list Timer) t1 t2 :
  NoDup (timer_id <$> l) → t1 ∈ l → t2 ∈ l → timer_id t1 = timer_id t2 → t1 = t2.
Proof.
  intros Hnd [i Hi]%list_elem_of_lookup [j Hj]%list_elem_of_lookup Heq.
  assert (i = j) as ->.
  { eapply NoDup_lookup; [exact Hnd|..]; rewrite list_lookup_fmap.
    - by rewrite Hi.
    - rewrite Hj. cbn. by rewrite Heq. }
  congruence.
Qed.

Lemma tracked_one_of_each w :
  tracked w →
  (∀ t1 t2, t1 ∈ timers (loop w) → t2 ∈ timers (loop w) →
     callback t1 = ConnectTimedOut → callback t2 = ConnectTimedOut → t1 = t2) ∧
  (∀ t1 t2, t1 ∈ timers (loop w) → t2 ∈ timers (loop w) →
     callback t1 = Reconnect → callback t2 = Reconnect → t1 = t2) ∧
  (∀ t1 t2, t1 ∈ timers (loop w) → t2 ∈ timers (loop w) →
     callback t1 = Reconnect → callback t2 ≠ ConnectTimedOut) ∧
  (∀ t1 t2 E eventType1 eventType2,
     t1 ∈ timers (loop w) → t2 ∈ timers (loop w) →
     callback t1 = ProcessPending E eventType1 →
     callback t2 = ProcessPending E eventType2 → t1 = t2).
Proof.
  intros (_ & Hnd & HD & HR & HC & HX). split_and!.
  - intros t1 t2 H1 H2 Hc1 Hc2. apply (same_id_same_timer _ _ _ Hnd H1 H2).
    pose proof (HC t1 H1 Hc1). pose proof (HC t2 H2 Hc2). congruence.
  - intros t1 t2 H1 H2 Hc1 Hc2. apply (same_id_same_timer _ _ _ Hnd H1 H2).
    pose proof (HR t1 H1 Hc1). pose proof (HR t2 H2 Hc2). congruence.
  - intros t1 t2 H1 H2 Hc1 Hc2. exact (HX t1 t2 H1 H2 Hc1 Hc2).
  - intros t1 t2 E ty1 ty2 H1 H2 Hc1 Hc2.
    apply (same_id_same_timer _ _ _ Hnd H1 H2).
    destruct (HD t1 E ty1 H1 Hc1) as [_ Ha]. destruct (HD t2 E ty2 H2 Hc2) as [_ Hb].
    congruence.
Qed.

(** X11.  Along a regular history the cache never has two connect-timeout
    timers armed, nor two reconnect timers, nor a reconnect timer together
    with a connect-timeout timer, nor two debounce timers for one
    extension: signals of disconnection that come in a row do not stack
    reconnections, and events of one extension that come in a row leave
    one timer. *)
Theorem one_timer_of_each_kind history :
  regular history new_AsteriskCache →
  let w := run history new_AsteriskCache in
  (∀ t1 t2, t1 ∈ timers (loop w) → t2 ∈ timers (loop w) →
     callback t1 = ConnectTimedOut → callback t2 = ConnectTimedOut → t1 = t2) ∧
  (∀ t1 t2, t1 ∈ timers (loop w) → t2 ∈ timers (loop w) →
     callback t1 = Reconnect → callback t2 = Reconnect → t1 = t2) ∧
  (∀ t1 t2, t1 ∈ timers (loop w) → t2 ∈ timers (loop w) →
     callback t1 = Reconnect → callback t2 ≠ ConnectTimedOut) ∧
  (∀ t1 t2 E eventType1 eventType2,
     t1 ∈ timers (loop w) → t2 ∈ timers (loop w) →
     callback t1 = ProcessPending E eventType1 →
     callback t2 = ProcessPending E eventType2 → t1 = t2).
Proof. intros Hreg w. by apply tracked_one_of_each, run_tracked; [apply tracked_new|]. Qed.

Lemma closing_twice_regular : regular closing_twice new_AsteriskCache.
Proof.
  unfold closing_twice. cbn [regular regular_input]. split_and!; try done.
  by intros t Ht%elem_of_nil.
Defined.

Lemma one_timer_of_each_kind_witness :
  regular closing_twice new_AsteriskCache ∧
  let w := run closing_twice new_AsteriskCache in
  (∀ t1 t2, t1 ∈ timers (loop w) → t2 ∈ timers (loop w) →
     callback t1 = ConnectTimedOut → callback t2 = ConnectTimedOut → t1 = t2) ∧
  (∀ t1 t2, t1 ∈ timers (loop w) → t2 ∈ timers (loop w) →
     callback t1 = Reconnect → callback t2 = Reconnect → t1 = t2) ∧
  (∀ t1 t2, t1 ∈ timers (loop w) → t2 ∈ timers (loop w) →
     callback t1 = Reconnect → callback t2 ≠ ConnectTimedOut) ∧
  (∀ t1 t2 E eventType1 eventType2,
     t1 ∈ timers (loop w) → t2 ∈ timers (loop w) →
     callback t1 = ProcessPending E eventType1 →
     callback t2 = ProcessPending E eventType2 → t1 = t2).
Proof.
  split; [exact closing_twice_regular|].
  exact (one_timer_of_each_kind closing_twice closing_twice_regular).
Defined.

Lemma handleDisconnection_shape w :
  let w' := handleDisconnection w in
  isConnected (this w') = false ∧
  connectionTimeout (this w') = None ∧
  now (loop w') = now (loop w) ∧
  (shouldReconnect (this w) = true →
     emitted w' = emitted w ++ [disconnected; reconnecting (reconnectInterval (this w))] ∧
     ∃ old,
       timers (loop w')
       = old ++ [{| timer_id := next_timer (loop w);
                    due := now (loop w) + timer_delay (reconnectInterval (this w));
                    callback := Reconnect |}] ∧
       reconnectTimeout (this w') = Some (next_timer (loop w))) ∧
  (shouldReconnect (this w) = false →
     emitted w' = emitted w ++ [disconnected] ∧ reconnectTimeout (this w') = None).
Proof.
  unfold handleDisconnection, clear_connectionTimeout, clear_reconnectTimeout,
    setTimeout, clearTimeout.
  destruct (connectionTimeout (this w)) as [cid|] eqn:Hc; through;
    (destruct (reconnectTimeout (this w)) as [rid|] eqn:Hr; through;
     rewrite ?Hc, ?Hr;
     (destruct (shouldReconnect (this w)) eqn:Hs; through;
      rewrite ?Hc, ?Hr;
      (split_and!; try done; intros Heq; try discriminate Heq;
       rewrite <- ?app_assoc; (split; [done|]); try done;
       eexists; split; reflexivity))).
Qed.

(** X12.  However the connection is lost, [handleDisconnection] leaves
    the cache disconnected with no connect-timeout timer armed and the
    queue map as it was.  When reconnection is on it emits [disconnected]
    and [reconnecting] and leaves exactly one reconnect timer, due one
    reconnect interval from now, whatever was scheduled before; when
    reconnection is off it emits [disconnected] alone and leaves no
    reconnect timer. *)
Theorem disconnection_schedules_one_reconnection w :
  tracked w →
  let w' := handleDisconnection w in
  isConnected (this w') = false ∧
  queues (this w') = queues (this w) ∧
  (∀ t, t ∈ timers (loop w') → callback t ≠ ConnectTimedOut) ∧
  (shouldReconnect (this w) = true →
     emitted w'
     = emitted w ++ [disconnected; reconnecting (reconnectInterval (this w))] ∧
     ∃ t, t ∈ timers (loop w') ∧ callback t = Reconnect ∧
          due t = (now (loop w) + timer_delay (reconnectInterval (this w)))%Z ∧
          reconnectTimeout (this w') = Some (timer_id t) ∧
          ∀ t', t' ∈ timers (loop w') → callback t' = Reconnect → t' = t) ∧
  (shouldReconnect (this w) = false →
     emitted w' = emitted w ++ [disconnected] ∧
     ∀ t, t ∈ timers (loop w') → callback t ≠ Reconnect).
Proof.
  intros Hw w'.
  pose proof (tracked_handleDisconnection w Hw) as Hw'. fold w' in Hw'.
  destruct (tracked_one_of_each w' Hw') as (_ & Hone & _).
  destruct Hw' as (_ & _ & _ & HR & HC & _).
  destruct (handleDisconnection_shape w) as (Hic & Hct & _ & Hon & Hoff).
  fold w' in Hic, Hct, Hon, Hoff.
  split_and!; [done|apply handleDisconnection_queues| | |].
  - intros t Ht Hcb. specialize (HC t Ht Hcb). congruence.
  - intros Hs. destruct (Hon Hs) as (Hem & old & Htm & Hrt). split; [done|].
    eexists. split_and!.
    + rewrite Htm. apply elem_of_app. right. apply list_elem_of_here.
    + done.
    + done.
    + done.
    + intros t' Ht' Hcb. apply Hone; try done.
      rewrite Htm. apply elem_of_app. right. apply list_elem_of_here.
  - intros Hs. destruct (Hoff Hs) as (Hem & Hrt). split; [done|].
    intros t Ht Hcb. specialize (HR t Ht Hcb). congruence.
Qed.

Lemma disconnection_schedules_one_reconnection_witness :
  let w := run closing_twice new_AsteriskCache in
  tracked w ∧
  ∀ t, t ∈ timers (loop (handleDisconnection w)) → callback t ≠ ConnectTimedOut.
Proof.
  pose proof (reachable_tracked closing_twice closing_twice_regular) as Hw.
  split; [exact Hw|].
  apply (disconnection_schedules_one_reconnection _ Hw).
Defined.




(** ** A server that does not answer *)







(** ** The map a resync builds *)

Lemma push_member_keys n member qs : Map_keys (push_member n member qs) = Map_keys qs.
Proof.
  unfold push_member. destruct (Map_get n qs) eqn:Hn; [|done].
  by eapply Map_set_keys.
Qed.

Lemma filter_filter_and {A} (P Q : A → Prop)
    `{!∀ x, Decision (P x)} `{!∀ x, Decision (Q x)} (l : list A) :
  filter P (filter Q l) = filter (λ x, P x ∧ Q x) l.
Proof.
  induction l as [|x l IH]; [done|]. rewrite !filter_cons.
  destruct (decide (Q x)) as [HQ|HQ].
  - rewrite filter_cons. destruct (decide (P x)) as [HP|HP].
    + rewrite decide_True by done. by rewrite IH.
    + rewrite decide_False by (by intros [? ?]). done.
  - rewrite decide_False by (by intros [? ?]). done.
Qed.

Lemma resync_keys events currentQueue qs :
  Map_keys (resync events currentQueue qs)
  = Map_keys qs
    ++ filter (λ k, k ∉ Map_keys qs) (first_occurrences (defined_queues events)).
Proof.
  revert currentQueue qs.
  induction events as [|event events IH]; intros currentQueue qs.
  - cbn. by rewrite app_nil_r.
  - cbn [resync]. unfold defined_queues. rewrite filter_cons.
    fold (defined_queues events).
    destruct (decide (Entry.event event = "QueueParams")) as [Hp|Hp].
    + rewrite IH, fmap_cons. cbn [first_occurrences]. rewrite filter_cons.
      destruct (Map_get (Entry.queue event) qs) as [q0|] eqn:Hq.
      * rewrite (Map_set_keys _ _ _ _ Hq).
        rewrite decide_False.
        2:{ intros Hout. apply Map_get_None in Hout. congruence. }
        f_equal. rewrite filter_filter_and. apply list_filter_iff.
        intros k. split; [|by intros [? _]]. intros Hk. split; [done|].
        intros ->. apply Map_get_None in Hk. congruence.
      * rewrite (Map_set_new _ _ _ Hq). apply Map_get_None in Hq.
        rewrite decide_True by done.
        assert (Map_keys (qs ++ [(Entry.queue event, queue_of_entry event)])
                = Map_keys qs ++ [Entry.queue event]) as ->
          by (unfold Map_keys; by rewrite fmap_app).
        rewrite <- app_assoc. cbn [app]. do 2 f_equal.
        rewrite filter_filter_and. apply list_filter_iff.
        intros k. rewrite elem_of_app, list_elem_of_singleton. tauto.
    + case_decide; [destruct currentQueue|]; rewrite IH, ?push_member_keys; done.
Qed.

Lemma resync_orphans orphans rest qs :
  Forall (λ event, Entry.event event ≠ "QueueParams") orphans →
  resync (orphans ++ rest) None qs = resync rest None qs.
Proof.
  induction 1 as [|event orphans Hp _ IH]; [done|].
  cbn [app resync]. rewrite decide_False by done. by case_decide.
Qed.

(** X15.  The map a resync builds has one queue for every queue name the
    reply defines with a [QueueParams] element, in the order in which the
    names first occur, and no other.  What precedes the first
    [QueueParams] element is dropped: a member listed before any queue
    belongs to none. *)
Theorem resync_defines_queues events :
  Map_keys (resync events None []) = first_occurrences (defined_queues events) ∧
  ∀ orphans, Forall (λ event, Entry.event event ≠ "QueueParams") orphans →
    resync (orphans ++ events) None [] = resync events None [].
Proof.
  split.
  - rewrite resync_keys. cbn [Map_keys fmap list_fmap app].
    apply filter_all, Forall_forall. by intros k _ ?%elem_of_nil.
  - intros orphans. apply resync_orphans.
Qed.

Lemma resync_app_ex front back currentQueue qs :
  ∃ currentQueue' qs',
    resync (front ++ back) currentQueue qs = resync back currentQueue' qs'.
Proof.
  revert currentQueue qs.
  induction front as [|event front IH]; intros currentQueue qs; [by eexists _, _|].
  cbn [app resync]. case_decide; [apply IH|].
  case_decide; [destruct currentQueue|]; apply IH.
Qed.

Lemma resync_block block rest n queue qs :
  Forall (λ event, Entry.event event ≠ "QueueParams") block →
  Map_get n qs = Some queue →
  ∃ qs',
    resync (block ++ rest) (Some n) qs = resync rest (Some n) qs' ∧
    Map_get n qs'
    = Some (Queue.with_members
              (Queue.members queue
                 ++ (member_of_entry
                       <$> filter (λ event, Entry.event event = "QueueMember") block))
              queue).
Proof.
  intros Hb. revert qs queue.
  induction Hb as [|event block Hp _ IH]; intros qs queue Hq.
  - exists qs. split; [done|]. cbn. by rewrite app_nil_r, with_members_same.
  - cbn [app resync]. rewrite decide_False by done. rewrite filter_cons.
    destruct (decide (Entry.event event = "QueueMember")) as [Hm|Hm].
    + unfold push_member at 1. rewrite Hq.
      destruct (IH (Map_set n (Queue.with_members
                                 (Queue.members queue ++ [member_of_entry event]) queue)
                      qs)
                  (Queue.with_members
                     (Queue.members queue ++ [member_of_entry event]) queue))
        as (qs' & Hrun & Hget); [apply Map_get_set_eq|].
      exists qs'. split; [done|]. rewrite Hget. cbn [Queue.members Queue.with_members].
      by rewrite with_members_twice, fmap_cons, <- app_assoc.
    + by apply IH.
Qed.

Lemma resync_get_untouched events currentQueue k qs :
  k ∉ defined_queues events → currentQueue ≠ Some k →
  Map_get k (resync events currentQueue qs) = Map_get k qs.
Proof.
  revert currentQueue qs.
  induction events as [|event events IH]; intros currentQueue qs Hk Hc; [done|].
  cbn [resync]. unfold defined_queues in Hk. rewrite filter_cons in Hk.
  destruct (decide (Entry.event event = "QueueParams")) as [Hp|Hp].
  - rewrite fmap_cons in Hk. apply not_elem_of_cons in Hk as [Hne Hk].
    rewrite IH; [|done|congruence]. by rewrite Map_get_set_ne.
  - case_decide; [|by apply IH]. destruct currentQueue as [n|]; [|by apply IH].
    rewrite IH by done. unfold push_member.
    destruct (Map_get n qs); [|done]. rewrite Map_get_set_ne; [done|congruence].
Qed.

(** X16.  In the map a resync builds, the members of a queue are the
    [QueueMember] elements that follow the last [QueueParams] element of
    its name, up to the next [QueueParams] element, in their order; the
    other fields are those of that [QueueParams] element.  An earlier
    definition of the same name, members included, is replaced, and
    elements of other kinds are skipped. *)
Theorem resync_members_follow_their_queue front params block rest currentQueue qs :
  Entry.event params = "QueueParams" →
  Forall (λ event, Entry.event event ≠ "QueueParams") block →
  Entry.queue params ∉ defined_queues rest →
  (∀ event, head rest = Some event → Entry.event event = "QueueParams") →
  Map_get (Entry.queue params)
    (resync (front ++ params :: block ++ rest) currentQueue qs)
  = Some (Queue.with_members
            (member_of_entry
               <$> filter (λ event, Entry.event event = "QueueMember") block)
            (queue_of_entry params)).
Proof.
  intros Hp Hb Hout Hhead.
  destruct (resync_app_ex front (params :: block ++ rest) currentQueue qs)
    as (cq & qs0 & ->).
  cbn [resync]. rewrite decide_True by done.
  destruct (resync_block block rest (Entry.queue params) (queue_of_entry params)
              (Map_set (Entry.queue params) (queue_of_entry params) qs0) Hb)
    as (qs1 & -> & Hget); [apply Map_get_set_eq|].
  cbn [Queue.members queue_of_entry app] in Hget.
  destruct rest as [|event rest]; [done|].
  specialize (Hhead event eq_refl). cbn [resync]. rewrite decide_True by done.
  unfold defined_queues in Hout. rewrite filter_cons_True, fmap_cons in Hout by done.
  apply not_elem_of_cons in Hout as [Hne Hout].
  rewrite resync_get_untouched; [|done|congruence].
  by rewrite Map_get_set_ne.
Qed.

Lemma resync_members_follow_their_queue_witness :
  Map_get "A" (resync boot_entries None [])
  = Some (Queue.with_members
            (member_of_entry
               <$> filter (λ event, Entry.event event = "QueueMember")
                     [member_entry "A" "SIP/100"; member_entry "A" "SIP/200"])
            (queue_of_entry (params_entry "A"))).
Proof.
  apply (resync_members_follow_their_queue [] (params_entry "A")
           [member_entry "A" "SIP/100"; member_entry "A" "SIP/200"]
           [params_entry "B"; member_entry "B" "SIP/100"] None []).
  - reflexivity.
  - apply (bool_decide_unpack _). by vm_compute.
  - apply (bool_decide_unpack _). by vm_compute.
  - by intros event [= <-].
Defined.

(** ** What a coalesced event leaves alone *)

(** X17.  Applying a coalesced event never adds or removes a queue or a
    member and never moves one: the queue names and their order stay, and
    in every queue the extensions stay as they are, in the same order.  A
    status event that finds the member replaces the whole record by the
    one read from the event, at the same index, and leaves the other
    records of the queue as they are. *)
Theorem pending_event_keeps_the_lists extension eventType w :
  let w' := processPendingEvent extension eventType w in
  Map_keys (queues (this w')) = Map_keys (queues (this w)) ∧
  (∀ k, extensions (members_in k w') = extensions (members_in k w)) ∧
  (∀ event names k i old,
     pendingEvents (this w) !! extension = Some (PendingEvent event names) →
     eventType = QueueMemberStatus → Some k ∈ names →
     find_member (Event.interface event) (members_in k w) = Some (i, old) →
     members_in k w' !! i = Some (member_of_event event) ∧
     ∀ j, j ≠ i → members_in k w' !! j = members_in k w !! j).
Proof.
  intros w'. subst w'.
  destruct (pendingEvents (this w) !! extension) as [[event names|id]|] eqn:Hp.
  - destruct (processPendingEvent_event _ eventType _ _ _ Hp) as (Hqs & _).
    split_and!.
    + rewrite Hqs. apply apply_to_queues_keys.
    + intros k. rewrite (members_in_processed _ _ _ _ _ _ Hp).
      case_decide; [apply updated_members_extensions|done].
    + intros event' names' k i old [= <- <-] -> Hk Hfind.
      rewrite (members_in_processed _ _ _ _ _ _ Hp), decide_True by done.
      unfold updated_members. rewrite Hfind.
      apply find_member_Some in Hfind as [Hi _]. split.
      * apply list_lookup_insert_eq. by eapply lookup_lt_Some.
      * intros j Hj. by apply list_lookup_insert_ne.
  - unfold processPendingEvent. rewrite Hp. split_and!; [done..|]. by intros.
  - unfold processPendingEvent. rewrite Hp. split_and!; [done..|]. by intros.
Qed.

(** ** Handles and the timers they stand for *)

(** One step of the cache: at most one timer is armed, with callback
    [cb], and a handle is new only if it is the handle of that timer. *)
Lemma sound_step (cb : Callback) (w r : World) :
  sound_handles w →
  (next_timer (loop w) ≤ next_timer (loop r))%nat →
  Forall (λ f, call f < next_call (loop r)) (inflight (loop r)) →
  (∀ t, t ∈ timers (loop r) →
     t ∈ timers (loop w) ∨
     (timer_id t = next_timer (loop w) ∧
      (next_timer (loop w) < next_timer (loop r))%nat ∧ callback t = cb)) →
  (∀ key id, pendingEvents (this r) !! key = Some (TimerHandle id) →
     pendingEvents (this w) !! key = Some (TimerHandle id) ∨
     (id = next_timer (loop w) ∧ (next_timer (loop w) < next_timer (loop r))%nat ∧
      ∃ E eventType, key = timeout_key E ∧ cb = ProcessPending E eventType)) →
  (∀ id, connectionTimeout (this r) = Some id →
     connectionTimeout (this w) = Some id ∨
     (id = next_timer (loop w) ∧ (next_timer (loop w) < next_timer (loop r))%nat ∧
      cb = ConnectTimedOut)) →
  (∀ id, reconnectTimeout (this r) = Some id →
     reconnectTimeout (this w) = Some id ∨
     (id = next_timer (loop w) ∧ (next_timer (loop w) < next_timer (loop r))%nat ∧
      cb = Reconnect)) →
  sound_handles r.
Proof.
  intros ([Hft Hfc] & HT & HC & HR) Hn Hfc' Htm HT' HC' HR'.
  assert (∀ t, t ∈ timers (loop w) → timer_id t < next_timer (loop w)) as Hold
    by (by apply Forall_forall).
  split_and!.
  - split; [|done]. apply Forall_forall. intros t [Ht|(Hid & Hlt & _)]%Htm.
    + specialize (Hold t Ht). lia.
    + lia.
  - intros key id [Hk|(-> & Hlt & E & ty & -> & ->)]%HT'.
    + destruct (HT key id Hk) as [Hid Hcb]. split; [lia|].
      intros t [Ht|(Hid' & _)]%Htm Heq; [by apply Hcb|lia].
    + split; [done|]. intros t [Ht|(_ & _ & Hcb)]%Htm Heq.
      * specialize (Hold t Ht). lia.
      * by exists E, ty.
  - intros id [Hk|(-> & Hlt & ->)]%HC'.
    + destruct (HC id Hk) as [Hid Hcb]. split; [lia|].
      intros t [Ht|(Hid' & _)]%Htm Heq; [by apply Hcb|lia].
    + split; [done|]. intros t [Ht|(_ & _ & Hcb)]%Htm Heq; [|done].
      specialize (Hold t Ht). lia.
  - intros id [Hk|(-> & Hlt & ->)]%HR'.
    + destruct (HR id Hk) as [Hid Hcb]. split; [lia|].
      intros t [Ht|(Hid' & _)]%Htm Heq; [by apply Hcb|lia].
    + split; [done|]. intros t [Ht|(_ & _ & Hcb)]%Htm Heq; [|done].
      specialize (Hold t Ht). lia.
Qed.

(** A step that arms nothing and stores no handle. *)
Lemma sound_quiet (w r : World) :
  sound_handles w →
  next_timer (loop r) = next_timer (loop w) →
  Forall (λ f, call f < next_call (loop r)) (inflight (loop r)) →
  (∀ t, t ∈ timers (loop r) → t ∈ timers (loop w)) →
  (∀ key id, pendingEvents (this r) !! key = Some (TimerHandle id) →
     pendingEvents (this w) !! key = Some (TimerHandle id)) →
  (∀ id, connectionTimeout (this r) = Some id → connectionTimeout (this w) = Some id) →
  (∀ id, reconnectTimeout (this r) = Some id → reconnectTimeout (this w) = Some id) →
  sound_handles r.
Proof.
  intros Hw Hn Hfc Htm HT HC HR.
  apply (sound_step ConnectTimedOut w r); try done; [lia|naive_solver..].
Qed.

Lemma sound_kept w r : handles_kept w r → sound_handles w → sound_handles r.
Proof.
  intros (Hp & Hc & Hr & Hn & Hi & Hnc & Hsub) Hw.
  apply (sound_quiet w r); try done.
  - rewrite Hi, Hnc. apply Hw.
  - intros t Ht. by eapply elem_of_sublist.
  - by rewrite Hp.
  - by rewrite Hc.
  - by rewrite Hr.
Qed.

Lemma sound_new : sound_handles new_AsteriskCache.
Proof.
  split_and!; [split; apply Forall_nil_2|done..].
Qed.

Lemma sound_clear_connectionTimeout w :
  sound_handles w → sound_handles (clear_connectionTimeout w).
Proof.
  intros Hw. unfold clear_connectionTimeout.
  destruct (connectionTimeout (this w)) as [cid|]; [|done].
  apply (sound_quiet w); unfold clearTimeout; through; try done; [apply Hw|].
  by intros t [_ ?]%list_elem_of_filter.
Qed.

Lemma sound_clear_reconnectTimeout w :
  sound_handles w → sound_handles (clear_reconnectTimeout w).
Proof.
  intros Hw. unfold clear_reconnectTimeout.
  destruct (reconnectTimeout (this w)) as [rid|]; [|done].
  apply (sound_quiet w); unfold clearTimeout; through; try done; [apply Hw|].
  by intros t [_ ?]%list_elem_of_filter.
Qed.

Lemma sound_forget_call c w : sound_handles w → sound_handles (forget_call c w).
Proof.
  intros Hw. apply (sound_quiet w); unfold forget_call; through; try done.
  apply Forall_forall. intros f [_ Hf]%list_elem_of_filter.
  destruct Hw as ([_ Hfc] & _). by apply (proj1 (Forall_forall _ _) Hfc).
Qed.

Lemma sound_send m a ms w : sound_handles w → sound_handles (_send m a ms w).
Proof.
  intros Hw. unfold _send. cbn zeta.
  assert (sound_handles (on_loop (set_next_call (S (next_call (loop w)))) w)) as Hw0.
  { apply (sound_quiet w); through; try done.
    destruct Hw as ([_ Hfc] & _). eapply Forall_impl; [exact Hfc|]. cbn. lia. }
  set (w0 := on_loop _ w) in *.
  destruct (isConnected (this w0)).
  - apply (sound_step (SendTimedOut (next_call (loop w))) w0);
      unfold setTimeout; through; try done.
    + lia.
    + apply Forall_app. split; [apply Hw0|]. apply Forall_singleton. cbn. lia.
    + intros t [Ht| ->%list_elem_of_singleton]%elem_of_app; [by left|right].
      cbn. split_and!; [done|lia|done].
    + by left.
    + by left.
    + by left.
  - eapply sound_kept; [apply resume_kept|done].
Qed.

Lemma sound_schedule E eventType event w :
  sound_handles w → sound_handles (scheduleEventProcessing E eventType event w).
Proof.
  intros Hw. unfold scheduleEventProcessing, setTimeout, clearTimeout. cbn zeta.
  apply (sound_step (ProcessPending E eventType) w); try done.
  - destruct (_ !! timeout_key E) as [[|]|]; through; lia.
  - destruct (_ !! timeout_key E) as [[|]|]; through; apply Hw.
  - intros t.
    destruct (_ !! timeout_key E) as [[|]|]; through;
      (intros [Ht| ->%list_elem_of_singleton]%elem_of_app;
       [left; try (by apply list_elem_of_filter in Ht as [_ ?]); done
       |right; cbn; split_and!; [done|lia|done]]).
  - intros key id.
    assert (pendingEvents
              (this (on_this
                       (λ c, set_pendingEvents
                               (<[timeout_key E := TimerHandle (next_timer (loop w))]>
                                  (<[E := PendingEvent event
                                            match pendingEvents (this w) !! E with
                                            | Some existingEvent =>
                                                merged_queues existingEvent (Event.queue event)
                                            | None => [Some (Event.queue event)]
                                            end]> (pendingEvents (this w)))) c) w))
              !! key = Some (TimerHandle id) →
            pendingEvents (this w) !! key = Some (TimerHandle id)
            ∨ (id = next_timer (loop w) ∧ key = timeout_key E)) as Hkey.
    { through. intros Hk. destruct (decide (key = timeout_key E)) as [->|Hne].
      - rewrite lookup_insert_eq in Hk. injection Hk as <-. by right.
      - rewrite lookup_insert_ne in Hk by done.
        destruct (decide (key = E)) as [->|Hne'].
        + by rewrite lookup_insert_eq in Hk.
        + rewrite lookup_insert_ne in Hk by done. by left. }
    destruct (_ !! timeout_key E) as [[|]|]; through;
      (intros [Hk|[-> ->]]%Hkey; [by left|right];
       split_and!; [done|lia|by eexists _, _]).
  - intros id. destruct (_ !! timeout_key E) as [[|]|]; through; by left.
  - intros id. destruct (_ !! timeout_key E) as [[|]|]; through; by left.
Qed.

Lemma sound_process E eventType w :
  sound_handles w → sound_handles (processPendingEvent E eventType w).
Proof.
  intros Hw. unfold processPendingEvent.
  destruct (pendingEvents (this w) !! E) as [pending|]; [|done].
  assert (sound_handles
            (on_this (λ c, set_pendingEvents
                             (delete (timeout_key E) (delete E (pendingEvents c))) c)
               w)) as Hw1.
  { apply (sound_quiet w); through; try done; [apply Hw|].
    intros key id Hk. apply lookup_delete_Some in Hk as [_ Hk].
    by apply lookup_delete_Some in Hk as [_ Hk]. }
  cbn zeta. set (w1 := on_this _ w) in *.
  destruct pending as [event names|id].
  - eapply sound_kept; [apply emit_kept|].
    destruct (first_queue_member _ _ _).
    + eapply sound_kept; [apply emit_kept|].
      eapply sound_kept; [|exact Hw1]. by repeat split.
    + eapply sound_kept; [|exact Hw1]. by repeat split.
  - eapply sound_kept; [apply emit_kept|done].
Qed.

Lemma sound_connect w : sound_handles w → sound_handles (connect w).
Proof.
  intros Hw. unfold connect.
  destruct (isReconnecting (this w) || negb (shouldReconnect (this w))); [done|].
  unfold setTimeout. cbn zeta.
  apply (sound_step ConnectTimedOut w); through; try done.
  - lia.
  - apply Hw.
  - intros t [Ht| ->%list_elem_of_singleton]%elem_of_app; [by left|right].
    cbn. split_and!; [done|lia|done].
  - by left.
  - intros id [= <-]. right. split_and!; [done|lia|done].
  - by left.
Qed.

Lemma sound_handleConnection w : sound_handles w → sound_handles (handleConnection w).
Proof.
  intros Hw. unfold handleConnection. cbn zeta.
  eapply sound_kept; [|apply sound_clear_connectionTimeout, Hw]. by repeat split.
Qed.

Lemma sound_handleDisconnection w :
  sound_handles w → sound_handles (handleDisconnection w).
Proof.
  intros Hw. unfold handleDisconnection. cbn zeta.
  pose proof (sound_clear_reconnectTimeout _ (sound_clear_connectionTimeout w Hw))
    as Hw2.
  set (w2 := clear_reconnectTimeout _) in *.
  set (w4 := emit disconnected _).
  assert (sound_handles w4) as Hw4
    by (eapply sound_kept; [|exact Hw2]; by repeat split).
  destruct (shouldReconnect (this w4)); [|done].
  unfold setTimeout. cbn zeta.
  apply (sound_step Reconnect w4); through; try done.
  - lia.
  - apply Hw4.
  - intros t [Ht| ->%list_elem_of_singleton]%elem_of_app; [by left|right].
    cbn. split_and!; [done|lia|done].
  - by left.
  - by left.
  - intros id [= <-]. right. split_and!; [done|lia|done].
Qed.

Lemma sound_cleanup close_error w :
  sound_handles w → sound_handles (cleanup close_error w).
Proof.
  intros Hw. unfold cleanup. cbn zeta.
  set (w1 := on_this (set_shouldReconnect false) w).
  assert (sound_handles w1) as Hw1 by (eapply sound_kept; [|exact Hw]; by repeat split).
  pose proof (sound_clear_reconnectTimeout _ (sound_clear_connectionTimeout w1 Hw1))
    as Hw3.
  set (w3 := clear_reconnectTimeout _) in *.
  pose proof (sound_kept _ _ (clear_entries_kept w3 (pendingEvents (this w3))) Hw3)
    as Hw4.
  set (w4 := map_fold clear_entry w3 (pendingEvents (this w3))) in *.
  set (w5 := on_this (set_pendingEvents ∅) w4).
  assert (sound_handles w5) as Hw5.
  { apply (sound_quiet w4); subst w5; through; try done; apply Hw4. }
  set (w7 := on_nami _ (on_nami _ w5)).
  eapply sound_kept; [|exact Hw5].
  destruct (isConnected (this w7)); [destruct close_error|]; by repeat split.
Qed.

Lemma sound_send_timed_out c w : sound_handles w → sound_handles (send_timed_out c w).
Proof.
  intros Hw. unfold send_timed_out. destruct (find_call c w); [|done].
  eapply sound_kept; [apply resume_kept|]. by apply sound_forget_call.
Qed.

Lemma sound_send_responded c response w :
  sound_handles w → sound_handles (send_responded c response w).
Proof.
  intros Hw. unfold send_responded. destruct (find_call c w) as [f|]; [|done].
  eapply sound_kept; [apply resume_kept|]. apply sound_forget_call.
  by eapply sound_kept; [apply clearTimeout_kept|].
Qed.

Lemma sound_handleEvent event w : sound_handles w → sound_handles (handleEvent event w).
Proof.
  intros Hw. unfold handleEvent. repeat case_decide; try done.
  - by apply sound_send.
  - by apply sound_schedule.
  - eapply sound_kept; [apply handleQueueMemberAdded_kept|done].
  - eapply sound_kept; [apply handleQueueMemberRemoved_kept|done].
  - by apply sound_schedule.
Qed.

Lemma sound_fire t w : sound_handles w → sound_handles (fire t w).
Proof.
  intros Hw. unfold fire. cbn zeta.
  assert (sound_handles
            (on_loop (λ l, set_now (Z.max (now l) (due t))
                             (set_timers (filter (λ t', timer_id t' ≠ timer_id t)
                                            (timers l)) l)) w)) as Hw1.
  { apply (sound_quiet w); through; try done; [apply Hw|].
    by intros t' [_ ?]%list_elem_of_filter. }
  set (w1 := on_loop _ w) in *.
  destruct (callback t).
  - by apply sound_process.
  - apply sound_handleDisconnection. eapply sound_kept; [apply emit_kept|done].
  - by apply sound_connect.
  - by apply sound_send_timed_out.
Qed.

Lemma dispatch_sound i w : sound_handles w → sound_handles (dispatch i w).
Proof.
  intros Hw. destruct i; cbn [dispatch].
  - destruct (find_timer id w); [by apply sound_fire|done].
  - destruct (listeners (nami w)); [by apply sound_handleConnection|done].
  - destruct (listeners (nami w)); [by apply sound_handleDisconnection|done].
  - destruct (listeners (nami w)); [|done]. apply sound_handleDisconnection.
    eapply sound_kept; [apply emit_kept|done].
  - destruct (listeners (nami w)); [by apply sound_handleEvent|done].
  - destruct (listeners (nami w)); [|done]. apply sound_handleDisconnection.
    eapply sound_kept; [apply emit_kept|done].
  - case_decide; [|done]. apply sound_handleDisconnection.
    eapply sound_kept; [apply emit_kept|done].
  - destruct (routing (nami w)); [by apply sound_send_responded|done].
  - case_decide; [by apply sound_handleDisconnection|done].
  - by apply sound_cleanup.
  - by apply sound_connect.
  - by apply sound_cleanup.
  - by apply sound_send.
  - by apply sound_send.
  - by apply sound_send.
  - by apply sound_send.
  - by apply sound_send.
Qed.

Lemma run_sound history w : sound_handles w → sound_handles (run history w).
Proof.
  revert w. induction history as [|i history IH]; intros w Hw; [done|].
  cbn [run foldl]. by apply IH, dispatch_sound.
Qed.

Lemma schedule_keeps_other_timers E eventType event w t :
  sound_handles w → t ∈ timers (loop w) →
  (∀ ty, callback t ≠ ProcessPending E ty) →
  t ∈ timers (loop (scheduleEventProcessing E eventType event w)).
Proof.
  intros (_ & HT & _) Ht Hcb.
  unfold scheduleEventProcessing, setTimeout, clearTimeout. cbn zeta. through.
  rewrite lookup_insert_ne by apply timeout_key_ne.
  destruct (pendingEvents (this w) !! timeout_key E) as [[|id]|] eqn:Hk; through;
    apply elem_of_app; left; try done.
  apply list_elem_of_filter. split; [|done]. intros Hid.
  destruct (HT _ _ Hk) as [_ Hown].
  destruct (Hown t Ht Hid) as (E0 & ty & ->%timeout_key_inj & Hcb').
  by apply (Hcb ty).
Qed.

(** X18.  The debounce is per extension.  On a cache with any history,
    the arrival of a status or pause event of an extension cancels no
    timer but the debounce timer of that extension: the debounce timers
    of the other extensions, the timers of the connection and the
    timeouts of the commands stay armed, due when they were.  It leaves
    the entries of the other extensions in the table of pending events
    alone, as long as the names do not differ by the suffix [_timeout]
    only; it does not touch the queue map and emits nothing. *)
Theorem debounce_is_per_extension history E eventType event :
  let w := run history new_AsteriskCache in
  let w' := scheduleEventProcessing E eventType event w in
  (∀ t, t ∈ timers (loop w) → (∀ ty, callback t ≠ ProcessPending E ty) →
     t ∈ timers (loop w')) ∧
  (∀ E', E' ≠ E → E' ≠ timeout_key E → timeout_key E' ≠ E →
     pendingEvents (this w') !! E' = pendingEvents (this w) !! E' ∧
     pendingEvents (this w') !! timeout_key E'
     = pendingEvents (this w) !! timeout_key E') ∧
  queues (this w') = queues (this w) ∧
  emitted w' = emitted w.
Proof.
  intros w w'. split_and!.
  - intros t Ht Hcb. apply schedule_keeps_other_timers; [|done..].
    apply run_sound, sound_new.
  - intros E' H1 H2 H3. subst w'.
    unfold scheduleEventProcessing, setTimeout, clearTimeout. cbn zeta.
    destruct (_ !! timeout_key E) as [[|]|]; through;
      (split; rewrite !lookup_insert_ne; try done;
       by intros ?%timeout_key_inj).
  - apply scheduleEventProcessing_queues.
  - subst w'. unfold scheduleEventProcessing, setTimeout, clearTimeout. cbn zeta.
    by destruct (_ !! timeout_key E) as [[|]|].
Qed.

Lemma clear_connectionTimeout_keeps w t :
  sound_handles w → t ∈ timers (loop w) → callback t ≠ ConnectTimedOut →
  t ∈ timers (loop (clear_connectionTimeout w)).
Proof.
  intros (_ & _ & HC & _) Ht Hcb. unfold clear_connectionTimeout, clearTimeout.
  destruct (connectionTimeout (this w)) as [id|] eqn:Hid; [|done]. through.
  apply list_elem_of_filter. split; [|done]. intros Heq.
  by destruct (HC id eq_refl) as [_ Hown]; specialize (Hown t Ht Heq).
Qed.

Lemma clear_reconnectTimeout_keeps w t :
  sound_handles w → t ∈ timers (loop w) → callback t ≠ Reconnect →
  t ∈ timers (loop (clear_reconnectTimeout w)).
Proof.
  intros (_ & _ & _ & HR) Ht Hcb. unfold clear_reconnectTimeout, clearTimeout.
  destruct (reconnectTimeout (this w)) as [id|] eqn:Hid; [|done]. through.
  apply list_elem_of_filter. split; [|done]. intros Heq.
  by destruct (HR id eq_refl) as [_ Hown]; specialize (Hown t Ht Heq).
Qed.

Lemma handleDisconnection_calls w :
  inflight (loop (handleDisconnection w)) = inflight (loop w) ∧
  results (handleDisconnection w) = results w.
Proof.
  unfold handleDisconnection, clear_reconnectTimeout, clear_connectionTimeout,
    setTimeout, clearTimeout.
  destruct (connectionTimeout (this w)); through;
    (destruct (reconnectTimeout (this w)); through;
     by destruct (shouldReconnect (this w))).
Qed.

(** X19.  What happens to the connection cancels only the timers of the
    connection.  On a cache with any history, a debounce timer or the
    timeout of a command that is armed stays armed, due when it was,
    through [connect], [handleConnection] and [handleDisconnection]: the
    loss of the connection does not drop the notifications that wait, and
    it does not settle the commands in flight, which wait for their own
    timeout. *)
Theorem connection_leaves_other_timers history t :
  let w := run history new_AsteriskCache in
  t ∈ timers (loop w) → callback t ≠ ConnectTimedOut → callback t ≠ Reconnect →
  t ∈ timers (loop (connect w)) ∧
  t ∈ timers (loop (handleConnection w)) ∧
  t ∈ timers (loop (handleDisconnection w)) ∧
  inflight (loop (handleDisconnection w)) = inflight (loop w) ∧
  results (handleDisconnection w) = results w.
Proof.
  intros w Ht HC HR.
  assert (sound_handles w) as Hw by apply run_sound, sound_new.
  pose proof (clear_connectionTimeout_keeps w t Hw Ht HC) as H1.
  pose proof (clear_reconnectTimeout_keeps _ t
                (sound_clear_connectionTimeout w Hw) H1 HR) as H2.
  split_and!.
  - unfold connect. destruct (_ || _); [done|]. unfold setTimeout. through.
    apply elem_of_app. by left.
  - unfold handleConnection. by through.
  - unfold handleDisconnection. cbn zeta.
    destruct (shouldReconnect _); unfold setTimeout; through; [|done].
    apply elem_of_app. by left.
  - apply handleDisconnection_calls.
  - apply handleDisconnection_calls.
Qed.

Lemma connection_leaves_other_timers_witness :
  let w := run one_event_waiting new_AsteriskCache in
  let t := {| timer_id := 1; due := 500;
              callback := ProcessPending "SIP/100" QueueMemberPause |} in
  t ∈ timers (loop w) ∧ t ∈ timers (loop (handleDisconnection w)).
Proof.
  assert ({| timer_id := 1; due := 500;
             callback := ProcessPending "SIP/100" QueueMemberPause |}
            ∈ timers (loop (run one_event_waiting new_AsteriskCache))) as Ht.
  { vm_compute. apply list_elem_of_here. }
  split; [exact Ht|].
  by apply (connection_leaves_other_timers one_event_waiting _ Ht).
Defined.

(** ** From the connection to the first image of the queues *)

(** X20.  The start of a cache: [connect], the connection comes up,
    Asterisk sends [FullyBooted], and the reply to the queue-status
    command the cache sends in turn arrives.  Whatever the reply lists,
    the cache is then connected, the queue map is the one built from the
    reply, the notifications are [connected] and [queuesUpdated] with
    that map, the transport was opened once and sent one command, and no
    timer is left armed: neither the connect timeout nor the timeout of
    the command fires later. *)
Theorem boot_sequence event r events :
  Event.event event = "FullyBooted" →
  Response.response r ≠ "Error" →
  Response.events r = Some events →
  let w := run [call_connect; namiConnected; namiEvent event;
                nami_response 0 (Some r)] new_AsteriskCache in
  isConnected (this w) = true ∧
  queues (this w) = resync events None [] ∧
  getQueues w = Map_values (resync events None []) ∧
  emitted w = [connected; queuesUpdated (Map_values (resync events None []))] ∧
  sent (nami w) = [QueueStatus] ∧
  opened (nami w) = 1 ∧
  timers (loop w) = [] ∧
  inflight (loop w) = [].
Proof.
  intros Hev Hok Hevents w. subst w. cbn [run foldl].
  change (dispatch namiConnected (dispatch call_connect new_AsteriskCache))
    with connected_cache.
  assert (dispatch (namiEvent event) connected_cache
          = _send updateQueues_method QueueStatus 5000 connected_cache) as ->.
  { cbn [dispatch]. change (listeners (nami connected_cache)) with true.
    unfold handleEvent. by rewrite decide_True. }
  destruct (_send_response_arrives updateQueues_method QueueStatus 5000
              connected_cache connected_cache_fresh (Some r) eq_refl eq_refl)
    as (w' & Hrun & Hthis & Hres & Hem & Hnami & Htm & Hin).
  change (next_call (loop connected_cache)) with 0 in Hrun. rewrite Hrun.
  unfold send_callback. rewrite decide_False by done.
  cbn [resume]. unfold updateQueues_resume. rewrite Hevents. unfold getQueues.
  through. rewrite Hthis, Hem, Hnami, Htm, Hin. done.
Qed.

Lemma boot_sequence_witness :
  let w := run [call_connect; namiConnected; namiEvent fully_booted;
                nami_response 0 (Some (status_response boot_entries))]
             new_AsteriskCache in
  Response.response (status_response boot_entries) ≠ "Error" ∧
  queues (this w) = resync boot_entries None [] ∧
  timers (loop w) = [].
Proof.
  assert (Response.response (status_response boot_entries) ≠ "Error") as Hok
    by done.
  split; [exact Hok|].
  destruct (boot_sequence fully_booted (status_response boot_entries) boot_entries
              eq_refl Hok eq_refl) as (_ & Hq & _ & _ & _ & _ & Ht & _).
  by split.
Defined.

(** ** Shutting down, and what [connect] is refused for *)



















